(** * Liora core: message pipeline, permissions, command lookup, rate limiter

    A shallow embedding of [src/liora-core.js].  The bot object is a record
    that is threaded through the middleware stages; the stages are written in
    continuation-passing style, as in the source, where every stage receives
    the container [c] and the continuation [next].

    Modelling conventions.
    - JavaScript strings are [string]s over the code units 0..255.
    - Plain objects used as dictionaries ([config.groups],
      [config.commandAliases], [userMessageCounters], ...) are [gmap]s over
      their own properties; [bot.userCooldowns] (a [Set]) is a [gset];
      arrays are lists.  Where the source reads such an object with [in] or
      by indexing under a name that a user or a module chooses (a command
      token, an alias, a module name), the properties inherited from
      [Object.prototype] are followed as well, see [Proto].  The ids of
      users and servers come from Discord and are snowflakes, strings of
      digits; under them only own properties are read.
    - [bot.modules] is enumerated with [Object.keys], so it is an association
      list in the order of [Object.keys]: the names that are array indices
      first, in ascending order, then the other names in insertion order.
      It is kept beside the record of the bot, because the middleware and
      the commands of a module are functions on that record; a run of the
      bot is a run with one registry, in which no command loads or unloads
      a module.
    - [setTimeout] is modelled by a queue of pending timers with a due time
      on a millisecond clock [now]; a timer fires exactly when the clock
      reaches its due time, and before any message that arrives at that time.
      A delay below 1 or above 2^31-1 is replaced by 1, as Node does.
    - An exception ends the stage that raises it and everything that stage
      was called from; the bot keeps the changes made before it.
    - Commands and module middleware are supplied from outside.  A command's
      [execute] is handed the bot: it is modelled by what it has done to
      the bot when it returns, and by the way it ends: with a promise that
      is resolved or rejected, with an exception, or with a value that is
      no promise.  The promise counts as settled when the call returns, so
      that what the handler of a rejection does is part of the same step.
      The call is recorded in [executed].
    - Logging is left out. *)

From stdpp Require Import base strings gmap list.
From Stdlib Require Import ZArith Ascii.

Local Open Scope Z_scope.
Local Open Scope stdpp_scope.

(** ** JavaScript helpers *)

Module JS.

(** [a || b] on strings: the empty string is falsy, [undefined] too. *)
Definition or_string (a : option string) (b : string) : string :=
  match a with
  | Some "" => b
  | Some v => v
  | None => b
  end.

(** [a || 0] on a counter: [undefined] and [0] give [0]. *)
Definition or_zero (a : option Z) : Z :=
  match a with
  | Some v => v
  | None => 0
  end.

(** White space: the class written backslash-s in a pattern, which is also
    what [trim] removes; in the range 0..255 these are tab, line feed,
    vertical tab, form feed, carriage return, space and no-break space. *)
Definition is_space (ch : ascii) : bool :=
  match ch with
  | "009" | "010" | "011" | "012" | "013" | " " | "160" => true
  | _ => false
  end%char.

(** The double quote (34) and the single quote (39). *)
Definition is_quote (ch : ascii) : bool :=
  match ch with
  | "034" | "039" => true
  | _ => false
  end%char.

(** The negated class of the argument pattern: neither white space nor a
    quote. *)
Definition is_plain (ch : ascii) : bool :=
  negb (is_space ch) && negb (is_quote ch).

Fixpoint takeWhile {A} (p : A → bool) (l : list A) : list A :=
  match l with
  | [] => []
  | x :: l' => if p x then x :: takeWhile p l' else []
  end.

Fixpoint dropWhile {A} (p : A → bool) (l : list A) : list A :=
  match l with
  | [] => []
  | x :: l' => if p x then dropWhile p l' else l
  end.

(** [String.prototype.trim]. *)
Definition trim (s : list ascii) : list ascii :=
  reverse (dropWhile is_space (reverse (dropWhile is_space s))).

(** [s.indexOf(p) === 0]. *)
Fixpoint startsWith (p s : list ascii) : bool :=
  match p, s with
  | [], _ => true
  | a :: p', b :: s' => bool_decide (a = b) && startsWith p' s'
  | _ :: _, [] => false
  end.

(** [_.endsWith(s, q)] for the question mark [q]. *)
Definition endsWith_qmark (s : string) : bool :=
  match last (String.list_ascii_of_string s) with
  | Some "?"%char => true
  | _ => false
  end.

(** [toLowerCase] on the code units 0..255: A-Z, and the Latin-1 capitals
    192..222 without the multiplication sign 215. *)
Definition lower_char (ch : ascii) : ascii :=
  let n := nat_of_ascii ch in
  if ((65 <=? n)%nat && (n <=? 90)%nat)
     || ((192 <=? n)%nat && (n <=? 222)%nat && negb (n =? 215)%nat)
  then ascii_of_nat (n + 32) else ch.

Definition toLowerCase (s : list ascii) : list ascii := map lower_char s.

(** Scanning for a closing quote [q]: the text up to it and what follows. *)
Fixpoint closing (q : ascii) (s : list ascii) : option (list ascii * list ascii) :=
  match s with
  | [] => None
  | ch :: s' =>
      if bool_decide (ch = q) then Some ([], s')
      else match closing q s' with
           | Some (body, rest) => Some (ch :: body, rest)
           | None => None
           end
  end.

(** [s.match] with the global argument pattern of [commandDetector]: a
    run of plain characters, or a double-quoted text, or a single-quoted
    text.  The successive matches are collected scanning from the left; at
    each position the three alternatives are tried in order, and where none
    matches the scan moves one character on.
    Every match is at least one character long, so [fuel = length s]
    steps are enough. *)
Fixpoint scan (fuel : nat) (s : list ascii) : list (list ascii) :=
  match fuel with
  | O => []
  | S fuel' =>
      match s with
      | [] => []
      | ch :: s' =>
          if is_plain ch then
            takeWhile is_plain s :: scan fuel' (dropWhile is_plain s')
          else if is_quote ch then
            match closing ch s' with
            | Some (body, rest) => (ch :: body ++ [ch]) :: scan fuel' rest
            | None => scan fuel' s'
            end
          else scan fuel' s'
      end
  end.

(** The result of [match] with a global pattern: [null] when nothing
    matches. *)
Definition match_args (s : list ascii) : option (list (list ascii)) :=
  match scan (length s) s with
  | [] => None
  | ms => Some ms
  end.

(** [a.replace] with the quote-stripping pattern of [commandDetector]: the
    leading run of quotes goes, then one quote at the very end. *)
Definition strip_quotes (a : list ascii) : list ascii :=
  let a1 := dropWhile is_quote a in
  match last a1 with
  | Some ch => if is_quote ch then removelast a1 else a1
  | None => a1
  end.

(** The delay that a timer really gets: Node replaces a delay below 1 or
    above 2^31-1 milliseconds by 1. *)
Definition timeoutDelay (delay : Z) : Z :=
  if bool_decide (1 ≤ delay ≤ 2147483647) then delay else 1.

End JS.

(** ** Array indices among property names *)

(** The digits 0 to 9. *)
Definition is_digit (ch : ascii) : bool :=
  let n := nat_of_ascii ch in (48 <=? n)%nat && (n <=? 57)%nat.

(** The number written by a text of digits. *)
Definition decimal (ds : list ascii) : N :=
  foldl (λ n d, 10 * n + N.of_nat (nat_of_ascii d - 48))%N 0%N ds.

(** A property name that is an array index: 0, or digits that do not begin
    with 0, below 2^32-1. *)
Definition array_index (name : list ascii) : option N :=
  match name with
  | [] => None
  | d :: ds =>
      if forallb is_digit (d :: ds)
         && (bool_decide (ds = []) || negb (bool_decide (d = "0"%char)))
         && (decimal (d :: ds) <? 4294967295)%N
      then Some (decimal (d :: ds)) else None
  end.

(** ** Values, and what a plain object inherits *)

(** The values that turn up where the source expects the name of a command,
    a permission group or a role: [undefined], a string, or one of the
    functions and objects of [Object.prototype], given by what [String]
    makes of it. *)
Module Value.
Inductive t :=
| Undefined
| Str (s : string)
| Native (text : string).

Definition of_option (v : option string) : t :=
  match v with
  | Some s => Str s
  | None => Undefined
  end.

(** The property key made from a value. *)
Definition key (v : t) : string :=
  match v with
  | Undefined => "undefined"
  | Str s => s
  | Native text => text
  end.

(** [a || b]: [undefined] and the empty string are falsy. *)
Definition or (a b : t) : t :=
  match a with
  | Undefined => b
  | Str "" => b
  | _ => a
  end.
End Value.

Global Instance Value_eq_dec : EqDecision Value.t.
Proof. solve_decision. Defined.

Module Proto.
(** The names of the properties of [Object.prototype]. *)
Definition keys : list string :=
  ["constructor"; "__defineGetter__"; "__defineSetter__"; "hasOwnProperty";
   "__lookupGetter__"; "__lookupSetter__"; "isPrototypeOf";
   "propertyIsEnumerable"; "toString"; "valueOf"; "__proto__";
   "toLocaleString"].

(** What [String] makes of the value inherited under a name: the prototype
    itself under [__proto__], the function [Object] under [constructor], a
    function of the same name otherwise. *)
Definition text (k : string) : string :=
  if bool_decide (k = "__proto__") then "[object Object]"
  else if bool_decide (k = "constructor")
       then "function Object() { [native code] }"
  else "function " +:+ k +:+ "() { [native code] }".

(** [k in o] for a plain object [o]. *)
Definition has {A} (o : gmap string A) (k : string) : bool :=
  bool_decide (is_Some (o !! k)) || bool_decide (k ∈ keys).

(** [o[k]] for a plain object [o] whose own properties are strings. *)
Definition get (o : gmap string string) (k : string) : Value.t :=
  match o !! k with
  | Some v => Value.Str v
  | None => if bool_decide (k ∈ keys) then Value.Native (text k)
            else Value.Undefined
  end.
End Proto.

(** ** Data model *)

Definition of_string : string → list ascii := String.list_ascii_of_string.
Definition to_string : list ascii → string := String.string_of_list_ascii.

Module JSError.
(** Thrown values and rejection reasons: [Error] objects, of which
    [TypeError] is the kind raised by the runtime itself. *)
Inductive t :=
| Error (message : string)
| TypeError (message : string).

Definition message (e : t) : string :=
  match e with
  | Error m => m
  | TypeError m => m
  end.
End JSError.

Module User.
Record t := { id : string; bot : bool; username : string; discriminator : string }.
End User.

Module Guild.
Record t := { id : string }.
End Guild.

Module GuildMember.
(** [member.roles] is a collection keyed by role id; only [has] is used. *)
Record t := { roles : gset string }.
End GuildMember.

Record Message := {
  author : User.t;
  content : string;
  channel : string;
  guild : option Guild.t;
  member : option GuildMember.t
}.

(** What [channel.send({ embed })] receives. *)
Module Embed.
Record t := { title : string; description : option string; color : string }.
End Embed.

Module Colors.
Record t := { neutral : string; error : string; success : string }.
End Colors.

Record UserCooldown := {
  intervalMs : Z;
  messageCount : Z;
  blockDurationMs : Z
}.

Module ServerSettings.
Record t := { prefix : option string }.
End ServerSettings.

Record Config := {
  owner : string;
  prefix : string;
  commandAliases : gmap string string;
  defaultColors : Colors.t;
  defaultUserCooldown : UserCooldown;
  blockedUsers : list string;
  settings : gmap string ServerSettings.t;
  groups : gmap string (list string);
  commandPermissions : gmap string string;
  serverPermissions : gmap string (gmap string string)
}.

(** The callbacks handed to [setTimeout] by [rateLimiter]: the first closes
    the counting window of a user, the second takes the user off the
    blocked list. *)
Inductive Timer :=
| WindowExpiry (id : string)
| Unblock (id : string).

Global Instance Timer_eq_dec : EqDecision Timer.
Proof. solve_decision. Defined.

(** A call of a command's [execute], as (command name, args, message). *)
Definition Invocation : Type := string * list string * Message.

(** The bot object without [bot.modules] (kept beside it, see [Registry]).
    [timers] and [now] stand for the event loop's timer queue and clock;
    [sent] collects what was sent to channels and [executed] the commands
    that were run, oldest first. *)
Record Bot := {
  config : Config;
  userCooldowns : gset string;
  userMessageCounters : gmap string Z;
  timers : list (Z * Timer);
  now : Z;
  sent : list (string * Embed.t);
  executed : list Invocation
}.

Definition with_blockedUsers (l : list string) (cfg : Config) : Config :=
  {| owner := owner cfg; prefix := prefix cfg;
     commandAliases := commandAliases cfg; defaultColors := defaultColors cfg;
     defaultUserCooldown := defaultUserCooldown cfg; blockedUsers := l;
     settings := settings cfg; groups := groups cfg;
     commandPermissions := commandPermissions cfg;
     serverPermissions := serverPermissions cfg |}.

Definition with_config (cfg : Config) (b : Bot) : Bot :=
  {| config := cfg; userCooldowns := userCooldowns b;
     userMessageCounters := userMessageCounters b; timers := timers b;
     now := now b; sent := sent b; executed := executed b |}.

Definition with_userCooldowns (s : gset string) (b : Bot) : Bot :=
  {| config := config b; userCooldowns := s;
     userMessageCounters := userMessageCounters b; timers := timers b;
     now := now b; sent := sent b; executed := executed b |}.

Definition with_userMessageCounters (m : gmap string Z) (b : Bot) : Bot :=
  {| config := config b; userCooldowns := userCooldowns b;
     userMessageCounters := m; timers := timers b;
     now := now b; sent := sent b; executed := executed b |}.

Definition with_timers (q : list (Z * Timer)) (b : Bot) : Bot :=
  {| config := config b; userCooldowns := userCooldowns b;
     userMessageCounters := userMessageCounters b; timers := q;
     now := now b; sent := sent b; executed := executed b |}.

Definition with_now (t : Z) (b : Bot) : Bot :=
  {| config := config b; userCooldowns := userCooldowns b;
     userMessageCounters := userMessageCounters b; timers := timers b;
     now := t; sent := sent b; executed := executed b |}.

Definition with_sent (l : list (string * Embed.t)) (b : Bot) : Bot :=
  {| config := config b; userCooldowns := userCooldowns b;
     userMessageCounters := userMessageCounters b; timers := timers b;
     now := now b; sent := l; executed := executed b |}.

Definition with_executed (l : list Invocation) (b : Bot) : Bot :=
  {| config := config b; userCooldowns := userCooldowns b;
     userMessageCounters := userMessageCounters b; timers := timers b;
     now := now b; sent := sent b; executed := l |}.

(** What a promise is rejected with: an object that has a [message], as an
    [Error] has; a value that has none, so that reading [message] gives
    [undefined]; or [null] or [undefined], where reading [message] raises
    the [TypeError] [e]. *)
Module Reason.
Inductive t :=
| Failure (err : JSError.t)
| Plain
| Nullish (e : JSError.t).
End Reason.

(** The way a call of [execute] ends: it returns a promise that is resolved
    or rejected, it throws [e], or it returns a value that is no promise,
    on which the call of [catch] raises the [TypeError] [e]. *)
Inductive ExecResult :=
| Resolved
| Rejected (reason : Reason.t)
| Threw (e : JSError.t)
| NoPromise (e : JSError.t).

(** A command of a module.  [execute] gets the args, the message and the
    bot, and gives the bot as it is when the call returns. *)
Record Command := {
  name : string;
  aliases : list string;
  argumentNames : list string;
  permissionLevel : string;
  description : string;
  execute : list string → Message → Bot → Bot * ExecResult
}.

(** How a stage ends: it returns, or an exception leaves it, or it returns
    and leaves behind a promise that is rejected with [e] and that nothing
    handles. *)
Inductive Completion :=
| Normal
| Throw (e : JSError.t)
| Unhandled (e : JSError.t).

(** The container [c] handed from stage to stage; [args] and [command] are
    absent until [commandDetector] sets them. *)
Record Container := {
  message : Message;
  args : option (list string);
  command : option string
}.

(** A middleware stage [(c, next) => ...] acting on the bot. *)
Definition Middleware : Type :=
  Container → (Container → Bot → Bot * Completion) → Bot → Bot * Completion.

(** A loaded module: what [require] gave, with the [path] and the
    [defaultAliases] that [loadModule] adds. *)
Record Module := {
  path : string;
  commands : list Command;
  middleware : list Middleware;
  defaultAliases : gmap string string
}.

(** [bot.modules], in the order of [Object.keys]. *)
Definition Registry : Type := list (string * Module).

(** The parts of a server that the parsers of [bot.util] read. *)

(** A member of a server as [parseUsername] reads it. *)
Module ServerMember.
Record t := { user : User.t; nickname : option string; id : string }.
End ServerMember.

Module Role.
Record t := { id : string; name : string }.
End Role.

Module Channel.
Record t := { id : string; name : string }.
End Channel.

(** The collections of a server, each in insertion order with its keys. *)
Module Server.
Record t := {
  members : list (string * ServerMember.t);
  roles : list (string * Role.t);
  channels : list (string * Channel.t)
}.
End Server.

Section Liora.

Set Default Proof Using "Type".

(** What the bot takes from its surroundings: the [pretty-ms] formatter,
    and for [loadModule] the file system, [path.join], [__dirname] and
    [require], which gives a module's exports or throws. *)
Variable prettyMs : Z → string.
Variable path_join : string → string → string.
Variable dirname : string.
Variable existsSync : string → bool.
Variable require : string → JSError.t + (list Command * list Middleware).

(** Propositional reasoning that leaves the section's variables alone. *)
Local Ltac taut :=
  try clear require; try clear existsSync; try clear dirname;
  try clear path_join; try clear prettyMs; tauto.

(** ** Module management *)

Definition localModuleDirectory : string := "../modules".

(** [name in this.modules]: an own key of the registry, or a name that
    every plain object inherits. *)
Definition registry_has (name : string) (modules : Registry) : bool :=
  bool_decide (name ∈ modules.*1) || bool_decide (name ∈ Proto.keys).

(** [this.modules[name]]. *)
Fixpoint registry_get (name : string) (modules : Registry) : option Module :=
  match modules with
  | [] => None
  | (n, m) :: rest =>
      if bool_decide (n = name) then Some m else registry_get name rest
  end.

(** The place of a new key in the order of [Object.keys]: an array index
    goes before the first key that is no array index or a greater one, any
    other name goes last. *)
Fixpoint registry_insert (index : option N) (name : string) (m : Module)
    (modules : Registry) : Registry :=
  match modules with
  | [] => [(name, m)]
  | (n, m') :: rest =>
      match index, array_index (of_string n) with
      | Some i, Some j =>
          if bool_decide (j < i)%N
          then (n, m') :: registry_insert index name m rest
          else (name, m) :: modules
      | Some _, None => (name, m) :: modules
      | None, _ => (n, m') :: registry_insert index name m rest
      end
  end.

(** Giving an existing key a new value. *)
Fixpoint registry_replace (name : string) (m : Module) (modules : Registry) : Registry :=
  match modules with
  | [] => []
  | (n, m') :: rest =>
      if bool_decide (n = name) then (n, m) :: rest
      else (n, m') :: registry_replace name m rest
  end.

(** [this.modules[name] = m], for a name that passed the test of
    [loadModule]: an existing key keeps its place, a new key gets the place
    that [Object.keys] gives it. *)
Definition registry_set (name : string) (m : Module) (modules : Registry) : Registry :=
  if bool_decide (name ∈ modules.*1) then registry_replace name m modules
  else registry_insert (array_index (of_string name)) name m modules.

(** [delete this.modules[name]]. *)
Definition registry_delete (name : string) (modules : Registry) : Registry :=
  filter (λ e, e.1 ≠ name) modules.

(** The two nested [forEach] loops that fill [newModule.defaultAliases]. *)
Definition buildDefaultAliases (cmds : list Command) : gmap string string :=
  foldl (λ acc cmd, foldl (λ acc a, <[a := name cmd]> acc) acc (aliases cmd))
        ∅ cmds.

(** One round of the [moduleSources.forEach] in [loadModule]; the state of
    the loop is the registry, the flag [found] and the calls of
    [callback] so far ([None] for a call without an error). *)
Definition loadFrom (name : string)
    (acc : Registry * bool * list (option JSError.t)) (directory : string)
    : Registry * bool * list (option JSError.t) :=
  let '(modules, found, calls) := acc in
  let absolutePath := path_join directory name in
  let absolutePath :=
    if bool_decide (directory = localModuleDirectory)
    then path_join dirname absolutePath else absolutePath in
  if existsSync absolutePath then
    let absolutePath :=
      if negb (existsSync (path_join absolutePath "package.json"))
      then path_join absolutePath "main.js" else absolutePath in
    match require absolutePath with
    | inl err => (modules, found, calls ++ [Some err])
    | inr (cmds, mw) =>
        let newModule :=
          {| path := absolutePath; commands := cmds; middleware := mw;
             defaultAliases := buildDefaultAliases cmds |} in
        (registry_set name newModule modules, true, calls ++ [None])
    end
  else (modules, found, calls).

(** [bot.loadModule]: the registry afterwards and the calls of [callback]. *)
Definition loadModule (moduleSources : list string) (name : string)
    (modules : Registry) : Registry * list (option JSError.t) :=
  if negb (registry_has name modules) then
    let '(modules', found, calls) :=
      foldl (loadFrom name) (modules, false, []) moduleSources in
    if negb found then
      (modules', calls ++ [Some (JSError.Error ("Module " +:+ name +:+ " not found"))])
    else (modules', calls)
  else
    (modules, [Some (JSError.Error ("Module " +:+ name +:+ " already loaded"))]).

(** What [require.resolve] throws for the [undefined] that the [path] of
    an inherited value is. *)
Definition resolve_of_undefined : JSError.t :=
  JSError.TypeError ("The " +:+ String "034" "request" +:+ String "034" ""
                     +:+ " argument must be of type string. Received undefined").

(** [bot.unloadModule]: the registry afterwards, the calls of [callback],
    and the way the call ends.  A name that passes the test without being
    a key of the registry leads to an inherited value, which has no [path]:
    [require.resolve] throws and [callback] is not called.  For a module of
    the registry [require.resolve] finds the file that was loaded. *)
Definition unloadModule (name : string) (modules : Registry)
    : Registry * (list (option JSError.t) * Completion) :=
  if registry_has name modules then
    match registry_get name modules with
    | Some _ => (registry_delete name modules, ([None], Normal))
    | None => (modules, ([], Throw resolve_of_undefined))
    end
  else (modules,
        ([Some (JSError.Error ("Module " +:+ name +:+ " not currently loaded"))],
         Normal)).

(** ** Utility functions of the bot *)

Definition prefixForMessageContext (cfg : Config) (msg : Message) : string :=
  match guild msg with
  | Some g =>
      match settings cfg !! Guild.id g with
      | Some st => default (prefix cfg) (ServerSettings.prefix st)
      | None => prefix cfg
      end
  | None => prefix cfg
  end.

(** The group and the role are what the dispatcher hands over: strings,
    or values that are no strings, which are neither the group [all] nor a
    key of [config.groups] nor the id of a role. *)
Definition hasPermission (cfg : Config) (member : option GuildMember.t)
    (user : User.t) (group role : Value.t) : bool :=
  if bool_decide (User.id user = owner cfg) then true
  else if bool_decide (group = Value.Str "all") then true
  else if match group with
          | Value.Str g =>
              match groups cfg !! g with
              | Some members => bool_decide (User.id user ∈ members)
              | None => false
              end
          | _ => false
          end then true
  else if match member, role with
          | Some m, Value.Str r => bool_decide (r ∈ GuildMember.roles m)
          | _, _ => false
          end then true
  else false.

(** A property key made from a value that may be [undefined]. *)
Definition key (v : option string) : string := default "undefined" v.

(** One round of the first loop of [getCommandNamed]: what a module's
    alias index does to the name in hand. *)
Definition aliasStep (cmdStr : Value.t) (e : string * Module) : Value.t :=
  Value.or (Proto.get (defaultAliases e.2) (Value.key cmdStr)) cmdStr.

(** The first half of [getCommandNamed]: the name after the configured
    and the default aliases. *)
Definition resolveAlias (modules : Registry) (cfg : Config)
    (command : option string) : Value.t :=
  let cmdStr := Value.of_option command in
  if Proto.has (commandAliases cfg) (Value.key cmdStr)
  then Proto.get (commandAliases cfg) (Value.key cmdStr)
  else foldl aliasStep cmdStr modules.

(** [commands.find(cmd => cmd.name === cmdStr)]: a name equals a string
    only. *)
Definition findCommand (cmdStr : Value.t) (cmds : list Command) : option Command :=
  match cmdStr with
  | Value.Str s => List.find (λ cmd, bool_decide (name cmd = s)) cmds
  | _ => None
  end.

(** The second loop of [getCommandNamed], from any value of the result so
    far: the first [found] is kept. *)
Definition firstFound (cmdStr : Value.t) (result : option Command)
    (modules : Registry) : option Command :=
  foldl (λ result e,
           match result with
           | Some found => Some found
           | None => findCommand cmdStr (commands e.2)
           end)
        result modules.

(** [bot.getCommandNamed]: what [callback] is called with; [None] stands
    for the call without an argument. *)
Definition getCommandNamed (modules : Registry) (cfg : Config)
    (command : option string) : option Command :=
  firstFound (resolveAlias modules cfg command) None modules.

Definition sendEmojiEmbed (channel emoji color : string)
    (title description : option string) (b : Bot) : Bot :=
  let embed :=
    {| Embed.title := emoji +:+ "   " +:+ key title;
       Embed.description :=
         match description with
         | Some "" => None
         | d => d
         end;
       Embed.color := color |} in
  with_sent (sent b ++ [(channel, embed)]) b.

Definition sendError (channel title description : string) (b : Bot) : Bot :=
  sendEmojiEmbed channel "❌" (Colors.error (defaultColors (config b)))
                 (Some title) (Some description) b.

Definition username (user : User.t) : string :=
  User.username user +:+ "#" +:+ User.discriminator user.

(** ** Timers *)

(** The timer queue is ordered by due time; among equal due times the
    timer set first comes first. *)
Fixpoint schedule (due : Z) (cb : Timer) (q : list (Z * Timer)) : list (Z * Timer) :=
  match q with
  | [] => [(due, cb)]
  | (d, cb') :: q' =>
      if bool_decide (d ≤ due) then (d, cb') :: schedule due cb q'
      else (due, cb) :: q
  end.

Definition setTimeout (cb : Timer) (delay : Z) (b : Bot) : Bot :=
  with_timers (schedule (now b + JS.timeoutDelay delay) cb (timers b)) b.

(** Running a timer's callback. *)
Definition fire (cb : Timer) (b : Bot) : Bot :=
  match cb with
  | WindowExpiry id =>
      with_userMessageCounters (<[id := 0]> (userMessageCounters b))
        (with_userCooldowns (userCooldowns b ∖ {[id]}) b)
  | Unblock id =>
      with_config
        (with_blockedUsers (filter (λ i, i ≠ id) (blockedUsers (config b)))
                           (config b)) b
  end.

(** Running a list of timers, one after the other. *)
Definition fires (l : list (Z * Timer)) (b : Bot) : Bot :=
  foldl (λ b tm, fire tm.2 b) b l.

(** The clock reaches [t]: the timers due by then run, in queue order. *)
Definition advance (t : Z) (b : Bot) : Bot :=
  let due := filter (λ tm, tm.1 ≤ t) (timers b) in
  let later := filter (λ tm, ¬ tm.1 ≤ t) (timers b) in
  fires due (with_now (Z.max (now b) t) (with_timers later b)).

(** ** The middleware pipeline *)

Definition author_id (c : Container) : string := User.id (author (message c)).

Definition checkMessageAuthor : Middleware := λ c next b,
  if negb (User.bot (author (message c))) then next c b else (b, Normal).

Definition blockHandler : Middleware := λ c next b,
  if negb (bool_decide (author_id c ∈ blockedUsers (config b)))
  then next c b else (b, Normal).

(** Calling [map] on the [null] that [match] gives when nothing matches,
    and [toLowerCase] on the [undefined] that [shift] gives on an empty
    array. *)
Definition map_of_null : JSError.t :=
  JSError.TypeError "Cannot read property 'map' of null".
Definition toLowerCase_of_undefined : JSError.t :=
  JSError.TypeError "Cannot read property 'toLowerCase' of undefined".

Definition commandDetector : Middleware := λ c next b,
  let text := of_string (content (message c)) in
  let pfx := of_string (prefixForMessageContext (config b) (message c)) in
  if JS.startsWith pfx text then
    let argString := JS.trim (drop (length pfx) text) in
    match JS.match_args argString with
    | None => (b, Throw map_of_null)
    | Some ms =>
        match map JS.strip_quotes ms with
        | [] => (b, Throw toLowerCase_of_undefined)
        | a :: rest =>
            next {| message := message c;
                    args := Some (map to_string rest);
                    command := Some (to_string (JS.toLowerCase a)) |} b
        end
    end
  else (b, Normal).

Definition rateLimitEmbed (b : Bot) (user : User.t) : Embed.t :=
  {| Embed.title := "⌛ Rate limit exceeded";
     Embed.description :=
       Some ("User " +:+ username user +:+ " blocked for "
             +:+ prettyMs (blockDurationMs (defaultUserCooldown (config b))));
     Embed.color := Colors.error (defaultColors (config b)) |}.

(** The first statement of [rateLimiter]: a user without an open window
    gets one, with the timer that closes it. *)
Definition openWindow (id : string) (b : Bot) : Bot :=
  if negb (bool_decide (id ∈ userCooldowns b)) then
    setTimeout (WindowExpiry id) (intervalMs (defaultUserCooldown (config b)))
               (with_userCooldowns ({[id]} ∪ userCooldowns b) b)
  else b.

(** The counter after [|| 0] and the increment. *)
Definition countMessage (id : string) (b : Bot) : Bot :=
  with_userMessageCounters
    (<[id := JS.or_zero (userMessageCounters b !! id) + 1]> (userMessageCounters b)) b.

(** The branch of [rateLimiter] that blocks the user. *)
Definition blockUser (c : Container) (b : Bot) : Bot :=
  let b1 := with_sent (sent b ++ [(channel (message c),
                                   rateLimitEmbed b (author (message c)))]) b in
  let b2 := with_config
              (with_blockedUsers (blockedUsers (config b1) ++ [author_id c])
                                 (config b1)) b1 in
  setTimeout (Unblock (author_id c))
             (blockDurationMs (defaultUserCooldown (config b2))) b2.

Definition rateLimiter : Middleware := λ c next b,
  let b := countMessage (author_id c) (openWindow (author_id c) b) in
  let n := JS.or_zero (userMessageCounters b !! author_id c) in
  if bool_decide (n < messageCount (defaultUserCooldown (config b))) then next c b
  else if bool_decide (n = messageCount (defaultUserCooldown (config b)))
       then (blockUser c b, Normal)
  else (b, Normal).

(** The number of entries of [argumentNames] that do not end in a question
    mark. *)
Definition requiredArguments (cmd : Command) : nat :=
  length (List.filter (λ i, negb (JS.endsWith_qmark i)) (argumentNames cmd)).

(** [bot.config.commandPermissions[c.command] || cmd.permissionLevel]. *)
Definition permissionLevelFor (cfg : Config) (c : Container) (cmd : Command) : Value.t :=
  Value.or (Proto.get (commandPermissions cfg) (key (command c)))
           (Value.Str (permissionLevel cmd)).

Definition property_of_undefined : JSError.t :=
  JSError.TypeError "Cannot read property of undefined".

(** The role override of the message context; reading a property of a
    missing [serverPermissions] entry throws. *)
Definition roleOverrideFor (cfg : Config) (c : Container) : JSError.t + Value.t :=
  match guild (message c) with
  | Some g =>
      match serverPermissions cfg !! Guild.id g with
      | Some perms =>
          inr (Value.or (Proto.get perms (key (command c))) (Value.Str ""))
      | None => inl property_of_undefined
      end
  | None => inr (Value.Str "")
  end.

Definition newline : string := String "010" "".

Definition usageText (cfg : Config) (c : Container) (cmd : Command) : string :=
  "Use `" +:+ prefixForMessageContext cfg (message c) +:+ key (command c)
  +:+ " " +:+ String.concat " " (argumentNames cmd) +:+ "`:" +:+ newline
  +:+ " " +:+ description cmd.

(** The bot as [cmd.execute] is called. *)
Definition invoked (cmd : Command) (a : list string) (c : Container) (b : Bot) : Bot :=
  with_executed (executed b ++ [(name cmd, a, message c)]) b.

(** The error sent from the [catch] of a rejected [execute]; [text] is
    what the template makes of [err.message]. *)
Definition executionError (c : Container) (text : string) (b : Bot) : Bot :=
  sendError (channel (message c))
            ("Error executing command `" +:+ key (command c) +:+ "`")
            text b.

(** What the dispatcher makes of the way [execute] ended.  The handler
    given to [catch] reports a rejection.  An exception thrown by [execute],
    and the one raised by calling [catch] on what is no promise, leave the
    dispatcher.  For a rejection with [null] or [undefined] the dispatcher
    returns; the handler then throws on reading [message], which rejects
    the promise that [catch] returned, and nothing handles that. *)
Definition settle (c : Container) (r : Bot * ExecResult) : Bot * Completion :=
  match r.2 with
  | Resolved => (r.1, Normal)
  | Rejected (Reason.Failure err) =>
      (executionError c (JSError.message err) r.1, Normal)
  | Rejected Reason.Plain => (executionError c "undefined" r.1, Normal)
  | Rejected (Reason.Nullish e) => (r.1, Unhandled e)
  | Threw e => (r.1, Throw e)
  | NoPromise e => (r.1, Throw e)
  end.

(** The notice for a user without permission: the call passes the text in
    the place of the colour and no title. *)
Definition denied (c : Container) (b : Bot) : Bot :=
  sendEmojiEmbed (channel (message c)) "🔒"
    "You do not have permission to use this command." None None b.

Definition notEnoughArguments (c : Container) (cmd : Command) (b : Bot) : Bot :=
  sendError (channel (message c)) "Not enough arguments."
            (usageText (config b) c cmd) b.

Definition commandDispatcher (modules : Registry) : Middleware := λ c _ b,
  match getCommandNamed modules (config b) (command c) with
  | Some cmd =>
      match args c with
      | None => (b, Throw property_of_undefined)
      | Some a =>
          if bool_decide (requiredArguments cmd ≤ length a)%nat then
            let permissionLevel := permissionLevelFor (config b) c cmd in
            match roleOverrideFor (config b) c with
            | inl e => (b, Throw e)
            | inr roleOverride =>
                if hasPermission (config b) (member (message c))
                     (author (message c)) permissionLevel roleOverride
                then settle c (execute cmd a (message c) (invoked cmd a c b))
                else (denied c b, Normal)
            end
          else (notEnoughArguments c cmd b, Normal)
      end
  | None => (b, Normal)
  end.

(** [koa-compose]: each stage is called with the rest of the chain as its
    [next]. *)
Fixpoint compose (mw : list Middleware) : Container → Bot → Bot * Completion :=
  match mw with
  | [] => λ _ b, (b, Normal)
  | f :: rest => λ c b, f c (compose rest) b
  end.

(** The stages every message ends with. *)
Definition coreStages (modules : Registry) : list Middleware :=
  [blockHandler; commandDetector; rateLimiter; commandDispatcher modules].

Definition onMessage (modules : Registry) (msg : Message) (b : Bot) : Bot * Completion :=
  let container := {| message := msg; args := None; command := None |} in
  let middleware :=
    foldl (λ mw e, mw ++ middleware e.2) [checkMessageAuthor] modules in
  compose (middleware ++ coreStages modules) container b.

(** ** Runs *)

(** The bot as [bot.load] leaves it once the configuration is read. *)
Definition boot (cfg : Config) : Bot :=
  {| config := cfg; userCooldowns := ∅; userMessageCounters := ∅;
     timers := []; now := 0; sent := []; executed := [] |}.

(** A message arriving at a time: the timers due by then have run. *)
Definition deliver (modules : Registry) (b : Bot) (ev : Z * Message) : Bot :=
  (onMessage modules ev.2 (advance ev.1 b)).1.

Definition run (modules : Registry) (evs : list (Z * Message)) (b : Bot) : Bot :=
  foldl (deliver modules) b evs.

(** ** The state of a user, and an invariant of the rate limiter *)

(** The two flags of the specification's rate-limit state. *)
Definition blocked (id : string) (b : Bot) : Prop := id ∈ blockedUsers (config b).
Definition cooldownActive (id : string) (b : Bot) : Prop := id ∈ userCooldowns b.

(** The bot after the rate limiter alone has handled a message. *)
Definition limited (msg : Message) (b : Bot) : Bot :=
  (rateLimiter {| message := msg; args := None; command := None |}
               (λ _ b', (b', Normal)) b).1.

(** [quiet b b']: [b'] differs from [b] at most in what was sent and
    executed. *)
Definition quiet (b b' : Bot) : Prop :=
  config b' = config b ∧ userCooldowns b' = userCooldowns b
  ∧ userMessageCounters b' = userMessageCounters b
  ∧ timers b' = timers b ∧ now b' = now b.

(** A command that leaves the rate limiter's data alone: whatever it is
    called with, the configuration, the open windows, the counters, the
    timers and the clock are the same when [execute] returns.  It may send
    what it likes. *)
Definition tame (cmd : Command) : Prop :=
  ∀ a msg b, quiet b (execute cmd a msg b).1.

(** All the commands of the loaded modules are tame. *)
Definition tame_commands (modules : Registry) : Prop :=
  Forall (λ e, Forall tame (commands e.2)) modules.

(** Every open window has its closing timer pending, due within the delay
    that [intervalMs] gives; a user without an open window has a zero counter; a
    pending unblock timer belongs to a blocked user, and all the pending
    unblock timers of a user are due at the same time. *)
Record wf (cd : UserCooldown) (b : Bot) : Prop := {
  wf_tunables : defaultUserCooldown (config b) = cd;
  wf_window : ∀ u, u ∈ userCooldowns b → ∃ d, (d, WindowExpiry u) ∈ timers b;
  wf_window_due : ∀ d u,
    (d, WindowExpiry u) ∈ timers b → d ≤ now b + JS.timeoutDelay (intervalMs cd);
  wf_idle : ∀ u, u ∉ userCooldowns b → JS.or_zero (userMessageCounters b !! u) = 0;
  wf_unblock : ∀ d u, (d, Unblock u) ∈ timers b → u ∈ blockedUsers (config b);
  wf_unblock_due : ∀ d d' u,
    (d, Unblock u) ∈ timers b → (d', Unblock u) ∈ timers b → d = d'
}.

(** [serving cd u D b]: [u] is blocked and the timer that unblocks [u] is
    pending, due at [D]. *)
Definition serving (cd : UserCooldown) (u : string) (D : Z) (b : Bot) : Prop :=
  wf cd b ∧ u ∈ blockedUsers (config b) ∧ (D, Unblock u) ∈ timers b.



(** A user who is blocked while the window is still open has the counter
    standing at the limit. *)
Definition overlap_at_limit (cd : UserCooldown) (b : Bot) : Prop :=
  ∀ u, u ∈ blockedUsers (config b) → u ∈ userCooldowns b →
       JS.or_zero (userMessageCounters b !! u) = messageCount cd.

(** ** The specification's wording, for comparison *)



(** The permission override keyed by the name of the command, else the
    declared level. *)
Definition permissionLevel_spec (cfg : Config) (cmd : Command) : string :=
  default (permissionLevel cmd) (commandPermissions cfg !! name cmd).

(** The entry for the server and the command, else the empty string, also
    when the server has no entry. *)
Definition roleOverride_spec (cfg : Config) (msg : Message) (cmd : Command) : string :=
  match guild msg with
  | Some g =>
      default "" (serverPermissions cfg !! Guild.id g ≫= λ perms, perms !! name cmd)
  | None => ""
  end.

(** ** Further functions of the bot, and notions for their properties *)



(** The middleware that the loaded modules bring, in load order. *)
Definition moduleMiddleware (modules : Registry) : list Middleware :=
  mjoin ((λ e : string * Module, middleware e.2) <$> modules).


(** The successive matches of the argument pattern in a text. *)
Definition tokens (s : list ascii) : list (list ascii) := JS.scan (length s) s.

(** A word is a run of plain characters, a gap a run of white space. *)
Definition word (w : list ascii) : Prop :=
  w ≠ [] ∧ Forall (λ ch, JS.is_plain ch = true) w.
Definition gap (s : list ascii) : Prop :=
  s ≠ [] ∧ Forall (λ ch, JS.is_space ch = true) s.

(** A first word, and further words each behind its gap. *)
Definition spaced (w : list ascii) (rest : list (list ascii * list ascii)) : list ascii :=
  w ++ mjoin ((λ sw, sw.1 ++ sw.2) <$> rest).

Definition with_settings (m : gmap string ServerSettings.t) (cfg : Config) : Config :=
  {| owner := owner cfg; prefix := prefix cfg;
     commandAliases := commandAliases cfg; defaultColors := defaultColors cfg;
     defaultUserCooldown := defaultUserCooldown cfg;
     blockedUsers := blockedUsers cfg;
     settings := m; groups := groups cfg;
     commandPermissions := commandPermissions cfg;
     serverPermissions := serverPermissions cfg |}.

Definition with_serverPermissions (m : gmap string (gmap string string))
    (cfg : Config) : Config :=
  {| owner := owner cfg; prefix := prefix cfg;
     commandAliases := commandAliases cfg; defaultColors := defaultColors cfg;
     defaultUserCooldown := defaultUserCooldown cfg;
     blockedUsers := blockedUsers cfg;
     settings := settings cfg; groups := groups cfg;
     commandPermissions := commandPermissions cfg;
     serverPermissions := m |}.

(** One round of the [servers.forEach] in [onConnect].  The id of a server
    is a snowflake, so the paths handed to [_.has] and [_.set] have two
    keys: [serverPermissions] or [settings], and the id. *)
Definition ensureServer (cfg : Config) (server : Guild.t) : Config :=
  let cfg :=
    if negb (bool_decide (is_Some (serverPermissions cfg !! Guild.id server)))
    then with_serverPermissions
           (<[Guild.id server := ∅]> (serverPermissions cfg)) cfg
    else cfg in
  if negb (bool_decide (is_Some (settings cfg !! Guild.id server)))
  then with_settings
         (<[Guild.id server := {| ServerSettings.prefix := None |}]> (settings cfg))
         cfg
  else cfg.

(** [bot.onConnect], as far as the configuration goes: every server the
    client is in gets its entries. *)
Definition onConnect (servers : list Guild.t) (b : Bot) : Bot :=
  with_config (foldl ensureServer (config b) servers) b.

(** [bot.load], as far as the modules go: starting from an empty registry,
    the active modules are loaded in turn, with a callback that does
    nothing. *)
Definition load (moduleSources activeModules : list string) : Registry :=
  foldl (λ modules name, (loadModule moduleSources name modules).1)
        [] activeModules.

(** A registry that has the module [m] under [name], put where
    [Object.keys] has a new key, and is [modules] otherwise. *)
Definition placed (name : string) (m : Module) (modules ms : Registry) : Prop :=
  ∃ l1 l2,
    ms = l1 ++ (name, m) :: l2 ∧ modules = l1 ++ l2
    ∧ (array_index (of_string name) = None → l2 = [])
    ∧ (∀ i, array_index (of_string name) = Some i →
         Forall (λ e : string * Module,
                   ∃ j, array_index (of_string e.1) = Some j ∧ (j < i)%N) l1
         ∧ ∀ e j, head l2 = Some e → array_index (of_string e.1) = Some j →
                  ¬ (j < i)%N).

(** What the loop over the module sources keeps true. *)
Definition loading (name : string) (modules : Registry)
    (acc : Registry * bool * list (option JSError.t)) : Prop :=
  let '(ms, found, calls) := acc in
  if found
  then (∃ m, placed name m modules ms
             ∧ defaultAliases m = buildDefaultAliases (commands m))
       ∧ None ∈ calls
  else ms = modules ∧ (None ∉ calls).

(** ** Discord utility functions *)

(** [bot.util.isSnowflake]: 17 to 19 digits from the start of the text to
    its end. *)
Definition isSnowflake (s : string) : bool :=
  forallb is_digit (of_string s)
  && bool_decide (17 ≤ length (of_string s) ≤ 19)%nat.

(** [query.match] with one of the mention patterns: the opening, an
    exclamation mark where the pattern allows one ([bang]), 17 to 19
    digits and the closing angle bracket, from the start of the text to
    its end.  The result is the group of digits, [None] for [null]. *)
Definition mention (opening : list ascii) (bang : bool) (s : list ascii)
    : option (list ascii) :=
  if JS.startsWith opening s then
    let r := drop (length opening) s in
    let r := match r with
             | "!"%char :: r' => if bang then r' else r
             | _ => r
             end in
    let ds := JS.takeWhile is_digit r in
    if bool_decide (17 ≤ length ds ≤ 19)%nat
       && bool_decide (JS.dropWhile is_digit r = [">"%char])
    then Some ds else None
  else None.

(** A mention as it is written: the opening, the exclamation mark or not,
    the digits, the closing bracket. *)
Definition mentionText (opening : list ascii) (bang : bool) (ds : list ascii)
    : list ascii :=
  opening ++ (if bang then ["!"%char] else []) ++ ds ++ [">"%char].

(** [s.includes(q)]. *)
Fixpoint includes (s q : list ascii) : bool :=
  JS.startsWith q s
  || match s with
     | [] => false
     | _ :: s' => includes s' q
     end.

(** [collection.get(k)]. *)
Fixpoint collection_get {A} (k : string) (l : list (string * A)) : option A :=
  match l with
  | [] => None
  | (k', v) :: rest =>
      if bool_decide (k' = k) then Some v else collection_get k rest
  end.

(** The test of [parseUsername] on a member. *)
Definition memberMatches (query : list ascii) (m : ServerMember.t) : bool :=
  let name := JS.toLowerCase (of_string (User.username (ServerMember.user m))) in
  let nick :=
    match ServerMember.nickname m with
    | Some "" => name
    | Some n => JS.toLowerCase (of_string n)
    | None => name
    end in
  let discrim := of_string (User.discriminator (ServerMember.user m)) in
  includes name query || includes nick query
  || bool_decide (name ++ "#"%char :: discrim = query)
  || bool_decide (of_string (ServerMember.id m) = query).

Definition parseUsername (userString : string) (server : Server.t)
    : option (list User.t) :=
  let query := JS.toLowerCase (of_string userString) in
  match mention ["<"; "@"]%char true query with
  | None =>
      let matchingMembers :=
        List.filter (memberMatches query) (Server.members server).*2 in
      match matchingMembers with
      | [] => None
      | _ => Some (map ServerMember.user matchingMembers)
      end
  | Some id =>
      match collection_get (to_string id) (Server.members server) with
      | Some u => Some [ServerMember.user u]
      | None => None
      end
  end.

Definition parseRole (roleString : string) (server : Server.t)
    : option (list Role.t) :=
  let query := JS.toLowerCase (of_string roleString) in
  match mention ["<"; "@"; "&"]%char false query with
  | None =>
      let matchingRoles :=
        List.filter (λ r, includes (JS.toLowerCase (of_string (Role.name r))) query)
                    (Server.roles server).*2 in
      match matchingRoles with
      | [] => None
      | _ => Some matchingRoles
      end
  | Some id =>
      match collection_get (to_string id) (Server.roles server) with
      | Some r => Some [r]
      | None => None
      end
  end.

Definition parseChannel (channelString : string) (server : Server.t)
    : option (list Channel.t) :=
  let query := JS.toLowerCase (of_string channelString) in
  match mention ["<"; "#"]%char false query with
  | None =>
      let matchingChannels :=
        List.filter (λ c, includes (JS.toLowerCase (of_string (Channel.name c))) query)
                    (Server.channels server).*2 in
      match matchingChannels with
      | [] => None
      | _ => Some matchingChannels
      end
  | Some id =>
      match collection_get (to_string id) (Server.channels server) with
      | Some c => Some [c]
      | None => None
      end
  end.

(** * Properties *)

(** ** Projections through the record updates *)

Lemma setTimeout_timers cb delay b :
  timers (setTimeout cb delay b)
  = schedule (now b + JS.timeoutDelay delay) cb (timers b).
Proof. reflexivity. Qed.

Lemma openWindow_frame id b :
  config (openWindow id b) = config b ∧ sent (openWindow id b) = sent b
  ∧ executed (openWindow id b) = executed b ∧ now (openWindow id b) = now b
  ∧ userMessageCounters (openWindow id b) = userMessageCounters b.
Proof. unfold openWindow. by case_bool_decide. Qed.

Lemma openWindow_cooldown id b : id ∈ userCooldowns (openWindow id b).
Proof.
  unfold openWindow. case_bool_decide as Hin; simpl; [done|].
  apply elem_of_union_l. by apply elem_of_singleton.
Qed.

Lemma countMessage_counter id b :
  userMessageCounters (countMessage id b) !! id
  = Some (JS.or_zero (userMessageCounters b !! id) + 1).
Proof. unfold countMessage. simpl. apply lookup_insert_eq. Qed.

(** ** The permission check *)

Lemma hasPermission_cases cfg (member : option GuildMember.t) user
    (group role : Value.t) :
  (hasPermission cfg member user group role = true ↔
     User.id user = owner cfg
     ∨ group = Value.Str "all"
     ∨ (∃ g members, group = Value.Str g ∧ groups cfg !! g = Some members
                     ∧ User.id user ∈ members)
     ∨ (∃ m r, member = Some m ∧ role = Value.Str r ∧ r ∈ GuildMember.roles m))
  ∧ hasPermission cfg member user group role =
      (bool_decide (User.id user = owner cfg)
       || bool_decide (group = Value.Str "all")
       || match group with
          | Value.Str g =>
              match groups cfg !! g with
              | Some members => bool_decide (User.id user ∈ members)
              | None => false
              end
          | _ => false
          end
       || match member, role with
          | Some m, Value.Str r => bool_decide (r ∈ GuildMember.roles m)
          | _, _ => false
          end).
Proof.
  set (bygroup := match group with
                  | Value.Str g =>
                      match groups cfg !! g with
                      | Some members => bool_decide (User.id user ∈ members)
                      | None => false
                      end
                  | _ => false
                  end).
  set (byrole := match member, role with
                 | Some m, Value.Str r => bool_decide (r ∈ GuildMember.roles m)
                 | _, _ => false
                 end).
  assert (Hor : hasPermission cfg member user group role =
                  (bool_decide (User.id user = owner cfg)
                   || bool_decide (group = Value.Str "all")
                   || bygroup || byrole)).
  { unfold hasPermission. fold bygroup byrole.
    destruct (bool_decide (User.id user = owner cfg)); [done|].
    destruct (bool_decide (group = Value.Str "all")); [done|].
    destruct bygroup; [done|]. by destruct byrole. }
  assert (Hiff : hasPermission cfg member user group role = true ↔
     User.id user = owner cfg
     ∨ group = Value.Str "all"
     ∨ (∃ g members, group = Value.Str g ∧ groups cfg !! g = Some members
                     ∧ User.id user ∈ members)
     ∨ (∃ m r, member = Some m ∧ role = Value.Str r ∧ r ∈ GuildMember.roles m));
    [|done].
  rewrite Hor, !orb_true_iff, !bool_decide_eq_true. split.
  - intros [[[Howner|Hall]|Hgroup]|Hrole].
    + by left.
    + by right; left.
    + subst bygroup. destruct group as [|g|]; try done.
      destruct (groups cfg !! g) as [members|] eqn:Hg; [|done].
      right; right; left. exists g, members. split_and!; [done..|].
      by apply bool_decide_eq_true in Hgroup.
    + subst byrole. destruct member as [m|]; [|done].
      destruct role as [|r|]; try done.
      do 3 right. exists m, r. split_and!; [done..|].
      by apply bool_decide_eq_true in Hrole.
  - intros [Howner|[Hall|[(g & members & -> & Hg & Hin)|(m & r & -> & -> & Hin)]]].
    + by do 3 left.
    + by left; left; right.
    + left; right. subst bygroup. rewrite Hg. by apply bool_decide_eq_true.
    + right. subst byrole. by apply bool_decide_eq_true.
Qed.

(** C4: [hasPermission] allows exactly when the user is the configured
    owner, or the group is "all", or the group is a configured group that
    lists the user, or a member is present and holds the role; in every
    other case it denies.  The four tests are tried in this order and the
    first that succeeds decides.  This holds for every group and role that
    can be handed over, the values that are no strings included: such a
    value is no group and no role.  The last part says it for a group
    and a role that are strings. *)
Theorem hasPermission_ordered cfg (member : option GuildMember.t) user
    (group role : Value.t) :
  (hasPermission cfg member user group role = true ↔
     User.id user = owner cfg
     ∨ group = Value.Str "all"
     ∨ (∃ g members, group = Value.Str g ∧ groups cfg !! g = Some members
                     ∧ User.id user ∈ members)
     ∨ (∃ m r, member = Some m ∧ role = Value.Str r ∧ r ∈ GuildMember.roles m))
  ∧ hasPermission cfg member user group role =
      (bool_decide (User.id user = owner cfg)
       || bool_decide (group = Value.Str "all")
       || match group with
          | Value.Str g =>
              match groups cfg !! g with
              | Some members => bool_decide (User.id user ∈ members)
              | None => false
              end
          | _ => false
          end
       || match member, role with
          | Some m, Value.Str r => bool_decide (r ∈ GuildMember.roles m)
          | _, _ => false
          end)
  ∧ (∀ g r : string,
       hasPermission cfg member user (Value.Str g) (Value.Str r) = true ↔
       User.id user = owner cfg
       ∨ g = "all"
       ∨ (∃ members, groups cfg !! g = Some members ∧ User.id user ∈ members)
       ∨ (∃ m, member = Some m ∧ r ∈ GuildMember.roles m)).
Proof.
  destruct (hasPermission_cases cfg member user group role) as [Hiff Hor].
  split_and!; [exact Hiff | exact Hor |].
  intros g r.
  rewrite (proj1 (hasPermission_cases cfg member user (Value.Str g) (Value.Str r))).
  split.
  - intros [?|[?|[(g' & members & ? & ? & ?)|(m & r' & ? & ? & ?)]]]; simplify_eq.
    + by left.
    + by right; left.
    + right; right; left. by exists members.
    + do 3 right. by exists m.
  - intros [?|[?|[(members & ? & ?)|(m & ? & ?)]]]; simplify_eq.
    + by left.
    + by right; left.
    + right; right; left. by exists g, members.
    + do 3 right. by exists m, r.
Qed.

(** ** The rate limiter, one message at a time *)


(** [rateLimiter] by the value of the counter after the increment. *)
Lemma rateLimiter_cases c next b :
  rateLimiter c next b =
    let id := author_id c in
    let n := JS.or_zero (userMessageCounters b !! id) + 1 in
    let limit := messageCount (defaultUserCooldown (config b)) in
    let counted := countMessage id (openWindow id b) in
    if bool_decide (n < limit) then next c counted
    else if bool_decide (n = limit) then (blockUser c counted, Normal)
    else (counted, Normal).
Proof.
  unfold rateLimiter. cbv zeta.
  rewrite countMessage_counter.
  destruct (openWindow_frame (author_id c) b) as (Hcfg & _ & _ & _ & Hctr).
  rewrite Hctr.
  assert (Hc : config (countMessage (author_id c) (openWindow (author_id c) b))
               = config b) by done.
  rewrite Hc. done.
Qed.

(** ** Command detection *)

Lemma dropWhile_length {A} (p : A → bool) (l : list A) :
  (length (JS.dropWhile p l) ≤ length l)%nat.
Proof. induction l as [|x l IH]; simpl; [done|]. case_match; simpl; lia. Qed.

Lemma closing_length q s body rest :
  JS.closing q s = Some (body, rest) → (length rest < length s)%nat.
Proof.
  revert body rest. induction s as [|ch s IH]; intros body rest; simpl; [done|].
  case_bool_decide.
  - intros [= <- <-]. lia.
  - destruct (JS.closing q s) as [[body' rest']|] eqn:Hc; [|done].
    intros [= <- <-]. specialize (IH _ _ eq_refl). lia.
Qed.

(** The fuel of [scan] never runs out: any amount from the length of the
    text on gives the same matches. *)
Lemma scan_fuel n m s :
  (length s ≤ n)%nat → (length s ≤ m)%nat → JS.scan n s = JS.scan m s.
Proof.
  revert m s. induction n as [|n IH]; intros m s Hn Hm.
  - destruct s; [|simpl in Hn; lia]. by destruct m.
  - destruct m as [|m]; [destruct s; [done | simpl in Hm; lia]|].
    destruct s as [|ch s]; [done|]. simpl in Hn, Hm. simpl.
    destruct (JS.is_plain ch).
    + f_equal. pose proof (dropWhile_length JS.is_plain s). apply IH; lia.
    + destruct (JS.is_quote ch).
      * destruct (JS.closing ch s) as [[body rest]|] eqn:Hc.
        -- apply closing_length in Hc. f_equal. apply IH; lia.
        -- apply IH; lia.
      * apply IH; lia.
Qed.

(** A plain character anywhere in the text gives a match: a text without a
    match is made of white space and quotes only. *)
Lemma match_args_plain s :
  Exists (λ ch, JS.is_plain ch = true) s → JS.match_args s ≠ None.
Proof.
  intros Hex. unfold JS.match_args.
  assert (Hscan : ∀ n s, (length s ≤ n)%nat →
            Exists (λ ch, JS.is_plain ch = true) s → JS.scan n s ≠ []).
  { clear. induction n as [|n IH]; intros s Hn Hs.
    - destruct s; [by apply Exists_nil in Hs | simpl in Hn; lia].
    - destruct s as [|ch s]; [by apply Exists_nil in Hs|]. simpl in Hn. simpl.
      destruct (JS.is_plain ch) eqn:Hch; [done|].
      apply Exists_cons in Hs as [Hs|Hs]; [congruence|].
      destruct (JS.is_quote ch).
      + destruct (JS.closing ch s) as [[body rest]|]; [done|]. apply IH; [lia | done].
      + apply IH; [lia | done]. }
  specialize (Hscan (length s) s (le_n _) Hex).
  by destruct (JS.scan (length s) s).
Qed.

Lemma dropWhile_all {A} (p : A → bool) (l : list A) :
  Forall (λ x, p x = true) l → JS.dropWhile p l = [].
Proof. induction 1 as [|x l Hx _ IH]; simpl; [done | by rewrite Hx]. Qed.

Lemma trim_blank (ws : list ascii) :
  Forall (λ ch, JS.is_space ch = true) ws → JS.trim ws = [].
Proof. intros Hws. unfold JS.trim. by rewrite (dropWhile_all _ _ Hws). Qed.

Lemma startsWith_app (p s : list ascii) : JS.startsWith p (p ++ s) = true.
Proof.
  induction p as [|a p IH]; simpl; [done|].
  by rewrite bool_decide_true, IH.
Qed.

(** A message that is the prefix followed by white space only (or by
    nothing) has no argument match. *)
Lemma blank_after_prefix (pfx ws : list ascii) :
  Forall (λ ch, JS.is_space ch = true) ws →
  JS.startsWith pfx (pfx ++ ws) = true
  ∧ JS.match_args (JS.trim (drop (length pfx) (pfx ++ ws))) = None.
Proof.
  intros Hws. split; [apply startsWith_app|].
  rewrite drop_app_length. by rewrite trim_blank.
Qed.

Lemma blockHandler_blocked c next b :
  author_id c ∈ blockedUsers (config b) → blockHandler c next b = (b, Normal).
Proof. intros Hin. unfold blockHandler. by rewrite bool_decide_true. Qed.

Lemma blockHandler_pass c next b :
  author_id c ∉ blockedUsers (config b) → blockHandler c next b = next c b.
Proof. intros Hin. unfold blockHandler. by rewrite bool_decide_false. Qed.

(** C10: when the content starts with the prefix of the message context
    and the argument pattern finds no match in what follows the prefix,
    [commandDetector] throws (the [map] of [null]) before it sets a command
    or calls the next stage, whatever that stage is; run through the core
    stages the message leaves the bot as it was: no command is executed
    and nothing is sent. *)
Theorem commandDetector_no_token modules c b :
  let text := of_string (content (message c)) in
  let pfx := of_string (prefixForMessageContext (config b) (message c)) in
  JS.startsWith pfx text = true →
  JS.match_args (JS.trim (drop (length pfx) text)) = None →
  (∀ next, commandDetector c next b = (b, Throw map_of_null))
  ∧ (author_id c ∉ blockedUsers (config b) →
       compose (coreStages modules) c b = (b, Throw map_of_null))
  ∧ (compose (coreStages modules) c b).1 = b.
Proof.
  intros text pfx Hpre Hnone.
  assert (Hthrow : ∀ next, commandDetector c next b = (b, Throw map_of_null)).
  { intros next. unfold commandDetector. fold text pfx. by rewrite Hpre, Hnone. }
  split; [done|]. split.
  - intros Hfree. simpl. rewrite blockHandler_pass by done. apply Hthrow.
  - simpl. destruct (decide (author_id c ∈ blockedUsers (config b))) as [Hin|Hout].
    + by rewrite blockHandler_blocked.
    + rewrite blockHandler_pass by done. by rewrite Hthrow.
Qed.

(** ** Command lookup *)



Lemma Proto_inherited {o : gmap string string} {k} :
  o !! k = None → k ∈ Proto.keys →
  Proto.has o k = true ∧ Proto.get o k = Value.Native (Proto.text k).
Proof.
  intros Hk Hp. unfold Proto.has, Proto.get. rewrite Hk.
  rewrite (bool_decide_true (k ∈ Proto.keys)) by done.
  split; [apply orb_true_r | done].
Qed.






Lemma firstFound_cons cmdStr result e modules :
  firstFound cmdStr result (e :: modules)
  = firstFound cmdStr
      (match result with
       | Some found => Some found
       | None => findCommand cmdStr (commands e.2)
       end) modules.
Proof. reflexivity. Qed.

Lemma firstFound_some cmdStr cmd modules :
  firstFound cmdStr (Some cmd) modules = Some cmd.
Proof. induction modules as [|e ms IH]; simpl; [done | apply IH]. Qed.

Lemma firstFound_first cmdStr modules cmd :
  firstFound cmdStr None modules = Some cmd ↔
  ∃ ms1 e ms2,
    modules = ms1 ++ e :: ms2
    ∧ Forall (λ e', findCommand cmdStr (commands e'.2) = None) ms1
    ∧ findCommand cmdStr (commands e.2) = Some cmd.
Proof.
  induction modules as [|e ms IH].
  - split; [done|]. intros (ms1 & e & ms2 & Heq & _). by destruct ms1.
  - rewrite firstFound_cons.
    destruct (findCommand cmdStr (commands e.2)) as [found|] eqn:Hf.
    + rewrite firstFound_some. split.
      * intros [= ->]. exists [], e, ms. by repeat split.
      * intros (ms1 & e' & ms2 & Heq & Hall & Hcmd).
        destruct ms1 as [|e1 ms1]; simplify_eq/=; [congruence|].
        apply Forall_cons in Hall as [He1 _]. congruence.
    + rewrite IH. split.
      * intros (ms1 & e' & ms2 & -> & Hall & Hcmd).
        exists (e :: ms1), e', ms2. split; [done|]. split; [by constructor | done].
      * intros (ms1 & e' & ms2 & Heq & Hall & Hcmd).
        destruct ms1 as [|e1 ms1]; simplify_eq/=.
        apply Forall_cons in Hall as [_ Hall].
        exists ms1, e', ms2. done.
Qed.

Lemma findCommand_name s cmds cmd :
  findCommand (Value.Str s) cmds = Some cmd → name cmd = s ∧ cmd ∈ cmds.
Proof.
  simpl. intros Hf. apply List.find_some in Hf as [Hin Hn].
  split; [by apply bool_decide_eq_true in Hn | by apply list_elem_of_In].
Qed.


Lemma findCommand_other v cmds :
  (∀ s, v ≠ Value.Str s) → findCommand v cmds = None.
Proof. intros Hv. destruct v as [|s|]; [done | by destruct (Hv s) | done]. Qed.

Lemma getCommandNamed_member modules cfg tok cmd :
  getCommandNamed modules cfg tok = Some cmd →
  resolveAlias modules cfg tok = Value.Str (name cmd)
  ∧ ∃ e, e ∈ modules ∧ cmd ∈ commands e.2.
Proof.
  unfold getCommandNamed.
  intros (ms1 & e & ms2 & -> & _ & Hfind)%firstFound_first.
  destruct (resolveAlias _ cfg tok) as [|s|]; [done| |done].
  apply findCommand_name in Hfind as [<- Hin].
  split; [done|]. exists e. split; [|done].
  apply elem_of_app. right. left.
Qed.


(** ** The dispatcher *)

Lemma commandDispatcher_resolved modules c next b cmd a :
  getCommandNamed modules (config b) (command c) = Some cmd →
  args c = Some a →
  commandDispatcher modules c next b =
    if bool_decide (requiredArguments cmd ≤ length a)%nat then
      match roleOverrideFor (config b) c with
      | inl e => (b, Throw e)
      | inr roleOverride =>
          if hasPermission (config b) (member (message c)) (author (message c))
               (permissionLevelFor (config b) c cmd) roleOverride
          then settle c (execute cmd a (message c) (invoked cmd a c b))
          else (denied c b, Normal)
      end
    else (notEnoughArguments c cmd b, Normal).
Proof. intros Hcmd Hargs. unfold commandDispatcher. by rewrite Hcmd, Hargs. Qed.

Lemma usageText_shape cfg c cmd :
  usageText cfg c cmd =
    "Use `" +:+ prefixForMessageContext cfg (message c) +:+ key (command c)
    +:+ " " +:+ String.concat " " (argumentNames cmd) +:+ "`:" +:+ newline
    +:+ " " +:+ description cmd
  ∧ usageText cfg c cmd ≠ "".
Proof. split; [reflexivity | done]. Qed.

Lemma sendError_sent channel title description b :
  description ≠ "" →
  sendError channel title description b =
    with_sent (sent b ++ [(channel,
                 {| Embed.title := "❌   " +:+ title;
                    Embed.description := Some description;
                    Embed.color := Colors.error (defaultColors (config b)) |})]) b.
Proof. intros Hne. unfold sendError, sendEmojiEmbed. by destruct description. Qed.

Lemma of_string_app s t : of_string (s +:+ t) = of_string s ++ of_string t.
Proof. induction s as [|ch s IH]; simpl; [done|]. by rewrite IH. Qed.

Lemma to_of_string s : to_string (of_string s) = s.
Proof. apply String.string_of_list_ascii_of_string. Qed.

(** [_.endsWith(i, q)] for the question mark [q]. *)
Lemma endsWith_qmark_spec i :
  JS.endsWith_qmark i = true ↔ ∃ p, i = p +:+ "?".
Proof.
  unfold JS.endsWith_qmark. fold (of_string i). split.
  - destruct (last (of_string i)) as [ch|] eqn:Hlast; [|done].
    intros Hq.
    assert (ch = "?"%char) as ->.
    { destruct ch as [[] [] [] [] [] [] [] []]; try done. }
    destruct (of_string i) as [|x l] eqn:Hi using rev_ind; [done|].
    rewrite last_snoc in Hlast. simplify_eq.
    exists (to_string l). rewrite <- (to_of_string i), Hi.
    rewrite <- (to_of_string (to_string l +:+ "?")), of_string_app.
    unfold of_string at 1, to_string at 2.
    by rewrite String.list_ascii_of_string_of_list_ascii.
  - intros [p ->]. rewrite of_string_app. simpl. by rewrite last_snoc.
Qed.

Lemma requiredArguments_spec cmd :
  (requiredArguments cmd
   + length (List.filter JS.endsWith_qmark (argumentNames cmd))
   = length (argumentNames cmd))%nat.
Proof.
  unfold requiredArguments. induction (argumentNames cmd) as [|i l IH]; simpl; [done|].
  destruct (JS.endsWith_qmark i); simpl; lia.
Qed.

Lemma settle_sent c r e :
  e ∈ sent (settle c r).1 →
  e ∈ sent r.1
  ∨ Embed.title e.2 = "❌   Error executing command `" +:+ key (command c) +:+ "`".
Proof.
  unfold settle. destruct r as [b1 res]. simpl.
  destruct res as [|[err| |]|e'|]; simpl; try by left.
  - unfold executionError, sendError, sendEmojiEmbed. simpl.
    rewrite elem_of_app, list_elem_of_singleton. intros [?| ->]; [by left | by right].
  - unfold executionError, sendError, sendEmojiEmbed. simpl.
    rewrite elem_of_app, list_elem_of_singleton. intros [?| ->]; [by left | by right].
Qed.

(** C6: for a command that was found, with fewer arguments than entries of
    [argumentNames] not ending in a question mark the dispatcher sends the
    usage error (the prefix, the command as typed, the argument names and
    the description), executes nothing and changes nothing else.  With at
    least that many, however many more, it sends no usage error and goes on
    to the permission check.  When [hasPermission] allows, [execute] is
    called with these args and the message, on the bot as it was (the call
    noted, nothing sent), and all the dispatcher adds to what the call
    leaves is the report of a rejection; when [hasPermission] denies,
    nothing is executed and the denial is sent. *)
Theorem commandDispatcher_arity modules c next b cmd a :
  getCommandNamed modules (config b) (command c) = Some cmd →
  args c = Some a →
  ((length a < requiredArguments cmd)%nat →
     ∃ b',
       commandDispatcher modules c next b = (b', Normal)
       ∧ sent b' =
           sent b ++ [(channel (message c),
                       {| Embed.title := "❌   Not enough arguments.";
                          Embed.description :=
                            Some ("Use `"
                                  +:+ prefixForMessageContext (config b) (message c)
                                  +:+ key (command c) +:+ " "
                                  +:+ String.concat " " (argumentNames cmd)
                                  +:+ "`:" +:+ newline +:+ " " +:+ description cmd);
                          Embed.color := Colors.error (defaultColors (config b)) |})]
       ∧ executed b' = executed b
       ∧ quiet b b')
  ∧ ((requiredArguments cmd ≤ length a)%nat →
     ∀ role, roleOverrideFor (config b) c = inr role →
       let allowed := hasPermission (config b) (member (message c))
                        (author (message c))
                        (permissionLevelFor (config b) c cmd) role in
       let called := invoked cmd a c b in
       let r := execute cmd a (message c) called in
       (allowed = true →
          commandDispatcher modules c next b = settle c r
          ∧ executed called = executed b ++ [(name cmd, a, message c)]
          ∧ sent called = sent b
          ∧ quiet b called
          ∧ (r.2 = Resolved → commandDispatcher modules c next b = (r.1, Normal))
          ∧ executed (commandDispatcher modules c next b).1 = executed r.1
          ∧ (∀ e, e ∈ sent (commandDispatcher modules c next b).1 →
               e ∈ sent r.1
               ∨ Embed.title e.2
                 = "❌   Error executing command `" +:+ key (command c) +:+ "`"))
       ∧ (allowed = false →
          ∃ b',
            commandDispatcher modules c next b = (b', Normal)
            ∧ executed b' = executed b
            ∧ sent b' =
                sent b ++ [(channel (message c),
                            {| Embed.title := "🔒   undefined";
                               Embed.description := None;
                               Embed.color :=
                                 "You do not have permission to use this command." |})]))
  ∧ (requiredArguments cmd
     + length (List.filter JS.endsWith_qmark (argumentNames cmd))
     = length (argumentNames cmd))%nat
  ∧ (∀ i, JS.endsWith_qmark i = true ↔ ∃ p, i = p +:+ "?").
Proof.
  intros Hcmd Hargs.
  rewrite (commandDispatcher_resolved _ _ _ _ _ _ Hcmd Hargs). split_and!.
  - intros Hlt. rewrite bool_decide_false by lia.
    exists (notEnoughArguments c cmd b). split_and!; [done| |done|by repeat split].
    unfold notEnoughArguments. rewrite sendError_sent; [done|].
    apply usageText_shape.
  - intros Hge role Hrole allowed called r. rewrite bool_decide_true by done.
    rewrite Hrole. fold allowed. split.
    + intros ->. fold called r. split_and!; [done | done | done | by repeat split | | |].
      * unfold settle. by intros ->.
      * unfold settle. by destruct (r.2) as [|[| |]| |].
      * intros e. apply settle_sent.
    + intros ->. exists (denied c b). by split_and!.
  - apply requiredArguments_spec.
  - apply endsWith_qmark_spec.
Qed.

(** C8: what the dispatcher makes of a command that fails.  A promise that
    is rejected is caught: the dispatcher returns normally, and one error
    is sent to the channel of the message, on top of what the command sent
    itself, with a title that names the command as typed and the message of
    the rejection as description (the word undefined for a rejection that
    carries no message).  A failure of another kind is not caught and not
    reported: an exception thrown by [execute] itself leaves the
    dispatcher, and so does the [TypeError] raised when [execute] returns
    no promise; and when the promise is rejected with [null] or
    [undefined] the dispatcher returns and the handler's own [TypeError] is
    a rejection that nothing handles. *)
Theorem commandDispatcher_catches modules c next b cmd a role :
  getCommandNamed modules (config b) (command c) = Some cmd →
  args c = Some a →
  (requiredArguments cmd ≤ length a)%nat →
  roleOverrideFor (config b) c = inr role →
  hasPermission (config b) (member (message c)) (author (message c))
                (permissionLevelFor (config b) c cmd) role = true →
  let r := execute cmd a (message c) (invoked cmd a c b) in
  let report (text : string) :=
    (channel (message c),
     {| Embed.title := "❌   Error executing command `"
                       +:+ key (command c) +:+ "`";
        Embed.description := if bool_decide (text = "") then None else Some text;
        Embed.color := Colors.error (defaultColors (config r.1)) |}) in
  executed (invoked cmd a c b) = executed b ++ [(name cmd, a, message c)]
  ∧ (∀ text,
       (∃ err, r.2 = Rejected (Reason.Failure err) ∧ text = JSError.message err)
       ∨ (r.2 = Rejected Reason.Plain ∧ text = "undefined") →
       ∃ b',
         commandDispatcher modules c next b = (b', Normal)
         ∧ sent b' = sent r.1 ++ [report text]
         ∧ executed b' = executed r.1
         ∧ quiet r.1 b')
  ∧ (∀ e, r.2 = Threw e → commandDispatcher modules c next b = (r.1, Throw e))
  ∧ (∀ e, r.2 = NoPromise e → commandDispatcher modules c next b = (r.1, Throw e))
  ∧ (∀ e, r.2 = Rejected (Reason.Nullish e) →
          commandDispatcher modules c next b = (r.1, Unhandled e))
  ∧ (r.2 = Resolved → commandDispatcher modules c next b = (r.1, Normal)).
Proof.
  intros Hcmd Hargs Hge Hrole Hperm r report.
  rewrite (commandDispatcher_resolved _ _ _ _ _ _ Hcmd Hargs).
  rewrite bool_decide_true by done. rewrite Hrole, Hperm. fold r.
  unfold settle. split_and!.
  - done.
  - intros text Hcase.
    exists (executionError c text r.1). split_and!.
    + by destruct Hcase as [(err & -> & ->)|[-> ->]].
    + subst report. unfold executionError, sendError, sendEmojiEmbed. simpl.
      by destruct text.
    + done.
    + by repeat split.
  - by intros e ->.
  - by intros e ->.
  - by intros e ->.
  - by intros ->.
Qed.

(** ** Loading a module twice *)

(** C9: [loadModule] with a name that is already a key of the registry calls
    back once, with the error that the module is already loaded, and gives
    the registry back as it was: the module stored under the name, every
    module's commands and aliases, and so the result of every command
    lookup, are the same as before the call. *)
Theorem loadModule_already_loaded moduleSources name modules :
  name ∈ modules.*1 →
  loadModule moduleSources name modules
  = (modules, [Some (JSError.Error ("Module " +:+ name +:+ " already loaded"))])
  ∧ registry_get name (loadModule moduleSources name modules).1
    = registry_get name modules
  ∧ is_Some (registry_get name modules)
  ∧ ∀ cfg command,
      getCommandNamed (loadModule moduleSources name modules).1 cfg command
      = getCommandNamed modules cfg command.
Proof.
  intros Hin.
  assert (Hload : loadModule moduleSources name modules
                  = (modules, [Some (JSError.Error ("Module " +:+ name +:+ " already loaded"))])).
  { unfold loadModule, registry_has. by rewrite bool_decide_true. }
  rewrite Hload. repeat split.
  clear Hload. induction modules as [|[n m] ms IH]; simpl in *.
  - by apply elem_of_nil in Hin.
  - case_bool_decide; [by eexists|].
    apply IH. apply elem_of_cons in Hin as [?|?]; [congruence | done].
Qed.

(** ** Timers and the clock *)

Lemma elem_of_schedule x due cb q :
  x ∈ schedule due cb q ↔ x = (due, cb) ∨ x ∈ q.
Proof.
  induction q as [|[d cb'] q IH]; simpl.
  - rewrite list_elem_of_singleton, elem_of_nil. taut.
  - case_bool_decide; rewrite !elem_of_cons; [rewrite IH|]; taut.
Qed.

Lemma fire_frame cb b :
  timers (fire cb b) = timers b ∧ now (fire cb b) = now b
  ∧ defaultUserCooldown (config (fire cb b)) = defaultUserCooldown (config b)
  ∧ sent (fire cb b) = sent b ∧ executed (fire cb b) = executed b.
Proof. by destruct cb. Qed.

Lemma fires_frame l b :
  timers (fires l b) = timers b ∧ now (fires l b) = now b
  ∧ defaultUserCooldown (config (fires l b)) = defaultUserCooldown (config b)
  ∧ sent (fires l b) = sent b ∧ executed (fires l b) = executed b.
Proof.
  revert b. induction l as [|tm l IH]; intros b; [done|].
  change (fires (tm :: l) b) with (fires l (fire tm.2 b)).
  destruct (IH (fire tm.2 b)) as (-> & -> & -> & -> & ->). apply fire_frame.
Qed.

Lemma fires_cooldown l b u :
  u ∈ userCooldowns (fires l b) ↔
  u ∈ userCooldowns b ∧ ∀ d, (d, WindowExpiry u) ∉ l.
Proof.
  revert b. induction l as [|[d cb] l IH]; intros b.
  - simpl. split; [|by intros [Hu _]]. intros Hu. split; [done|].
    intros d Hd. by apply elem_of_nil in Hd.
  - change (fires ((d, cb) :: l) b) with (fires l (fire cb b)). rewrite IH.
    destruct cb as [v|v]; simpl.
    + rewrite elem_of_difference, elem_of_singleton. split.
      * intros [[Hu Hne] Hl]. split; [done|]. intros d' Hd'.
        apply elem_of_cons in Hd' as [Heq|Hin]; [congruence | by eapply Hl].
      * intros [Hu Hl]. split; [split; [done|] |].
        -- intros ->. apply (Hl d). by left.
        -- intros d' Hd'. apply (Hl d'). by right.
    + split; intros [Hu Hl]; (split; [done|]); intros d' Hd'.
      * apply elem_of_cons in Hd' as [Heq|Hin]; [congruence | by eapply Hl].
      * apply (Hl d'). by right.
Qed.

Lemma fires_blocked l b u :
  u ∈ blockedUsers (config (fires l b)) ↔
  u ∈ blockedUsers (config b) ∧ ∀ d, (d, Unblock u) ∉ l.
Proof.
  revert b. induction l as [|[d cb] l IH]; intros b.
  - simpl. split; [|by intros [Hu _]]. intros Hu. split; [done|].
    intros d Hd. by apply elem_of_nil in Hd.
  - change (fires ((d, cb) :: l) b) with (fires l (fire cb b)). rewrite IH.
    destruct cb as [v|v]; simpl.
    + split; intros [Hu Hl]; (split; [done|]); intros d' Hd'.
      * apply elem_of_cons in Hd' as [Heq|Hin]; [congruence | by eapply Hl].
      * apply (Hl d'). by right.
    + rewrite list_elem_of_filter. split.
      * intros [[Hne Hu] Hl]. split; [done|]. intros d' Hd'.
        apply elem_of_cons in Hd' as [Heq|Hin]; [congruence | by eapply Hl].
      * intros [Hu Hl]. split; [split; [|done] |].
        -- intros ->. apply (Hl d). by left.
        -- intros d' Hd'. apply (Hl d'). by right.
Qed.

Lemma timer_pending_dec (l : list (Z * Timer)) cb :
  (∃ d, (d, cb) ∈ l) ∨ (∀ d, (d, cb) ∉ l).
Proof.
  destruct (decide (cb ∈ l.*2)) as [Hin|Hout].
  - left. apply list_elem_of_fmap in Hin as ([d cb'] & -> & Hin). by exists d.
  - right. intros d Hd. apply Hout. apply list_elem_of_fmap. by exists (d, cb).
Qed.

Lemma fires_counter l b u :
  ((∃ d, (d, WindowExpiry u) ∈ l) →
     JS.or_zero (userMessageCounters (fires l b) !! u) = 0)
  ∧ ((∀ d, (d, WindowExpiry u) ∉ l) →
     userMessageCounters (fires l b) !! u = userMessageCounters b !! u).
Proof.
  revert b. induction l as [|[d cb] l IH]; intros b.
  - split; [|done]. intros [d Hd]. by apply elem_of_nil in Hd.
  - change (fires ((d, cb) :: l) b) with (fires l (fire cb b)).
    destruct (IH (fire cb b)) as [IH1 IH2]. split.
    + intros [d' Hd'].
      destruct (timer_pending_dec l (WindowExpiry u)) as [Hl|Hl].
      * by apply IH1.
      * rewrite IH2 by done.
        apply elem_of_cons in Hd' as [[= <- <-]|Hin]; [|by apply Hl in Hin].
        simpl. by rewrite lookup_insert_eq.
    + intros Hl. rewrite IH2.
      * destruct cb as [v|v]; simpl; [|done].
        rewrite lookup_insert_ne; [done|].
        intros ->. apply (Hl d). by left.
      * intros d' Hd'. apply (Hl d'). by right.
Qed.

Lemma advance_fires t b :
  advance t b =
    fires (filter (λ tm, tm.1 ≤ t) (timers b))
          (with_now (Z.max (now b) t)
                    (with_timers (filter (λ tm, ¬ tm.1 ≤ t) (timers b)) b)).
Proof. reflexivity. Qed.

(** What the clock reaching [t] does to each component of the bot. *)
Lemma advance_spec t b :
  timers (advance t b) = filter (λ tm, ¬ tm.1 ≤ t) (timers b)
  ∧ now (advance t b) = Z.max (now b) t
  ∧ defaultUserCooldown (config (advance t b)) = defaultUserCooldown (config b)
  ∧ (∀ u, u ∈ userCooldowns (advance t b) ↔
          u ∈ userCooldowns b ∧ ∀ d, (d, WindowExpiry u) ∈ timers b → ¬ d ≤ t)
  ∧ (∀ u, u ∈ blockedUsers (config (advance t b)) ↔
          u ∈ blockedUsers (config b) ∧ ∀ d, (d, Unblock u) ∈ timers b → ¬ d ≤ t)
  ∧ (∀ u d, (d, WindowExpiry u) ∈ timers b → d ≤ t →
          JS.or_zero (userMessageCounters (advance t b) !! u) = 0)
  ∧ (∀ u, (∀ d, (d, WindowExpiry u) ∈ timers b → ¬ d ≤ t) →
          userMessageCounters (advance t b) !! u = userMessageCounters b !! u).
Proof.
  rewrite advance_fires.
  set (due := filter (λ tm, tm.1 ≤ t) (timers b)).
  set (b' := with_now _ _).
  destruct (fires_frame due b') as (Ht & Hn & Hc & _ & _).
  assert (Hdue : ∀ d cb, (d, cb) ∈ due ↔ (d, cb) ∈ timers b ∧ d ≤ t).
  { intros d cb. unfold due. rewrite list_elem_of_filter. simpl. taut. }
  split_and!; try done.
  - intros u. rewrite fires_cooldown. split.
    + intros [Hu Hl]. split; [done|]. intros d Hd Hle. apply (Hl d). by apply Hdue.
    + intros [Hu Hl]. split; [done|].
      intros d Hd. apply Hdue in Hd as [Hd Hle]. by eapply Hl.
  - intros u. rewrite fires_blocked. split.
    + intros [Hu Hl]. split; [done|]. intros d Hd Hle. apply (Hl d). by apply Hdue.
    + intros [Hu Hl]. split; [done|].
      intros d Hd. apply Hdue in Hd as [Hd Hle]. by eapply Hl.
  - intros u d Hd Hle. apply fires_counter. exists d. by apply Hdue.
  - intros u Hl. destruct (fires_counter due b' u) as [_ Hkeep].
    rewrite Hkeep; [done|].
    intros d Hd. apply Hdue in Hd as [Hd Hle]. by eapply Hl.
Qed.

(** ** The threshold of the rate limiter *)



(** ** The pipeline seen from the rate limiter *)

Lemma quiet_refl b : quiet b b.
Proof. by repeat split. Qed.

Lemma rateLimiter_split c next b :
  rateLimiter c next b = next c (limited (message c) b)
  ∨ rateLimiter c next b = (limited (message c) b, Normal).
Proof.
  unfold limited. rewrite !rateLimiter_cases. cbv zeta.
  change (author_id {| message := message c; args := None; command := None |})
    with (author_id c).
  case_bool_decide; [by left|]. right.
  case_bool_decide; done.
Qed.

Lemma quiet_trans b1 b2 b3 : quiet b1 b2 → quiet b2 b3 → quiet b1 b3.
Proof.
  intros (H1 & H2 & H3 & H4 & H5) (K1 & K2 & K3 & K4 & K5).
  unfold quiet. by rewrite K1, K2, K3, K4, K5.
Qed.

Lemma settle_quiet c r : quiet r.1 (settle c r).1.
Proof.
  unfold settle. destruct r as [b1 res]. simpl.
  destruct res as [|[err| |]|e|]; by repeat split.
Qed.

Lemma tame_found modules cfg tok cmd :
  tame_commands modules → getCommandNamed modules cfg tok = Some cmd → tame cmd.
Proof.
  intros Htame (_ & e & He & Hcmd)%getCommandNamed_member.
  unfold tame_commands in Htame. rewrite Forall_forall in Htame.
  specialize (Htame e He). rewrite Forall_forall in Htame. by apply Htame.
Qed.

Lemma commandDispatcher_quiet modules c next b :
  tame_commands modules →
  quiet b (commandDispatcher modules c next b).1.
Proof.
  intros Htame. unfold commandDispatcher.
  destruct (getCommandNamed modules (config b) (command c)) as [cmd|] eqn:Hcmd;
    [|apply quiet_refl].
  pose proof (tame_found _ _ _ _ Htame Hcmd) as Hcmd'.
  destruct (args c) as [a|]; [|apply quiet_refl].
  case_bool_decide; [|by repeat split].
  destruct (roleOverrideFor (config b) c) as [e|role]; [apply quiet_refl|].
  destruct (hasPermission _ _ _ _ _); [|by repeat split].
  eapply quiet_trans; [|apply settle_quiet].
  eapply quiet_trans; [|apply Hcmd']. by repeat split.
Qed.

Lemma core_cases modules c b :
  tame_commands modules →
  let r := (compose (coreStages modules) c b).1 in
  quiet b r
  ∨ ((author_id c ∉ blockedUsers (config b)) ∧ quiet (limited (message c) b) r).
Proof.
  intros Htame. simpl. destruct (decide (author_id c ∈ blockedUsers (config b))) as [Hin|Hout].
  { rewrite blockHandler_blocked by done. left. apply quiet_refl. }
  rewrite blockHandler_pass by done. unfold commandDetector.
  repeat (case_match; try (left; apply quiet_refl)).
  match goal with
  | |- context [rateLimiter ?c' ?next b] =>
      destruct (rateLimiter_split c' next b) as [-> | ->]
  end; right; (split; [done|]); simpl.
  - by apply commandDispatcher_quiet.
  - apply quiet_refl.
Qed.

Lemma onMessage_plain modules msg b :
  Forall (λ e, middleware e.2 = []) modules →
  onMessage modules msg b =
    checkMessageAuthor {| message := msg; args := None; command := None |}
                       (compose (coreStages modules)) b.
Proof.
  intros Hmw. unfold onMessage.
  assert (Hfold : ∀ mw, foldl (λ mw e, mw ++ middleware e.2) mw modules = mw).
  { induction Hmw as [|e ms He _ IH]; intros mw; simpl; [done|].
    rewrite He, app_nil_r. apply IH. }
  by rewrite Hfold.
Qed.

Lemma deliver_cases modules b ev :
  Forall (λ e, middleware e.2 = []) modules →
  tame_commands modules →
  let b' := advance ev.1 b in
  quiet b' (deliver modules b ev)
  ∨ ((User.id (author ev.2) ∉ blockedUsers (config b'))
     ∧ quiet (limited ev.2 b') (deliver modules b ev)).
Proof.
  intros Hmw Htame. unfold deliver. rewrite onMessage_plain by done.
  unfold checkMessageAuthor. case_match; [|left; apply quiet_refl].
  by apply (core_cases modules {| message := ev.2; args := None; command := None |}).
Qed.

(** What the rate limiter does to each component of the bot. *)
Lemma limited_spec msg b :
  let id := User.id (author msg) in
  let n := JS.or_zero (userMessageCounters b !! id) + 1 in
  let cd := defaultUserCooldown (config b) in
  defaultUserCooldown (config (limited msg b)) = cd
  ∧ now (limited msg b) = now b
  ∧ (∀ u, u ∈ userCooldowns (limited msg b) ↔ u = id ∨ u ∈ userCooldowns b)
  ∧ userMessageCounters (limited msg b) = <[id := n]> (userMessageCounters b)
  ∧ blockedUsers (config (limited msg b))
    = (if bool_decide (n = messageCount cd) then blockedUsers (config b) ++ [id]
       else blockedUsers (config b))
  ∧ (∀ x, x ∈ timers (limited msg b) ↔
          x ∈ timers b
          ∨ ((id ∉ userCooldowns b) ∧ x = (now b + JS.timeoutDelay (intervalMs cd), WindowExpiry id))
          ∨ (n = messageCount cd ∧ x = (now b + JS.timeoutDelay (blockDurationMs cd), Unblock id))).
Proof.
  intros id n cd. unfold limited. rewrite rateLimiter_cases. cbv zeta.
  change (author_id {| message := msg; args := None; command := None |}) with id.
  fold n cd.
  set (counted := countMessage id (openWindow id b)).
  assert (Hcool : ∀ u, u ∈ userCooldowns counted ↔ u = id ∨ u ∈ userCooldowns b).
  { intros u. subst counted. unfold countMessage, openWindow. simpl.
    case_bool_decide as Hin; simpl.
    - split; [taut|]. by intros [->|?].
    - rewrite elem_of_union, elem_of_singleton. taut. }
  assert (Hctr : userMessageCounters counted = <[id := n]> (userMessageCounters b)).
  { subst counted. unfold countMessage. simpl.
    by destruct (openWindow_frame id b) as (_ & _ & _ & _ & ->). }
  assert (Htim : ∀ x, x ∈ timers counted ↔
            x ∈ timers b
            ∨ ((id ∉ userCooldowns b) ∧ x = (now b + JS.timeoutDelay (intervalMs cd), WindowExpiry id))).
  { intros x. subst counted. unfold countMessage, openWindow. simpl.
    case_bool_decide as Hin; simpl.
    - taut.
    - rewrite elem_of_schedule. taut. }
  assert (Hcfg : config counted = config b).
  { subst counted. simpl. apply openWindow_frame. }
  assert (Hnow : now counted = now b).
  { subst counted. simpl. apply openWindow_frame. }
  clearbody counted.
  case_bool_decide as Hlt; [|case_bool_decide as Heq]; simpl.
  - rewrite bool_decide_false by lia. rewrite Hcfg.
    split_and!; try done. intros x. rewrite Htim. split; [taut|].
    intros [?|[?|[? _]]]; [taut | taut | lia].
  - rewrite Hcfg. split_and!; try done.
    intros x. rewrite elem_of_schedule, Htim, Hnow. fold cd. taut.
  - rewrite Hcfg. split_and!; try done. intros x. rewrite Htim. taut.
Qed.

(** ** An invariant of the rate limiter's state *)

Lemma wf_boot cfg : wf (defaultUserCooldown cfg) (boot cfg).
Proof.
  split; simpl; try done; intros;
    match goal with
    | H : _ ∈ [] |- _ => by apply elem_of_nil in H
    | H : _ ∈ ∅ |- _ => by apply not_elem_of_empty in H
    end.
Qed.

Lemma wf_quiet cd b b' : quiet b b' → wf cd b → wf cd b'.
Proof.
  intros (Hc & Hu & Hm & Ht & Hn) [H1 H2 H3 H4 H5 H6].
  split; rewrite ?Hc, ?Hu, ?Hm, ?Ht, ?Hn; done.
Qed.

Lemma wf_advance cd t b : wf cd b → wf cd (advance t b).
Proof.
  intros [H1 H2 H3 H4 H5 H6].
  destruct (advance_spec t b) as (Ht & Hn & Hc & Hcool & Hblk & Hzero & Hkeep).
  assert (Hlater : ∀ x, x ∈ timers (advance t b) ↔ ¬ x.1 ≤ t ∧ x ∈ timers b).
  { intros x. rewrite Ht, list_elem_of_filter. done. }
  split.
  - by rewrite Hc.
  - intros u Hu. apply Hcool in Hu as [Hu Hl].
    destruct (H2 u Hu) as [d Hd]. exists d. apply Hlater. split; [|done].
    by apply Hl.
  - intros d u Hd. apply Hlater in Hd as [_ Hd]. apply H3 in Hd. rewrite Hn. lia.
  - intros u Hu.
    destruct (timer_pending_dec (filter (λ tm, tm.1 ≤ t) (timers b)) (WindowExpiry u))
      as [[d Hd]|Hnone].
    + apply list_elem_of_filter in Hd as [Hle Hd]. by eapply Hzero.
    + assert (Hl : ∀ d, (d, WindowExpiry u) ∈ timers b → ¬ d ≤ t).
      { intros d Hd Hle. apply (Hnone d). by apply list_elem_of_filter. }
      rewrite (Hkeep u Hl). apply H4. intros Hin. apply Hu. by apply Hcool.
  - intros d u Hd. apply Hlater in Hd as [Hgt Hd]. apply Hblk. split.
    + by eapply H5.
    + intros d' Hd'. by rewrite <- (H6 d d' u Hd Hd').
  - intros d d' u Hd Hd'. apply Hlater in Hd as [_ Hd]. apply Hlater in Hd' as [_ Hd'].
    by eapply H6.
Qed.

Lemma wf_limited cd msg b :
  wf cd b →
  User.id (author msg) ∉ blockedUsers (config b) →
  wf cd (limited msg b).
Proof.
  intros [H1 H2 H3 H4 H5 H6] Hfree.
  destruct (limited_spec msg b) as (Hc & Hn & Hcool & Hctr & Hblk & Htim).
  cbv zeta in Hc, Hn, Hcool, Hctr, Hblk, Htim. rewrite H1 in Hc, Hblk, Htim.
  set (id := User.id (author msg)) in *.
  assert (Hsub : ∀ u, u ∈ blockedUsers (config b) →
                      u ∈ blockedUsers (config (limited msg b))).
  { intros u Hu. rewrite Hblk. case_bool_decide; [|done].
    apply elem_of_app. by left. }
  split.
  - done.
  - intros u Hu. apply Hcool in Hu.
    destruct (decide (u ∈ userCooldowns b)) as [Hin|Hout].
    + destruct (H2 u Hin) as [d Hd]. exists d. apply Htim. by left.
    + destruct Hu as [->|Hu]; [|done].
      exists (now b + JS.timeoutDelay (intervalMs cd)). apply Htim. right. by left.
  - intros d u Hd. rewrite Hn. apply Htim in Hd as [Hd|[[_ Heq]|[_ Heq]]].
    + by eapply H3.
    + injection Heq as -> _. lia.
    + discriminate.
  - intros u Hu. rewrite Hctr.
    assert (Hne : id ≠ u). { intros ->. apply Hu, Hcool. by left. }
    rewrite lookup_insert_ne by done. apply H4.
    intros Hin. apply Hu, Hcool. by right.
  - intros d u Hd. apply Htim in Hd as [Hd|[[_ Heq]|[Hlim Heq]]].
    + apply Hsub. by eapply H5.
    + discriminate.
    + injection Heq as _ ->. rewrite Hblk, bool_decide_true by done.
      apply elem_of_app. right. by apply list_elem_of_singleton.
  - intros d d' u Hd Hd'.
    apply Htim in Hd as [Hd|[[_ Heq]|[_ Heq]]];
      apply Htim in Hd' as [Hd'|[[_ Heq']|[_ Heq']]]; try discriminate.
    + by eapply H6.
    + injection Heq' as _ ->. by apply H5 in Hd.
    + injection Heq as _ ->. by apply H5 in Hd'.
    + congruence.
Qed.

Lemma wf_deliver cd modules b ev :
  Forall (λ e, middleware e.2 = []) modules →
  tame_commands modules →
  wf cd b → wf cd (deliver modules b ev).
Proof.
  intros Hmw Htame Hwf. apply (wf_advance cd ev.1) in Hwf.
  destruct (deliver_cases modules b ev Hmw Htame) as [Hq|[Hfree Hq]].
  - by eapply wf_quiet.
  - eapply wf_quiet; [done|]. by apply wf_limited.
Qed.

Lemma wf_run cd modules evs b :
  Forall (λ e, middleware e.2 = []) modules →
  tame_commands modules →
  wf cd b → wf cd (run modules evs b).
Proof.
  intros Hmw Htame. revert b. induction evs as [|ev evs IH]; intros b Hwf; [done|].
  apply IH. by apply wf_deliver.
Qed.

(** ** A block, from the blocking message to the unblock timer *)

Lemma serving_advance cd u D t b :
  t < D → serving cd u D b → serving cd u D (advance t b).
Proof.
  intros Hlt (Hwf & Hblk & Htm).
  destruct (advance_spec t b) as (Ht & _ & _ & _ & Hb & _).
  split_and!.
  - by apply wf_advance.
  - apply Hb. split; [done|]. intros d Hd.
    rewrite (wf_unblock_due cd b Hwf d D u Hd Htm). lia.
  - rewrite Ht, list_elem_of_filter. split; [simpl; lia | done].
Qed.


Lemma blocked_deliver cd modules u D b ev :
  Forall (λ e, middleware e.2 = []) modules →
  tame_commands modules →
  ev.1 < D →
  serving cd u D b → serving cd u D (deliver modules b ev).
Proof.
  intros Hmw Htame Hlt Hs.
  apply (serving_advance cd u D ev.1) in Hs; [|done].
  destruct Hs as (Hwf & Hblk & Htm).
  destruct (deliver_cases modules b ev Hmw Htame) as [Hq|[Hfree Hq]];
    pose proof Hq as (Hc & _ & _ & Ht & _).
  - split_and!; [by eapply wf_quiet | by rewrite Hc | by rewrite Ht].
  - destruct (limited_spec ev.2 (advance ev.1 b)) as (_ & _ & _ & _ & Hb & Htim).
    cbv zeta in Hb, Htim. split_and!.
    + eapply wf_quiet; [done|]. by apply wf_limited.
    + rewrite Hc, Hb. case_bool_decide; [|done]. apply elem_of_app. by left.
    + rewrite Ht. apply Htim. by left.
Qed.

Lemma blocked_run cd modules u D evs b :
  Forall (λ e, middleware e.2 = []) modules →
  tame_commands modules →
  Forall (λ ev, ev.1 < D) evs →
  serving cd u D b → serving cd u D (run modules evs b).
Proof.
  intros Hmw Htame Hevs. revert b.
  induction Hevs as [|ev evs Hev _ IH]; intros b Hs; [done|].
  apply IH. by apply blocked_deliver.
Qed.










(** The message that puts its author on the blocked list sets the timer
    that takes the author off again. *)
Lemma serving_at_block cd modules b ev :
  let u := User.id (author ev.2) in
  Forall (λ e, middleware e.2 = []) modules →
  tame_commands modules →
  wf cd b →
  u ∉ blockedUsers (config (advance ev.1 b)) →
  u ∈ blockedUsers (config (deliver modules b ev)) →
  serving cd u (now (advance ev.1 b) + JS.timeoutDelay (blockDurationMs cd))
          (deliver modules b ev).
Proof.
  intros u Hmw Htame Hwf Hfree Hblocked.
  pose proof (wf_advance cd ev.1 b Hwf) as Hwf0.
  pose proof (wf_deliver cd modules b ev Hmw Htame Hwf) as Hwf1.
  destruct (deliver_cases modules b ev Hmw Htame) as [Hq|[_ Hq]];
    destruct Hq as (Hc & _ & _ & Ht & Hn).
  - by rewrite Hc in Hblocked.
  - destruct (limited_spec ev.2 (advance ev.1 b)) as (_ & Hn' & _ & _ & Hb & Htim).
    cbv zeta in Hb, Htim. fold u in Hb, Htim.
    rewrite (wf_tunables cd _ Hwf0) in Hb, Htim.
    case_bool_decide as Hlim; [|by rewrite Hc, Hb in Hblocked].
    split_and!; [done | done |].
    rewrite Ht. apply Htim. right; right. done.
Qed.


(** ** The two flags of a user *)

Lemma overlap_advance cd t b :
  overlap_at_limit cd b → overlap_at_limit cd (advance t b).
Proof.
  intros Hov u Hblk Hcool.
  destruct (advance_spec t b) as (_ & _ & _ & Hc & Hb & _ & Hkeep).
  apply Hb in Hblk as [Hblk _]. apply Hc in Hcool as [Hcool Hl].
  rewrite (Hkeep u Hl). by apply Hov.
Qed.

Lemma overlap_limited cd msg b :
  defaultUserCooldown (config b) = cd →
  User.id (author msg) ∉ blockedUsers (config b) →
  overlap_at_limit cd b → overlap_at_limit cd (limited msg b).
Proof.
  intros Hcd Hfree Hov u Hblk Hcool.
  destruct (limited_spec msg b) as (_ & _ & Hc & Hctr & Hb & _).
  cbv zeta in Hc, Hctr, Hb. rewrite Hcd in Hb. rewrite Hctr.
  destruct (decide (u = User.id (author msg))) as [->|Hne].
  - rewrite lookup_insert_eq. simpl.
    rewrite Hb in Hblk. case_bool_decide; done.
  - rewrite lookup_insert_ne by done. apply Hov.
    + rewrite Hb in Hblk. case_bool_decide; [|done].
      apply elem_of_app in Hblk as [Hblk|Hblk]; [done|].
      by apply list_elem_of_singleton in Hblk.
    + apply Hc in Hcool as [Hcool|Hcool]; done.
Qed.

Lemma overlap_run cd modules evs b :
  Forall (λ e, middleware e.2 = []) modules →
  tame_commands modules →
  wf cd b → overlap_at_limit cd b → overlap_at_limit cd (run modules evs b).
Proof.
  intros Hmw Htame. revert b.
  induction evs as [|ev evs IH]; intros b Hwf Hov; [done|].
  apply IH; [by apply wf_deliver|].
  apply (wf_advance cd ev.1) in Hwf. apply (overlap_advance cd ev.1) in Hov.
  destruct (deliver_cases modules b ev Hmw Htame) as [Hq|[Hfree Hq]];
    destruct Hq as (Hc & Hu & Hm & _).
  - intros u. rewrite Hc, Hu, Hm. apply Hov.
  - intros u. rewrite Hc, Hu, Hm.
    by apply overlap_limited; [apply (wf_tunables cd _ Hwf) | |].
Qed.

(** C2: the message that gets a user blocked is counted in that user's
    open window, so right after it the user is both blocked and in an open
    window.  Each flag then has its own timer: the window timer clears
    [cooldownActive] and leaves [blocked] alone, the unblock timer clears
    [blocked] and leaves [cooldownActive] alone.  In every state reached
    from [boot] by messages and timers (with modules that bring no
    middleware and whose commands leave the rate limiter's data alone) a
    user has both flags only with the counter standing at [messageCount],
    that is, in the rest of the window in which the limit was reached.
    What cannot happen is that a blocked user is counted: the
    core stages drop a message of a blocked user and leave the bot as it
    was. *)
Theorem blocked_in_open_window modules c next b :
  let id := author_id c in
  (JS.or_zero (userMessageCounters b !! id) + 1
     = messageCount (defaultUserCooldown (config b)) →
     blocked id (rateLimiter c next b).1
     ∧ cooldownActive id (rateLimiter c next b).1)
  ∧ (∀ v u,
       (blocked u (fire (WindowExpiry v) b) ↔ blocked u b)
       ∧ (cooldownActive u (fire (WindowExpiry v) b) ↔ cooldownActive u b ∧ u ≠ v))
  ∧ (∀ v u,
       (cooldownActive u (fire (Unblock v) b) ↔ cooldownActive u b)
       ∧ (blocked u (fire (Unblock v) b) ↔ blocked u b ∧ u ≠ v))
  ∧ (∀ cfg evs u,
       Forall (λ e, middleware e.2 = []) modules →
       tame_commands modules →
       blocked u (run modules evs (boot cfg)) →
       cooldownActive u (run modules evs (boot cfg)) →
       JS.or_zero (userMessageCounters (run modules evs (boot cfg)) !! u)
       = messageCount (defaultUserCooldown cfg))
  ∧ (blocked id b → compose (coreStages modules) c b = (b, Normal)).
Proof.
  intros id. split_and!.
  - intros Hlim. rewrite rateLimiter_cases. cbv zeta. fold id.
    rewrite bool_decide_false by lia. rewrite bool_decide_true by done.
    unfold blocked, cooldownActive. simpl. split.
    + apply elem_of_app. right. by apply list_elem_of_singleton.
    + apply openWindow_cooldown.
  - intros v u. unfold blocked, cooldownActive. simpl. split; [done|].
    rewrite elem_of_difference, elem_of_singleton. done.
  - intros v u. unfold blocked, cooldownActive. simpl. split; [done|].
    rewrite list_elem_of_filter. taut.
  - intros cfg evs u Hmw Htame. apply overlap_run; [done | done | apply wf_boot |].
    intros u' _ Hcool. by apply not_elem_of_empty in Hcool.
  - intros Hblk. simpl. by apply blockHandler_blocked.
Qed.

(** * Further properties *)

(** ** The chain of a message *)

Lemma middleware_fold (modules : Registry) (mw : list Middleware) :
  foldl (λ mw e, mw ++ middleware e.2) mw modules = mw ++ moduleMiddleware modules.
Proof.
  revert mw. induction modules as [|e ms IH]; intros mw; simpl.
  - by rewrite app_nil_r.
  - rewrite IH. unfold moduleMiddleware. simpl. by rewrite <- app_assoc.
Qed.


(** X2: a message written by a bot changes nothing and reaches no stage
    after the author check, whatever middleware the loaded modules bring. *)
Theorem onMessage_bot_author modules msg b :
  User.bot (author msg) = true →
  onMessage modules msg b = (b, Normal)
  ∧ ∀ rest c, author (message c) = author msg →
      compose (checkMessageAuthor :: rest) c b = (b, Normal).
Proof.
  intros Hbot.
  assert (Hdrop : ∀ rest c, author (message c) = author msg →
            compose (checkMessageAuthor :: rest) c b = (b, Normal)).
  { intros rest c Hc. simpl. unfold checkMessageAuthor. by rewrite Hc, Hbot. }
  split; [|exact Hdrop].
  unfold onMessage. rewrite middleware_fold. by apply Hdrop.
Qed.

(** ** The tokens of a command line *)

Lemma space_not_plain ch :
  JS.is_space ch = true → JS.is_plain ch = false ∧ JS.is_quote ch = false.
Proof.
  destruct ch as [[] [] [] [] [] [] [] []]; simpl; intros H;
    first [discriminate H | split; reflexivity].
Qed.

Lemma plain_not_space ch :
  JS.is_plain ch = true → JS.is_space ch = false ∧ JS.is_quote ch = false.
Proof.
  unfold JS.is_plain. destruct (JS.is_space ch), (JS.is_quote ch); simpl; intros H;
    first [discriminate H | split; reflexivity].
Qed.

Lemma takeWhile_app_all {A} (p : A → bool) (l r : list A) :
  Forall (λ x, p x = true) l → (∀ x, head r = Some x → p x = false) →
  JS.takeWhile p (l ++ r) = l.
Proof.
  intros Hl Hr. induction Hl as [|x l Hx _ IH]; simpl.
  - destruct r as [|y r]; simpl; [done|]. by rewrite (Hr y).
  - by rewrite Hx, IH.
Qed.

Lemma dropWhile_app_all {A} (p : A → bool) (l r : list A) :
  Forall (λ x, p x = true) l → JS.dropWhile p (l ++ r) = JS.dropWhile p r.
Proof. induction 1 as [|x l Hx _ IH]; simpl; [done|]. by rewrite Hx. Qed.

Lemma dropWhile_head {A} (p : A → bool) (r : list A) :
  (∀ x, head r = Some x → p x = false) → JS.dropWhile p r = r.
Proof. intros Hr. destruct r as [|y r]; simpl; [done|]. by rewrite (Hr y). Qed.

Lemma tokens_nil : tokens [] = [].
Proof. reflexivity. Qed.

Lemma tokens_plain ch s :
  JS.is_plain ch = true →
  tokens (ch :: s)
  = JS.takeWhile JS.is_plain (ch :: s) :: tokens (JS.dropWhile JS.is_plain s).
Proof.
  intros H. unfold tokens. cbn [JS.scan length]. rewrite H. f_equal.
  apply scan_fuel; [apply dropWhile_length | done].
Qed.

Lemma tokens_space ch s : JS.is_space ch = true → tokens (ch :: s) = tokens s.
Proof.
  intros H. destruct (space_not_plain ch H) as [Hp Hq].
  unfold tokens. cbn [JS.scan length]. by rewrite Hp, Hq.
Qed.

Lemma tokens_quote_closed q s body rest :
  JS.is_quote q = true → JS.closing q s = Some (body, rest) →
  tokens (q :: s) = (q :: body ++ [q]) :: tokens rest.
Proof.
  intros Hq Hc. unfold tokens. cbn [JS.scan length].
  assert (JS.is_plain q = false) as -> by (unfold JS.is_plain; rewrite Hq; apply andb_false_r).
  rewrite Hq, Hc. f_equal.
  apply scan_fuel; [|done]. apply closing_length in Hc. lia.
Qed.

Lemma tokens_quote_open q s :
  JS.is_quote q = true → JS.closing q s = None → tokens (q :: s) = tokens s.
Proof.
  intros Hq Hc. unfold tokens. cbn [JS.scan length].
  assert (JS.is_plain q = false) as -> by (unfold JS.is_plain; rewrite Hq; apply andb_false_r).
  by rewrite Hq, Hc.
Qed.

Lemma match_args_tokens s :
  JS.match_args s = match tokens s with [] => None | ms => Some ms end.
Proof. reflexivity. Qed.

Lemma closing_found q body rest :
  q ∉ body → JS.closing q (body ++ q :: rest) = Some (body, rest).
Proof.
  induction body as [|ch body IH]; intros Hq; simpl.
  - by rewrite bool_decide_true.
  - rewrite bool_decide_false by (intros ->; apply Hq; left).
    rewrite IH; [done|]. intros Hin. apply Hq. by right.
Qed.

Lemma closing_missing q s : q ∉ s → JS.closing q s = None.
Proof.
  induction s as [|ch s IH]; intros Hq; simpl; [done|].
  rewrite bool_decide_false by (intros ->; apply Hq; left).
  rewrite IH; [done|]. intros Hin. apply Hq. by right.
Qed.

Lemma tokens_word w r :
  word w → (∀ x, head r = Some x → JS.is_plain x = false) →
  tokens (w ++ r) = w :: tokens r.
Proof.
  intros [Hne Hw] Hr. destruct w as [|ch w]; [done|].
  apply Forall_cons in Hw as [Hch Hw].
  change ((ch :: w) ++ r) with (ch :: (w ++ r)).
  rewrite tokens_plain by done. f_equal.
  - change (ch :: w ++ r) with ((ch :: w) ++ r).
    apply takeWhile_app_all; [by constructor | done].
  - f_equal. rewrite dropWhile_app_all by done. by apply dropWhile_head.
Qed.

Lemma tokens_gap s r :
  Forall (λ ch, JS.is_space ch = true) s → tokens (s ++ r) = tokens r.
Proof. induction 1 as [|ch s Hch _ IH]; simpl; [done|]. by rewrite tokens_space. Qed.

Lemma spaced_cons w s w2 rest :
  spaced w ((s, w2) :: rest) = w ++ s ++ spaced w2 rest.
Proof. unfold spaced. simpl. by rewrite <- !app_assoc. Qed.

Lemma tokens_spaced w rest :
  word w → Forall (λ sw, gap sw.1 ∧ word sw.2) rest →
  tokens (spaced w rest) = w :: rest.*2.
Proof.
  intros Hw Hrest. revert w Hw.
  induction Hrest as [|[s w2] rest [[Hs Hsp] Hw2] _ IH]; intros w Hw.
  - unfold spaced. simpl. rewrite tokens_word; [done..|]. intros x [=].
  - rewrite spaced_cons. simpl in *. rewrite tokens_word; [|done|].
    + by rewrite tokens_gap, IH.
    + destruct Hsp as [|ch s' Hch _]; [done|]. simpl. intros x [= <-].
      by destruct (space_not_plain ch Hch).
Qed.

Lemma spaced_ends w rest :
  word w → Forall (λ sw, gap sw.1 ∧ word sw.2) rest →
  ∃ a z, head (spaced w rest) = Some a ∧ JS.is_space a = false
         ∧ last (spaced w rest) = Some z ∧ JS.is_space z = false.
Proof.
  intros Hw Hrest. revert w Hw.
  induction Hrest as [|[s w2] rest [[Hs Hsp] Hw2] _ IH]; intros w [Hne Hw].
  - unfold spaced. simpl. rewrite app_nil_r.
    destruct w as [|a w]; [done|]. exists a.
    destruct (last (a :: w)) as [z|] eqn:Hz.
    + exists z. split_and!; [done| |done|].
      * apply Forall_cons in Hw as [Ha _]. by destruct (plain_not_space a Ha).
      * apply last_Some_elem_of in Hz. rewrite Forall_forall in Hw.
        by destruct (plain_not_space z (Hw z Hz)).
    + by apply last_None in Hz.
  - rewrite spaced_cons. simpl in *.
    destruct (IH w2 Hw2) as (a2 & z & Ha2 & _ & Hz & Hzs).
    destruct w as [|a w]; [done|]. exists a, z. split_and!; [done| | |done].
    + apply Forall_cons in Hw as [Ha _]. by destruct (plain_not_space a Ha).
    + rewrite !last_app, Hz. done.
Qed.

Lemma trim_padded lead t trail a z :
  Forall (λ ch, JS.is_space ch = true) lead →
  Forall (λ ch, JS.is_space ch = true) trail →
  head t = Some a → JS.is_space a = false →
  last t = Some z → JS.is_space z = false →
  JS.trim (lead ++ t ++ trail) = t.
Proof.
  intros Hlead Htrail Ha Has Hz Hzs. unfold JS.trim.
  rewrite dropWhile_app_all by done.
  rewrite (dropWhile_head _ (t ++ trail)).
  - rewrite reverse_app, dropWhile_app_all by (by apply Forall_reverse).
    rewrite dropWhile_head; [apply reverse_involutive|].
    intros x. rewrite head_reverse, Hz. by intros [= <-].
  - destruct t as [|a' t]; [done|]. simpl in *. intros x [= <-]. by simplify_eq.
Qed.

Lemma strip_quotes_word w : word w → JS.strip_quotes w = w.
Proof.
  intros [Hne Hw]. unfold JS.strip_quotes.
  rewrite dropWhile_head.
  - destruct (last w) as [z|] eqn:Hz; [|done].
    apply last_Some_elem_of in Hz. rewrite Forall_forall in Hw.
    destruct (plain_not_space z (Hw z Hz)) as [_ ->]. done.
  - destruct w as [|a w]; [done|]. simpl. intros x [= <-].
    apply Forall_cons in Hw as [Ha _]. by destruct (plain_not_space a Ha).
Qed.

Lemma strip_quotes_words (rest : list (list ascii * list ascii)) :
  Forall (λ sw, gap sw.1 ∧ word sw.2) rest →
  map JS.strip_quotes rest.*2 = rest.*2.
Proof.
  induction 1 as [|[s w2] rest [_ Hw2] _ IH]; [done|].
  rewrite fmap_cons. cbn [map snd]. rewrite strip_quotes_word by done.
  f_equal. exact IH.
Qed.

Lemma lower_char_idem ch : JS.lower_char (JS.lower_char ch) = JS.lower_char ch.
Proof. destruct ch as [[] [] [] [] [] [] [] []]; vm_compute; reflexivity. Qed.

Lemma of_to_string l : of_string (to_string l) = l.
Proof. apply String.list_ascii_of_string_of_list_ascii. Qed.

(** X3: the detector ends in one of three ways: silently, when the text
    does not begin with the prefix; with the error of calling [map] on
    [null], when nothing follows the prefix; or by handing on the same
    message with its arguments and a command name that is in lower case.
    The call of [toLowerCase] on a missing first token never happens. *)
Theorem commandDetector_outcomes c next b :
  (commandDetector c next b = (b, Normal)
   ∧ JS.startsWith (of_string (prefixForMessageContext (config b) (message c)))
                   (of_string (content (message c))) = false)
  ∨ commandDetector c next b = (b, Throw map_of_null)
  ∨ ∃ cmd a,
      commandDetector c next b
      = next {| message := message c; args := Some a; command := Some cmd |} b
      ∧ to_string (JS.toLowerCase (of_string cmd)) = cmd.
Proof.
  unfold commandDetector.
  destruct (JS.startsWith _ _) eqn:Hpfx; [|by left].
  right. unfold JS.match_args.
  destruct (JS.scan _ _) as [|m ms]; [by left|].
  right. simpl. eexists _, _. split; [done|].
  rewrite of_to_string. f_equal. unfold JS.toLowerCase.
  rewrite map_map. apply map_ext. intros ch. apply lower_char_idem.
Qed.

Lemma detector_words c next b lead w rest trail :
  of_string (content (message c))
  = of_string (prefixForMessageContext (config b) (message c))
    ++ lead ++ spaced w rest ++ trail →
  Forall (λ ch, JS.is_space ch = true) lead →
  Forall (λ ch, JS.is_space ch = true) trail →
  word w →
  Forall (λ sw, gap sw.1 ∧ word sw.2) rest →
  JS.match_args (JS.trim (lead ++ spaced w rest ++ trail)) = Some (w :: rest.*2)
  ∧ commandDetector c next b
    = next {| message := message c;
              args := Some (map to_string rest.*2);
              command := Some (to_string (JS.toLowerCase w)) |} b.
Proof.
  intros Htext Hlead Htrail Hw Hrest.
  destruct (spaced_ends w rest Hw Hrest) as (a & z & Ha & Has & Hz & Hzs).
  assert (Hmatch : JS.match_args (JS.trim (lead ++ spaced w rest ++ trail))
                   = Some (w :: rest.*2)).
  { rewrite (trim_padded lead _ trail a z) by done.
    by rewrite match_args_tokens, tokens_spaced. }
  split; [exact Hmatch|].
  unfold commandDetector.
  rewrite Htext, startsWith_app, drop_app_length, Hmatch.
  cbn [map]. by rewrite strip_quotes_word, strip_quotes_words.
Qed.

(** X4: a text of words separated by white space, after the prefix and with
    white space around it, is taken apart into its words: the matches of
    the argument pattern are the words, and the detector hands on the
    first, in lower case, as the command and the others as the arguments,
    in order and unchanged. *)
Theorem commandDetector_words c next b lead w rest trail :
  of_string (content (message c))
  = of_string (prefixForMessageContext (config b) (message c))
    ++ lead ++ spaced w rest ++ trail →
  Forall (λ ch, JS.is_space ch = true) lead →
  Forall (λ ch, JS.is_space ch = true) trail →
  word w →
  Forall (λ sw, gap sw.1 ∧ word sw.2) rest →
  JS.match_args (JS.trim (lead ++ spaced w rest ++ trail)) = Some (w :: rest.*2)
  ∧ map JS.strip_quotes (w :: rest.*2) = w :: rest.*2
  ∧ commandDetector c next b
    = next {| message := message c;
              args := Some (map to_string rest.*2);
              command := Some (to_string (JS.toLowerCase w)) |} b.
Proof.
  intros Htext Hlead Htrail Hw Hrest.
  destruct (detector_words c next b lead w rest trail) as [Hmatch Hrun];
    [done..|].
  split_and!; [done | | done].
  cbn [map]. by rewrite strip_quotes_word, strip_quotes_words.
Qed.

(** X5: an argument in quotes.  The match runs from the quote to the next
    quote of the same kind, white space included; stripping then takes the
    two quotes away, and with them any quotes the text inside begins with.
    A quote that is never closed is skipped. *)
Theorem quoted_argument q body rest :
  JS.is_quote q = true →
  q ∉ body →
  JS.match_args (q :: body ++ q :: rest) = Some ((q :: body ++ [q]) :: tokens rest)
  ∧ JS.strip_quotes (q :: body ++ [q]) = JS.dropWhile JS.is_quote body
  ∧ ((∀ x, head body = Some x → JS.is_quote x = false) →
     JS.strip_quotes (q :: body ++ [q]) = body)
  ∧ tokens (q :: body) = tokens body.
Proof.
  intros Hq Hbody.
  assert (Hstrip : JS.strip_quotes (q :: body ++ [q]) = JS.dropWhile JS.is_quote body).
  { unfold JS.strip_quotes. cbn [JS.dropWhile]. rewrite Hq.
    clear Hbody. induction body as [|x body IH]; simpl.
    - by rewrite Hq.
    - destruct (JS.is_quote x) eqn:Hx; [exact IH|].
      change (x :: body ++ [q]) with ((x :: body) ++ [q]).
      rewrite last_snoc, Hq. apply removelast_last. }
  split_and!.
  - rewrite match_args_tokens.
    by rewrite (tokens_quote_closed q _ body rest Hq (closing_found q body rest Hbody)).
  - exact Hstrip.
  - intros Hhead. rewrite Hstrip. by apply dropWhile_head.
  - apply tokens_quote_open; [done|]. by apply closing_missing.
Qed.

(** ** From a message to the command *)

Lemma counted_frame id b :
  let counted := countMessage id (openWindow id b) in
  config counted = config b ∧ sent counted = sent b
  ∧ executed counted = executed b ∧ now counted = now b.
Proof.
  destruct (openWindow_frame id b) as (Hc & Hs & He & Hn & _).
  cbv zeta. unfold countMessage. simpl. by rewrite Hc, Hs, He, Hn.
Qed.

(** X6: the whole chain for a well-formed command.  With no module
    middleware loaded, a message of a user who is no bot, is not blocked and
    stays under the limit, whose text is the prefix followed by words, the
    first of which resolves to a command that gets enough arguments and that
    the author may use, has that command's [execute] called, once, with the
    remaining words as arguments, on the bot in which the message is
    counted, nobody is blocked and nothing is sent.  What [onMessage] gives
    is what that call leaves, with the report of a rejection on top; when
    the promise is resolved it is just what the call leaves. *)
Theorem onMessage_runs_command modules msg b lead w rest trail cmd role :
  let id := User.id (author msg) in
  let a := map to_string rest.*2 in
  let c := {| message := msg; args := Some a;
              command := Some (to_string (JS.toLowerCase w)) |} in
  let called := invoked cmd a c (countMessage id (openWindow id b)) in
  Forall (λ e, middleware e.2 = []) modules →
  User.bot (author msg) = false →
  id ∉ blockedUsers (config b) →
  JS.or_zero (userMessageCounters b !! id) + 1
    < messageCount (defaultUserCooldown (config b)) →
  of_string (content msg)
  = of_string (prefixForMessageContext (config b) msg)
    ++ lead ++ spaced w rest ++ trail →
  Forall (λ ch, JS.is_space ch = true) lead →
  Forall (λ ch, JS.is_space ch = true) trail →
  word w →
  Forall (λ sw, gap sw.1 ∧ word sw.2) rest →
  getCommandNamed modules (config b) (command c) = Some cmd →
  (requiredArguments cmd ≤ length a)%nat →
  roleOverrideFor (config b) c = inr role →
  hasPermission (config b) (member msg) (author msg)
                (permissionLevelFor (config b) c cmd) role = true →
  onMessage modules msg b = settle c (execute cmd a msg called)
  ∧ executed called = executed b ++ [(name cmd, a, msg)]
  ∧ sent called = sent b
  ∧ userMessageCounters called !! id
    = Some (JS.or_zero (userMessageCounters b !! id) + 1)
  ∧ config called = config b
  ∧ (∀ b1, execute cmd a msg called = (b1, Resolved) →
           onMessage modules msg b = (b1, Normal)).
Proof.
  intros id a c called Hplain Hbot Hfree Hunder Htext Hlead Htrail Hw Hrest
    Hcmd Hargs Hrole Hperm.
  assert (Hrun : onMessage modules msg b
            = commandDispatcher modules c (compose [])
                (countMessage id (openWindow id b))).
  { rewrite onMessage_plain by done. unfold checkMessageAuthor. simpl.
    rewrite Hbot. simpl.
    rewrite blockHandler_pass by done.
    rewrite (proj2 (detector_words
                      {| message := msg; args := None; command := None |}
                      _ b lead w rest trail Htext Hlead Htrail Hw Hrest)).
    simpl. rewrite rateLimiter_cases. cbv zeta.
    unfold author_id. simpl. by rewrite bool_decide_true. }
  destruct (counted_frame id b) as (Hc & Hs & He & _). cbv zeta in Hc, Hs, He.
  assert (Hcount : userMessageCounters (countMessage id (openWindow id b)) !! id
            = Some (JS.or_zero (userMessageCounters b !! id) + 1)).
  { rewrite countMessage_counter.
    by destruct (openWindow_frame id b) as (_ & _ & _ & _ & ->). }
  assert (Hsettle : onMessage modules msg b = settle c (execute cmd a msg called)).
  { rewrite Hrun.
    rewrite (commandDispatcher_resolved modules c _ _ cmd a)
      by (rewrite ?Hc; done).
    rewrite bool_decide_true by done. rewrite Hc, Hrole.
    change (message c) with msg. by rewrite Hperm. }
  split_and!.
  - exact Hsettle.
  - change (executed called)
      with (executed (countMessage id (openWindow id b)) ++ [(name cmd, a, msg)]).
    by rewrite He.
  - exact Hs.
  - exact Hcount.
  - exact Hc.
  - intros b1 Hb1. rewrite Hsettle, Hb1. done.
Qed.

(** ** More on the rate limiter *)

(** X7: a message that does not begin with the prefix of its context is
    dropped by the core stages before the rate limiter sees it: the bot is
    left exactly as it was, so ordinary talk is never counted. *)
Theorem onMessage_not_a_command modules msg b :
  JS.startsWith (of_string (prefixForMessageContext (config b) msg))
                (of_string (content msg)) = false →
  (∀ c, message c = msg → compose (coreStages modules) c b = (b, Normal))
  ∧ (Forall (λ e, middleware e.2 = []) modules →
     onMessage modules msg b = (b, Normal)).
Proof.
  intros Hpfx.
  assert (Hcore : ∀ c, message c = msg →
            compose (coreStages modules) c b = (b, Normal)).
  { intros c Hc. simpl. unfold blockHandler. case_match; [|done].
    unfold commandDetector. by rewrite Hc, Hpfx. }
  split; [exact Hcore|].
  intros Hplain. rewrite onMessage_plain by done.
  unfold checkMessageAuthor. case_match; [|done]. by apply Hcore.
Qed.

(** X8: with no module middleware loaded, and commands that leave the rate
    limiter's data alone, handling a message leaves the rate-limit state of
    every user other than its author as it was: open window, counter, place
    on the blocked list and pending timers. *)
Theorem onMessage_other_users modules msg b u :
  let b' := (onMessage modules msg b).1 in
  Forall (λ e, middleware e.2 = []) modules →
  tame_commands modules →
  u ≠ User.id (author msg) →
  (u ∈ userCooldowns b' ↔ u ∈ userCooldowns b)
  ∧ userMessageCounters b' !! u = userMessageCounters b !! u
  ∧ (u ∈ blockedUsers (config b') ↔ u ∈ blockedUsers (config b))
  ∧ (∀ d, (d, WindowExpiry u) ∈ timers b' ↔ (d, WindowExpiry u) ∈ timers b)
  ∧ (∀ d, (d, Unblock u) ∈ timers b' ↔ (d, Unblock u) ∈ timers b)
  ∧ now b' = now b.
Proof.
  intros b' Hplain Htame Hu.
  assert (Hcases : quiet b b' ∨ quiet (limited msg b) b').
  { subst b'. rewrite onMessage_plain by done. unfold checkMessageAuthor.
    case_match; [|left; apply quiet_refl].
    destruct (core_cases modules
                {| message := msg; args := None; command := None |} b Htame)
      as [Hq|[_ Hq]]; [by left | by right]. }
  clearbody b'.
  destruct Hcases as [Hq|Hq]; destruct Hq as (Hc & Hcd & Hm & Ht & Hn);
    rewrite Hc, Hcd, Hm, Ht, Hn; [done|].
  destruct (limited_spec msg b) as (_ & Hnow & Hcool & Hctr & Hblk & Htim).
  cbv zeta in Hcool, Hctr, Hblk, Htim.
  split_and!.
  - rewrite Hcool. split; [by intros [?|?] | by right].
  - rewrite Hctr. by apply lookup_insert_ne.
  - rewrite Hblk. case_bool_decide; [|done].
    rewrite elem_of_app, list_elem_of_singleton. split; [by intros [?|?] | by left].
  - intros d. rewrite Htim. split; [|by left].
    intros [?|[[_ ?]|[_ ?]]]; [done| |]; by simplify_eq.
  - intros d. rewrite Htim. split; [|by left].
    intros [?|[[_ ?]|[_ ?]]]; [done| |]; by simplify_eq.
  - exact Hnow.
Qed.

(** X9: in every state reached from [boot] by messages and timers, with no
    module middleware loaded and commands that leave the rate limiter's
    data alone, once the delay of the window timer has passed on the clock
    ([intervalMs] when that lies between 1 and 2^31-1, one millisecond
    otherwise) all counting windows are closed, every counter reads zero
    and no window timer is pending. *)
Theorem windows_close modules cfg evs t :
  let b := run modules evs (boot cfg) in
  Forall (λ e, middleware e.2 = []) modules →
  tame_commands modules →
  now b + JS.timeoutDelay (intervalMs (defaultUserCooldown cfg)) ≤ t →
  userCooldowns (advance t b) = ∅
  ∧ (∀ u, JS.or_zero (userMessageCounters (advance t b) !! u) = 0)
  ∧ ∀ d u, (d, WindowExpiry u) ∉ timers (advance t b).
Proof.
  intros b Hplain Htame Ht.
  assert (Hwf : wf (defaultUserCooldown cfg) b).
  { apply wf_run; [done | done |]. apply wf_boot. }
  clearbody b.
  pose proof (wf_advance _ t b Hwf) as Hwf'.
  destruct (advance_spec t b) as (Htim & _ & _ & Hcool & _).
  assert (Hnone : ∀ u, u ∉ userCooldowns (advance t b)).
  { intros u Hin. apply Hcool in Hin as [Hin Hlate].
    destruct (wf_window _ b Hwf u Hin) as [d Hd].
    apply (Hlate d Hd). pose proof (wf_window_due _ b Hwf d u Hd). lia. }
  split_and!.
  - apply set_eq. intros u. split; [by intros ?%Hnone|].
    by intros ?%not_elem_of_empty.
  - intros u. apply (wf_idle _ _ Hwf'), Hnone.
  - intros d u. rewrite Htim, list_elem_of_filter. simpl. intros [Hlate Hd].
    apply Hlate. pose proof (wf_window_due _ b Hwf d u Hd). lia.
Qed.

(** X10: beyond the limit.  A message of a user whose counter already
    stands at the limit or above is counted and goes no further: the next
    stage is not called, nothing is sent, nobody is put on the blocked list
    and no unblock timer is set.  Until the window closes such a user gets
    no answer and no notice. *)
Theorem rateLimiter_over_limit modules c next b :
  let id := author_id c in
  let counted := countMessage id (openWindow id b) in
  messageCount (defaultUserCooldown (config b))
    ≤ JS.or_zero (userMessageCounters b !! id) →
  rateLimiter c next b = (counted, Normal)
  ∧ compose [rateLimiter; commandDispatcher modules] c b = (counted, Normal)
  ∧ sent counted = sent b
  ∧ executed counted = executed b
  ∧ blockedUsers (config counted) = blockedUsers (config b)
  ∧ (∀ d u, (d, Unblock u) ∈ timers counted ↔ (d, Unblock u) ∈ timers b)
  ∧ userMessageCounters counted !! id
    = Some (JS.or_zero (userMessageCounters b !! id) + 1).
Proof.
  intros id counted Hover.
  assert (Hrun : ∀ next', rateLimiter c next' b = (counted, Normal)).
  { intros next'. rewrite rateLimiter_cases. cbv zeta. fold id.
    rewrite !bool_decide_false by lia. done. }
  destruct (counted_frame id b) as (Hc & Hs & He & _). cbv zeta in Hc, Hs, He.
  split_and!.
  - apply Hrun.
  - simpl. apply Hrun.
  - exact Hs.
  - exact He.
  - subst counted. by rewrite Hc.
  - intros d u. subst counted. unfold countMessage, openWindow. simpl.
    case_bool_decide; simpl; [done|].
    rewrite elem_of_schedule. split; [|by right].
    intros [?|?]; [by simplify_eq | done].
  - subst counted. rewrite countMessage_counter.
    by destruct (openWindow_frame id b) as (_ & _ & _ & _ & ->).
Qed.

Lemma free_deliver modules u b ev :
  Forall (λ e, middleware e.2 = []) modules →
  tame_commands modules →
  User.id (author ev.2) ≠ u →
  u ∉ blockedUsers (config b) → u ∉ blockedUsers (config (deliver modules b ev)).
Proof.
  intros Hmw Htame Hu Hfree.
  assert (Hfree' : u ∉ blockedUsers (config (advance ev.1 b))).
  { destruct (advance_spec ev.1 b) as (_ & _ & _ & _ & Hb & _).
    rewrite Hb. by intros [? _]. }
  destruct (deliver_cases modules b ev Hmw Htame) as [Hq|[_ Hq]];
    destruct Hq as (-> & _); [done|].
  destruct (limited_spec ev.2 (advance ev.1 b)) as (_ & _ & _ & _ & -> & _).
  case_bool_decide; [|done].
  rewrite elem_of_app, list_elem_of_singleton. by intros [?|?].
Qed.

(** The block of [u] is being served until [D], or is over. *)
Lemma ending_deliver cd modules u D b ev :
  Forall (λ e, middleware e.2 = []) modules →
  tame_commands modules →
  User.id (author ev.2) ≠ u →
  serving cd u D b ∨ (u ∉ blockedUsers (config b)) →
  serving cd u D (deliver modules b ev)
  ∨ (u ∉ blockedUsers (config (deliver modules b ev))).
Proof.
  intros Hmw Htame Hu [Hs|Hfree]; [|right; by apply free_deliver].
  destruct (decide (ev.1 < D)) as [Hlt|Hge].
  - left. by apply blocked_deliver.
  - right.
    assert (Hfree : u ∉ blockedUsers (config (advance ev.1 b))).
    { destruct (advance_spec ev.1 b) as (_ & _ & _ & _ & Hb & _).
      rewrite Hb. intros [_ Hlate]. destruct Hs as (_ & _ & Hd).
      apply (Hlate D Hd). lia. }
    destruct (deliver_cases modules b ev Hmw Htame) as [Hq|[_ Hq]];
      destruct Hq as (-> & _); [done|].
    destruct (limited_spec ev.2 (advance ev.1 b)) as (_ & _ & _ & _ & -> & _).
    case_bool_decide; [|done].
    rewrite elem_of_app, list_elem_of_singleton. by intros [?|?].
Qed.

Lemma ending_run cd modules u D evs b :
  Forall (λ e, middleware e.2 = []) modules →
  tame_commands modules →
  Forall (λ ev, User.id (author ev.2) ≠ u) evs →
  serving cd u D b ∨ (u ∉ blockedUsers (config b)) →
  serving cd u D (run modules evs b)
  ∨ (u ∉ blockedUsers (config (run modules evs b))).
Proof.
  intros Hmw Htame Hevs. revert b.
  induction Hevs as [|ev evs Hev _ IH]; intros b Hb; [done|].
  simpl. apply IH. by apply ending_deliver.
Qed.

(** X11: a block set by the rate limiter ends, whatever the settings.  Let
    a message of [u] in a run from [boot] (no module middleware, commands
    that leave the rate limiter's data alone) get [u] onto the blocked list
    and let [D] be its time plus the delay of the unblock timer
    ([blockDurationMs] when that lies between 1 and 2^31-1, one
    millisecond otherwise).  After any messages before [D] and any later
    messages of other users, [u] is off the blocked list from [D] on, and
    the core stages no longer stop the messages of [u] at the block
    handler. *)
Theorem block_ends modules cfg evs0 tb mb evs1 evs2 t :
  let cd := defaultUserCooldown cfg in
  let u := User.id (author mb) in
  let b0 := advance tb (run modules evs0 (boot cfg)) in
  let b1 := deliver modules (run modules evs0 (boot cfg)) (tb, mb) in
  let D := now b0 + JS.timeoutDelay (blockDurationMs cd) in
  let b := advance t (run modules evs2 (run modules evs1 b1)) in
  Forall (λ e, middleware e.2 = []) modules →
  tame_commands modules →
  u ∉ blockedUsers (config b0) →
  u ∈ blockedUsers (config b1) →
  Forall (λ ev, ev.1 < D) evs1 →
  Forall (λ ev, User.id (author ev.2) ≠ u) evs2 →
  D ≤ t →
  (u ∉ blockedUsers (config b))
  ∧ ∀ c next, author_id c = u → blockHandler c next b = next c b.
Proof.
  intros cd u b0 b1 D b Hmw Htame Hfree Hblocked Hevs1 Hevs2 Ht.
  assert (Hs1 : serving cd u D b1).
  { apply (serving_at_block cd modules (run modules evs0 (boot cfg)) (tb, mb));
      [done | done | | done | done].
    apply wf_run; [done | done |]. apply wf_boot. }
  clearbody b1.
  assert (Hend : u ∉ blockedUsers (config b)).
  { subst b.
    destruct (advance_spec t (run modules evs2 (run modules evs1 b1)))
      as (_ & _ & _ & _ & Hb & _).
    rewrite Hb. intros [Hin Hlate].
    destruct (ending_run cd modules u D evs2 (run modules evs1 b1) Hmw Htame Hevs2)
      as [(_ & _ & Hd)|Hout].
    - left. by apply blocked_run.
    - apply (Hlate D Hd). lia.
    - done. }
  split; [exact Hend|].
  intros c next Hc. apply blockHandler_pass. by rewrite Hc.
Qed.

(** A user on the blocked list for whom no unblock timer is pending. *)
Lemma banned_advance u t b :
  u ∈ blockedUsers (config b) ∧ (∀ d, (d, Unblock u) ∉ timers b) →
  u ∈ blockedUsers (config (advance t b))
  ∧ (∀ d, (d, Unblock u) ∉ timers (advance t b)).
Proof.
  intros [Hin Hno].
  destruct (advance_spec t b) as (Htim & _ & _ & _ & Hb & _).
  split.
  - apply Hb. split; [done|]. intros d Hd. by apply Hno in Hd.
  - intros d. rewrite Htim, list_elem_of_filter. intros [_ Hd]. by apply Hno in Hd.
Qed.

Lemma banned_deliver modules u b ev :
  Forall (λ e, middleware e.2 = []) modules →
  tame_commands modules →
  u ∈ blockedUsers (config b) ∧ (∀ d, (d, Unblock u) ∉ timers b) →
  u ∈ blockedUsers (config (deliver modules b ev))
  ∧ (∀ d, (d, Unblock u) ∉ timers (deliver modules b ev)).
Proof.
  intros Hmw Htame Hb. apply (banned_advance u ev.1) in Hb as [Hin Hno].
  destruct (deliver_cases modules b ev Hmw Htame) as [Hq|[Hfree Hq]];
    destruct Hq as (-> & _ & _ & -> & _); [done|].
  destruct (limited_spec ev.2 (advance ev.1 b)) as (_ & _ & _ & _ & Hblk & Htim).
  cbv zeta in Hblk, Htim.
  assert (Hne : User.id (author ev.2) ≠ u).
  { intros Heq. apply Hfree. by rewrite Heq. }
  split.
  - rewrite Hblk. case_bool_decide; [|done]. apply elem_of_app. by left.
  - intros d. rewrite Htim. intros [Hd|[[_ ?]|[_ ?]]]; [by apply Hno in Hd| |];
      by simplify_eq.
Qed.

(** X12: a user who is on the blocked list of the configuration the bot
    starts with stays blocked for good: with no module middleware loaded
    and commands that leave the rate limiter's data and the configuration
    alone, no message and no timer takes the user off the list, and every
    message of that user leaves the bot as it was. *)
Theorem configured_block_stays modules cfg evs t u :
  let b := advance t (run modules evs (boot cfg)) in
  Forall (λ e, middleware e.2 = []) modules →
  tame_commands modules →
  u ∈ blockedUsers cfg →
  u ∈ blockedUsers (config b)
  ∧ ∀ m, User.id (author m) = u → onMessage modules m b = (b, Normal).
Proof.
  intros b Hmw Htame Hin.
  assert (Hb : u ∈ blockedUsers (config b)).
  { subst b. apply banned_advance.
    assert (Hstart : u ∈ blockedUsers (config (boot cfg))
                     ∧ (∀ d, (d, Unblock u) ∉ timers (boot cfg))).
    { split; [done|]. intros d Hd. by apply elem_of_nil in Hd. }
    revert Hstart. generalize (boot cfg).
    induction evs as [|ev evs IH]; intros b0 Hb0; [done|].
    simpl. apply IH. by apply banned_deliver. }
  split; [exact Hb|].
  intros m Hm. rewrite onMessage_plain by done.
  unfold checkMessageAuthor. case_match; [|done]. simpl.
  apply blockHandler_blocked. unfold author_id. simpl. by rewrite Hm.
Qed.

(** ** Looking a command up, and what the dispatcher makes of it *)

Lemma firstFound_none cmdStr (modules : Registry) :
  firstFound cmdStr None modules = None ↔
  Forall (λ e, findCommand cmdStr (commands e.2) = None) modules.
Proof.
  induction modules as [|e ms IH].
  - split; [constructor | done].
  - rewrite firstFound_cons, Forall_cons.
    destruct (findCommand cmdStr (commands e.2)) as [cmd|] eqn:He.
    + rewrite firstFound_some. split; [done | by intros [? _]].
    + rewrite IH. split; [done | by intros [_ ?]].
Qed.

Lemma findCommand_none s cmds :
  findCommand (Value.Str s) cmds = None ↔ ∀ cmd, cmd ∈ cmds → name cmd ≠ s.
Proof.
  simpl. induction cmds as [|cmd cmds IH]; simpl.
  - split; [|done]. intros _ cmd Hin. by apply elem_of_nil in Hin.
  - case_bool_decide as Hn.
    + split; [done|]. intros Hall. destruct (Hall cmd); [left | done].
    + rewrite IH. split.
      * intros Hall cmd' [->|Hin]%elem_of_cons; [done | by apply Hall].
      * intros Hall cmd' Hin. apply Hall. by right.
Qed.

(** X13: what [getCommandNamed] finds is a command of a loaded module whose
    name is the name left by the alias look-up; it finds nothing exactly
    when no loaded module has a command of that name, and then the
    dispatcher does nothing at all: an unknown command gets no answer.  A
    token that names a property of [Object.prototype] and has no entry of
    its own in [config.commandAliases] finds nothing, whatever the modules
    hold: the look-up takes the inherited value for an alias. *)
Theorem getCommandNamed_sound modules cfg tok :
  (∀ cmd, getCommandNamed modules cfg tok = Some cmd →
     resolveAlias modules cfg tok = Value.Str (name cmd)
     ∧ ∃ e, e ∈ modules ∧ cmd ∈ commands e.2)
  ∧ (getCommandNamed modules cfg tok = None ↔
     ∀ e cmd, e ∈ modules → cmd ∈ commands e.2 →
              resolveAlias modules cfg tok ≠ Value.Str (name cmd))
  ∧ (getCommandNamed modules cfg tok = None →
     ∀ c next b, config b = cfg → command c = tok →
       commandDispatcher modules c next b = (b, Normal))
  ∧ (∀ k, k ∈ Proto.keys → commandAliases cfg !! k = None →
       resolveAlias modules cfg (Some k) = Value.Native (Proto.text k)
       ∧ getCommandNamed modules cfg (Some k) = None).
Proof.
  split_and!.
  - intros cmd. apply getCommandNamed_member.
  - unfold getCommandNamed. rewrite firstFound_none, Forall_forall.
    destruct (resolveAlias modules cfg tok) as [|s|text].
    + split; [done|]. by intros _ e _.
    + split.
      * intros Hall e cmd He Hcmd [= ->].
        by apply (proj1 (findCommand_none _ _) (Hall e He) cmd).
      * intros Hall e He. apply findCommand_none. intros cmd Hcmd Hn.
        apply (Hall e cmd He Hcmd). by rewrite Hn.
    + split; [done|]. by intros _ e _.
  - intros Hnone c next b <- <-. unfold commandDispatcher.
    by rewrite Hnone.
  - intros k Hk Hnone.
    assert (Hr : resolveAlias modules cfg (Some k) = Value.Native (Proto.text k)).
    { unfold resolveAlias. simpl. by destruct (Proto_inherited Hnone Hk) as [-> ->]. }
    split; [exact Hr|]. unfold getCommandNamed. rewrite Hr.
    apply firstFound_none, Forall_forall. by intros e _.
Qed.

(** X14: in a guild that has no entry in [serverPermissions], a known
    command with enough arguments makes the dispatcher throw a [TypeError],
    whoever the author is, the owner included: nothing is executed and
    nothing is sent, while the rate limiter has counted the message. *)
Theorem commandDispatcher_guild_without_entry modules c next b cmd a g :
  let id := author_id c in
  let counted := countMessage id (openWindow id b) in
  getCommandNamed modules (config b) (command c) = Some cmd →
  args c = Some a →
  (requiredArguments cmd ≤ length a)%nat →
  guild (message c) = Some g →
  serverPermissions (config b) !! Guild.id g = None →
  commandDispatcher modules c next b = (b, Throw property_of_undefined)
  ∧ (JS.or_zero (userMessageCounters b !! id) + 1
       < messageCount (defaultUserCooldown (config b)) →
     compose [rateLimiter; commandDispatcher modules] c b
     = (counted, Throw property_of_undefined)
     ∧ executed counted = executed b ∧ sent counted = sent b).
Proof.
  intros id counted Hcmd Hargs Hn Hg Hnone.
  assert (Hthrow : ∀ next' b', config b' = config b →
            commandDispatcher modules c next' b'
            = (b', Throw property_of_undefined)).
  { intros next' b' Hc.
    rewrite (commandDispatcher_resolved modules c next' b' cmd a)
      by (rewrite ?Hc; done).
    rewrite bool_decide_true by done. unfold roleOverrideFor.
    by rewrite Hg, Hc, Hnone. }
  split; [by apply Hthrow|].
  intros Hunder. destruct (counted_frame id b) as (Hc & Hs & He & _).
  cbv zeta in Hc, Hs, He. split_and!; [|done..].
  simpl. rewrite rateLimiter_cases. cbv zeta. fold id.
  rewrite bool_decide_true by done. by apply Hthrow.
Qed.

(** X15: the answer to a user without permission.  The call passes the
    text where [sendEmojiEmbed] takes the colour and passes no title, so
    the embed that is sent has the title made of the lock and the word
    undefined, no description, and the sentence as its colour; nothing is
    executed and the rest of the bot is as before. *)
Theorem commandDispatcher_denied_notice modules c next b cmd a role :
  getCommandNamed modules (config b) (command c) = Some cmd →
  args c = Some a →
  (requiredArguments cmd ≤ length a)%nat →
  roleOverrideFor (config b) c = inr role →
  hasPermission (config b) (member (message c)) (author (message c))
                (permissionLevelFor (config b) c cmd) role = false →
  ∃ b',
    commandDispatcher modules c next b = (b', Normal)
    ∧ sent b' =
        sent b ++ [(channel (message c),
                    {| Embed.title := "🔒   undefined";
                       Embed.description := None;
                       Embed.color :=
                         "You do not have permission to use this command." |})]
    ∧ executed b' = executed b
    ∧ quiet b b'.
Proof.
  intros Hcmd Hargs Hn Hrole Hperm.
  rewrite (commandDispatcher_resolved modules c next b cmd a) by done.
  rewrite bool_decide_true by done. rewrite Hrole, Hperm.
  eexists. split; [reflexivity|]. by repeat split.
Qed.

(** X16: the owner of the bot gets every known command handed to its
    [execute], whatever permission level the command declares and whatever
    overrides are configured, in a direct message and in every guild that
    has an entry in [serverPermissions]: the call is made with the args and
    the message, and the dispatcher ends as that call makes it end. *)
Theorem commandDispatcher_owner modules c next b cmd a :
  getCommandNamed modules (config b) (command c) = Some cmd →
  args c = Some a →
  (requiredArguments cmd ≤ length a)%nat →
  User.id (author (message c)) = owner (config b) →
  (∀ g, guild (message c) = Some g →
        is_Some (serverPermissions (config b) !! Guild.id g)) →
  commandDispatcher modules c next b
  = settle c (execute cmd a (message c) (invoked cmd a c b))
  ∧ executed (invoked cmd a c b) = executed b ++ [(name cmd, a, message c)]
  ∧ ((execute cmd a (message c) (invoked cmd a c b)).2 = Resolved →
     commandDispatcher modules c next b
     = ((execute cmd a (message c) (invoked cmd a c b)).1, Normal)).
Proof.
  intros Hcmd Hargs Hn Hown Hentry.
  rewrite (commandDispatcher_resolved modules c next b cmd a) by done.
  rewrite bool_decide_true by done.
  assert (∃ role, roleOverrideFor (config b) c = inr role) as [role ->].
  { unfold roleOverrideFor. destruct (guild (message c)) as [g|]; [|by eexists].
    destruct (Hentry g eq_refl) as [perms ->]. by eexists. }
  unfold hasPermission. rewrite bool_decide_true by done.
  split_and!; [done | done |]. unfold settle. by intros ->.
Qed.

(** ** Connecting *)

Lemma ensureServer_frame cfg g :
  owner (ensureServer cfg g) = owner cfg
  ∧ prefix (ensureServer cfg g) = prefix cfg
  ∧ commandAliases (ensureServer cfg g) = commandAliases cfg
  ∧ defaultColors (ensureServer cfg g) = defaultColors cfg
  ∧ defaultUserCooldown (ensureServer cfg g) = defaultUserCooldown cfg
  ∧ blockedUsers (ensureServer cfg g) = blockedUsers cfg
  ∧ groups (ensureServer cfg g) = groups cfg
  ∧ commandPermissions (ensureServer cfg g) = commandPermissions cfg.
Proof. unfold ensureServer. by repeat case_match. Qed.

Lemma ensureServer_permissions cfg g k :
  serverPermissions (ensureServer cfg g) !! k
  = match serverPermissions cfg !! k with
    | Some perms => Some perms
    | None => if bool_decide (k = Guild.id g) then Some ∅ else None
    end.
Proof.
  unfold ensureServer.
  assert (Hin : ∀ cfg', serverPermissions
            (if negb (bool_decide (is_Some (settings cfg' !! Guild.id g)))
             then with_settings
                    (<[Guild.id g := {| ServerSettings.prefix := None |}]>
                       (settings cfg')) cfg'
             else cfg') = serverPermissions cfg') by (intros; by case_match).
  rewrite Hin. clear Hin.
  case_bool_decide as Hhas; simpl.
  - destruct (serverPermissions cfg !! k) as [perms|] eqn:Hk; [done|].
    rewrite bool_decide_false; [done|]. intros ->. rewrite Hk in Hhas.
    by destruct Hhas.
  - case_bool_decide as Hk.
    + subst k. rewrite lookup_insert_eq.
      destruct (serverPermissions cfg !! Guild.id g) eqn:Hg; [|done].
      destruct Hhas. by eexists.
    + rewrite lookup_insert_ne by done. by case_match.
Qed.

Lemma ensureServer_settings cfg g k :
  settings (ensureServer cfg g) !! k
  = match settings cfg !! k with
    | Some st => Some st
    | None => if bool_decide (k = Guild.id g)
              then Some {| ServerSettings.prefix := None |} else None
    end.
Proof.
  unfold ensureServer.
  set (cfg1 := if negb (bool_decide (is_Some (serverPermissions cfg !! Guild.id g)))
               then _ else cfg).
  assert (Hs : settings cfg1 = settings cfg) by (subst cfg1; by case_match).
  clearbody cfg1. rewrite <- Hs.
  case_bool_decide as Hhas; simpl.
  - destruct (settings cfg1 !! k) as [st|] eqn:Hk; [done|].
    rewrite bool_decide_false; [done|]. intros ->. rewrite Hk in Hhas.
    by destruct Hhas.
  - case_bool_decide as Hk.
    + subst k. rewrite lookup_insert_eq.
      destruct (settings cfg1 !! Guild.id g) eqn:Hg; [|done].
      destruct Hhas. by eexists.
    + rewrite lookup_insert_ne by done. by case_match.
Qed.

Lemma onConnect_entries (servers : list Guild.t) cfg k :
  serverPermissions (foldl ensureServer cfg servers) !! k
  = match serverPermissions cfg !! k with
    | Some perms => Some perms
    | None => if bool_decide (k ∈ Guild.id <$> servers) then Some ∅ else None
    end
  ∧ settings (foldl ensureServer cfg servers) !! k
    = match settings cfg !! k with
      | Some st => Some st
      | None => if bool_decide (k ∈ Guild.id <$> servers)
                then Some {| ServerSettings.prefix := None |} else None
      end.
Proof.
  revert cfg. induction servers as [|g servers IH]; intros cfg.
  - simpl. split; by case_match.
  - cbn [foldl]. rewrite fmap_cons.
    destruct (IH (ensureServer cfg g)) as [-> ->].
    rewrite ensureServer_permissions, ensureServer_settings.
    assert (Hmem : bool_decide (k ∈ Guild.id g :: (Guild.id <$> servers))
                   = bool_decide (k = Guild.id g)
                     || bool_decide (k ∈ Guild.id <$> servers)).
    { apply eq_true_iff_eq.
      rewrite orb_true_iff, !bool_decide_eq_true, elem_of_cons. done. }
    rewrite Hmem.
    split.
    + destruct (serverPermissions cfg !! k); [done|].
      destruct (bool_decide (k = Guild.id g)); [done|]. simpl.
      by destruct (bool_decide (k ∈ Guild.id <$> servers)).
    + destruct (settings cfg !! k); [done|].
      destruct (bool_decide (k = Guild.id g)); [done|]. simpl.
      by destruct (bool_decide (k ∈ Guild.id <$> servers)).
Qed.

Lemma onConnect_frame (servers : list Guild.t) cfg :
  owner (foldl ensureServer cfg servers) = owner cfg
  ∧ prefix (foldl ensureServer cfg servers) = prefix cfg
  ∧ commandAliases (foldl ensureServer cfg servers) = commandAliases cfg
  ∧ defaultColors (foldl ensureServer cfg servers) = defaultColors cfg
  ∧ defaultUserCooldown (foldl ensureServer cfg servers) = defaultUserCooldown cfg
  ∧ blockedUsers (foldl ensureServer cfg servers) = blockedUsers cfg
  ∧ groups (foldl ensureServer cfg servers) = groups cfg
  ∧ commandPermissions (foldl ensureServer cfg servers) = commandPermissions cfg.
Proof.
  revert cfg. induction servers as [|g servers IH]; intros cfg; simpl; [done|].
  destruct (IH (ensureServer cfg g)) as (-> & -> & -> & -> & -> & -> & -> & ->).
  apply ensureServer_frame.
Qed.

(** X17: what connecting does to the configuration.  Every server the
    client is in has its entries in [serverPermissions] and [settings]
    afterwards, so that for a message from such a server the dispatcher's
    look-up of the role override gives a value and does not throw; the
    entries that were there are kept, and prefixes, role overrides that
    could be read before, permission checks and the look-up of commands
    come out as before. *)
Theorem onConnect_servers servers b :
  let b' := onConnect servers b in
  (∀ g, g ∈ servers →
     is_Some (serverPermissions (config b') !! Guild.id g)
     ∧ is_Some (settings (config b') !! Guild.id g))
  ∧ (∀ c g,
       guild (message c) = Some g → g ∈ servers →
       ∃ role, roleOverrideFor (config b') c = inr role)
  ∧ (∀ c role, roleOverrideFor (config b) c = inr role →
               roleOverrideFor (config b') c = inr role)
  ∧ (∀ msg, prefixForMessageContext (config b') msg
            = prefixForMessageContext (config b) msg)
  ∧ (∀ member user group role,
       hasPermission (config b') member user group role
       = hasPermission (config b) member user group role)
  ∧ (∀ modules tok, getCommandNamed modules (config b') tok
                    = getCommandNamed modules (config b) tok).
Proof.
  intros b'.
  assert (Hcfg : config b' = foldl ensureServer (config b) servers) by done.
  clearbody b'.
  destruct (onConnect_frame servers (config b))
    as (Hown & Hpfx & Hal & _ & _ & _ & Hgr & Hcp).
  assert (Hentries : ∀ g, g ∈ servers →
            is_Some (serverPermissions (config b') !! Guild.id g)
            ∧ is_Some (settings (config b') !! Guild.id g)).
  { intros g Hg. rewrite Hcfg.
    destruct (onConnect_entries servers (config b) (Guild.id g)) as [-> ->].
    assert (Hid : Guild.id g ∈ Guild.id <$> servers).
    { apply list_elem_of_fmap. by exists g. }
    split; case_match; try done; by rewrite bool_decide_true. }
  split_and!.
  - exact Hentries.
  - intros c g Hg Hin. unfold roleOverrideFor. rewrite Hg.
    destruct (Hentries g Hin) as [[perms ->] _]. by eexists.
  - intros c role. unfold roleOverrideFor.
    destruct (guild (message c)) as [g|]; [|done]. rewrite Hcfg.
    destruct (onConnect_entries servers (config b) (Guild.id g)) as [-> _].
    by destruct (serverPermissions (config b) !! Guild.id g).
  - intros msg. unfold prefixForMessageContext. rewrite Hcfg, Hpfx.
    destruct (guild msg) as [g|]; [|done].
    destruct (onConnect_entries servers (config b) (Guild.id g)) as [_ ->].
    destruct (settings (config b) !! Guild.id g); [done|].
    by case_bool_decide.
  - intros member user group role. unfold hasPermission.
    by rewrite Hcfg, Hown, Hgr.
  - intros modules tok. unfold getCommandNamed, resolveAlias.
    by rewrite Hcfg, Hal.
Qed.

(** ** Loading and unloading modules *)




Lemma registry_set_new name m (modules : Registry) :
  name ∉ modules.*1 →
  registry_set name m modules
  = registry_insert (array_index (of_string name)) name m modules.
Proof. intros Hout. unfold registry_set. by rewrite bool_decide_false. Qed.

(** Where [registry_insert] puts the new entry: the entries before it are
    array indices below the new one, the entry behind it is not, and a name
    that is no array index goes last. *)
Lemma registry_insert_split index name m (modules : Registry) :
  ∃ l1 l2,
    registry_insert index name m modules = l1 ++ (name, m) :: l2
    ∧ modules = l1 ++ l2
    ∧ (index = None → l2 = [])
    ∧ (∀ i, index = Some i →
         Forall (λ e : string * Module,
                   ∃ j, array_index (of_string e.1) = Some j ∧ (j < i)%N) l1
         ∧ ∀ e j, head l2 = Some e → array_index (of_string e.1) = Some j →
                  ¬ (j < i)%N).
Proof.
  induction modules as [|[n m'] ms (l1 & l2 & Hins & Hms & Hnone & Hsome)].
  - exists [], []. split_and!; [done..|]. intros i _. split; [constructor|done].
  - cbn [registry_insert].
    destruct index as [i|].
    + destruct (array_index (of_string n)) as [j|] eqn:Hn.
      * case_bool_decide as Hlt.
        -- exists ((n, m') :: l1), l2. rewrite Hins.
           split_and!; [done | by rewrite Hms | done |].
           intros i' [= <-]. destruct (Hsome i eq_refl) as [Hall Hhead].
           split; [|done]. constructor; [|done]. by exists j.
        -- exists [], ((n, m') :: ms). split_and!; [done..|].
           intros i' [= <-]. split; [constructor|].
           intros e j' [= <-]. simpl. rewrite Hn. by intros [= <-].
      * exists [], ((n, m') :: ms). split_and!; [done..|].
        intros i' _. split; [constructor|].
        intros e j' [= <-]. simpl. by rewrite Hn.
    + exists ((n, m') :: l1), l2. rewrite Hins.
      split_and!; [done | by rewrite Hms | done | done].
Qed.

Lemma registry_get_middle name m (l1 l2 : Registry) :
  name ∉ l1.*1 → registry_get name (l1 ++ (name, m) :: l2) = Some m.
Proof.
  induction l1 as [|[n m0] l1 IH]; intros Hout; simpl.
  - by rewrite bool_decide_true.
  - rewrite bool_decide_false.
    + apply IH. intros Hin. apply Hout. by right.
    + intros ->. apply Hout. left.
Qed.


Lemma registry_get_None name (modules : Registry) :
  name ∉ modules.*1 → registry_get name modules = None.
Proof.
  induction modules as [|[n m] ms IH]; intros Hout; simpl; [done|].
  rewrite bool_decide_false.
  - apply IH. intros Hin. apply Hout. by right.
  - intros ->. apply Hout. left.
Qed.

Lemma registry_get_Some name (modules : Registry) :
  name ∈ modules.*1 → is_Some (registry_get name modules).
Proof.
  induction modules as [|[n m] ms IH]; simpl.
  - by intros ?%elem_of_nil.
  - intros [->|Hin]%elem_of_cons.
    + rewrite bool_decide_true by done. by eexists.
    + case_bool_decide; [by eexists | by apply IH].
Qed.

Lemma registry_replace_middle name m m' (l1 l2 : Registry) :
  name ∉ l1.*1 →
  registry_replace name m' (l1 ++ (name, m) :: l2) = l1 ++ (name, m') :: l2.
Proof.
  induction l1 as [|[n m0] l1 IH]; intros Hout; simpl.
  - by rewrite bool_decide_true.
  - rewrite bool_decide_false.
    + rewrite IH; [done|]. intros Hin. apply Hout. by right.
    + intros ->. apply Hout. left.
Qed.

Lemma registry_delete_keys name (modules : Registry) :
  name ∉ (registry_delete name modules).*1.
Proof.
  unfold registry_delete. intros ([n m] & -> & Hin)%list_elem_of_fmap.
  by apply list_elem_of_filter in Hin as [Hne _].
Qed.

Lemma registry_delete_get name n (modules : Registry) :
  n ≠ name → registry_get n (registry_delete name modules) = registry_get n modules.
Proof.
  intros Hne. unfold registry_delete, Registry in *.
  induction modules as [|[n0 m0] ms IH]; [done|].
  rewrite filter_cons. simpl. destruct (decide (n0 ≠ name)) as [Hn0|Hn0]; simpl.
  - by rewrite IH.
  - apply dec_stable in Hn0. subst n0.
    rewrite bool_decide_false by done. exact IH.
Qed.

Lemma registry_delete_fresh name (modules : Registry) :
  name ∉ modules.*1 → registry_delete name modules = modules.
Proof.
  intros Hout. unfold registry_delete, Registry in *.
  induction modules as [|[n m] ms IH]; [done|].
  rewrite filter_cons. simpl. rewrite decide_True.
  - f_equal. apply IH. intros Hin. apply Hout. by right.
  - intros ->. apply Hout. left.
Qed.

Lemma registry_delete_middle name m (l1 l2 : Registry) :
  name ∉ (l1 ++ l2).*1 →
  registry_delete name (l1 ++ (name, m) :: l2) = l1 ++ l2.
Proof.
  intros Hout.
  transitivity (registry_delete name (l1 ++ l2)); [|by apply registry_delete_fresh].
  unfold registry_delete, Registry in *.
  rewrite !filter_app, filter_cons. simpl. by rewrite decide_False by (by intros ?).
Qed.

Lemma registry_set_placed name m (modules : Registry) :
  name ∉ modules.*1 → placed name m modules (registry_set name m modules).
Proof.
  intros Hout. rewrite registry_set_new by done.
  destruct (registry_insert_split (array_index (of_string name)) name m modules)
    as (l1 & l2 & Hins & Hms & Hnone & Hsome).
  by exists l1, l2.
Qed.

Lemma registry_set_again name m m' (modules ms : Registry) :
  name ∉ modules.*1 →
  placed name m modules ms → placed name m' modules (registry_set name m' ms).
Proof.
  intros Hout (l1 & l2 & -> & -> & Hnone & Hsome).
  assert (Hl1 : name ∉ l1.*1).
  { intros Hin. apply Hout. rewrite fmap_app. apply elem_of_app. by left. }
  unfold registry_set. rewrite bool_decide_true.
  - rewrite registry_replace_middle by done. by exists l1, l2.
  - rewrite fmap_app. apply elem_of_app. right. left.
Qed.

Lemma loadFrom_loading name modules acc directory :
  name ∉ modules.*1 →
  loading name modules acc → loading name modules (loadFrom name acc directory).
Proof.
  intros Hout. destruct acc as [[ms found] calls]. unfold loadFrom.
  destruct (existsSync _); [|done].
  destruct (require _) as [err|[cmds mw]]; simpl.
  - destruct found.
    + intros [Hm Hcalls]. split; [done|]. apply elem_of_app. by left.
    + intros [Hm Hcalls]. split; [done|].
      rewrite elem_of_app, list_elem_of_singleton. by intros [?|?].
  - intros Hacc.
    assert (Hcalls : None ∈ calls ++ [None]).
    { apply elem_of_app. right. by apply list_elem_of_singleton. }
    split; [|done]. destruct found.
    + destruct Hacc as [(m & Hm & _) _]. eexists.
      split; [by eapply registry_set_again | done].
    + destruct Hacc as [-> _]. eexists.
      split; [by apply registry_set_placed | done].
Qed.

Lemma loadModule_inherited moduleSources name modules :
  name ∈ Proto.keys →
  loadModule moduleSources name modules
  = (modules, [Some (JSError.Error ("Module " +:+ name +:+ " already loaded"))]).
Proof.
  intros Hin. unfold loadModule, registry_has.
  rewrite (bool_decide_true (name ∈ Proto.keys)) by done.
  by rewrite orb_true_r.
Qed.

Lemma loadModule_cases moduleSources name modules :
  name ∉ modules.*1 →
  name ∉ Proto.keys →
  let r := loadModule moduleSources name modules in
  ((∃ m, placed name m modules r.1
         ∧ defaultAliases m = buildDefaultAliases (commands m))
   ∧ None ∈ r.2)
  ∨ (r.1 = modules ∧ (None ∉ r.2)
     ∧ last r.2 = Some (Some (JSError.Error ("Module " +:+ name +:+ " not found")))).
Proof.
  intros Hout Hplain r. subst r. unfold loadModule, registry_has.
  rewrite !bool_decide_false by done. simpl.
  assert (Hinv : loading name modules
            (foldl (loadFrom name) (modules, false, []) moduleSources)).
  { assert (Hstart : loading name modules (modules, false, [])).
    { split; [done|]. apply not_elem_of_nil. }
    revert Hstart. generalize (modules, false, @nil (option JSError.t)).
    induction moduleSources as [|d ds IH]; intros acc Hacc; [done|].
    simpl. apply IH. by apply loadFrom_loading. }
  destruct (foldl _ _ _) as [[ms found] calls]. destruct found; simpl in *.
  - by left.
  - right. destruct Hinv as [-> Hcalls]. split_and!; [done| |by rewrite last_snoc].
    rewrite elem_of_app, list_elem_of_singleton. by intros [?|?].
Qed.


(** X20: unloading.  A name that is neither a key of the registry nor
    inherited by every object gives the error that the module is not
    loaded and leaves the registry alone.  An inherited name that is no
    key, such as toString, passes the test: [require.resolve] throws, the
    registry is unchanged and the callback is not called.  For a key of
    the registry the callback is called once without an error and the call
    ends normally.  In every case the name is not a key afterwards, every
    other module is found as before, and the modules that remain keep
    their order. *)
Theorem unloadModule_spec name modules :
  let r := unloadModule name modules in
  (name ∉ modules.*1 → name ∉ Proto.keys →
   r = (modules,
        ([Some (JSError.Error ("Module " +:+ name +:+ " not currently loaded"))],
         Normal)))
  ∧ (name ∉ modules.*1 → name ∈ Proto.keys →
     r = (modules, ([], Throw resolve_of_undefined)))
  ∧ (name ∈ modules.*1 →
     r = (registry_delete name modules, ([None], Normal)))
  ∧ (name ∉ r.1.*1)
  ∧ (∀ n, n ≠ name → registry_get n r.1 = registry_get n modules)
  ∧ r.1 `sublist_of` modules
  ∧ (∀ e, e ∈ modules → e.1 ≠ name → e ∈ r.1).
Proof.
  intros r. subst r. unfold unloadModule, registry_has.
  destruct (decide (name ∈ modules.*1)) as [Hin|Hout].
  - rewrite (bool_decide_true (name ∈ modules.*1)) by done. simpl.
    destruct (registry_get_Some name modules Hin) as [m ->]. simpl.
    split_and!; [done | done | done | apply registry_delete_keys | | |].
    + intros n Hn. by apply registry_delete_get.
    + apply sublist_filter.
    + intros e He Hne. unfold registry_delete. by apply list_elem_of_filter.
  - rewrite (bool_decide_false (name ∈ modules.*1)) by done. simpl.
    rewrite (registry_get_None name modules Hout).
    case_bool_decide as Hproto; simpl; split_and!; done.
Qed.

(** X21: loading a module that was not loaded and unloading it again gives
    back the registry as it was, whether or not the module was found. *)
Theorem load_then_unload moduleSources name modules :
  name ∉ modules.*1 →
  (unloadModule name (loadModule moduleSources name modules).1).1 = modules.
Proof.
  intros Hout.
  destruct (decide (name ∈ Proto.keys)) as [Hin|Hplain].
  { rewrite loadModule_inherited by done. simpl.
    unfold unloadModule, registry_has.
    rewrite (bool_decide_true (name ∈ Proto.keys)) by done.
    rewrite orb_true_r. by rewrite (registry_get_None name modules Hout). }
  destruct (loadModule_cases moduleSources name modules Hout Hplain)
    as [[(m & (l1 & l2 & Hm & Hms & _) & _) _]|(Hm & _)]; cbv zeta in Hm; rewrite Hm.
  - assert (Hl1 : name ∉ l1.*1).
    { intros Hin. apply Hout. rewrite Hms, fmap_app. apply elem_of_app. by left. }
    unfold unloadModule, registry_has. rewrite bool_decide_true.
    + simpl. rewrite registry_get_middle by done. simpl.
      rewrite Hms. apply registry_delete_middle. by rewrite <- Hms.
    + rewrite fmap_app. apply elem_of_app. right. left.
  - unfold unloadModule, registry_has. by rewrite !bool_decide_false.
Qed.

(** X22: the registry that [load] builds.  No name is in it twice, every
    name in it is one of the active modules, and every module in it has
    the alias index built from its own commands. *)
Theorem load_registry moduleSources activeModules :
  let modules := load moduleSources activeModules in
  NoDup modules.*1
  ∧ (∀ n, n ∈ modules.*1 → n ∈ activeModules)
  ∧ Forall (λ e, defaultAliases e.2 = buildDefaultAliases (commands e.2)) modules.
Proof.
  intros modules. subst modules. unfold load.
  assert (Hgen : ∀ names (ms : Registry),
    NoDup ms.*1
    ∧ Forall (λ e, defaultAliases e.2 = buildDefaultAliases (commands e.2)) ms →
    let ms' := foldl (λ modules name, (loadModule moduleSources name modules).1)
                     ms names in
    (NoDup ms'.*1
     ∧ Forall (λ e, defaultAliases e.2 = buildDefaultAliases (commands e.2)) ms')
    ∧ ∀ n, n ∈ ms'.*1 → n ∈ ms.*1 ∨ n ∈ names).
  { induction names as [|name names IH]; intros ms Hms; simpl.
    - split; [done|]. intros n ?. by left.
    - assert (Hstep : (NoDup (loadModule moduleSources name ms).1.*1
                ∧ Forall (λ e, defaultAliases e.2 = buildDefaultAliases (commands e.2))
                         (loadModule moduleSources name ms).1)
              ∧ ∀ n, n ∈ (loadModule moduleSources name ms).1.*1 →
                     n ∈ ms.*1 ∨ n = name).
      { destruct (decide (name ∈ ms.*1)) as [Hin|Hout].
        { unfold loadModule, registry_has. rewrite bool_decide_true by done.
          simpl. split; [done|]. intros n ?. by left. }
        destruct (decide (name ∈ Proto.keys)) as [Hin|Hplain].
        { rewrite loadModule_inherited by done.
          simpl. split; [done|]. intros n ?. by left. }
        destruct (loadModule_cases moduleSources name ms Hout Hplain)
          as [[(m & (l1 & l2 & Hm & Hl & _) & Hal) _]|(Hm & _)];
          cbv zeta in Hm; rewrite Hm.
        + destruct Hms as [Hnd Hall]. rewrite Hl in Hnd, Hall, Hout.
          rewrite fmap_app in Hnd, Hout. apply NoDup_app in Hnd as (Hnd1 & Hdis & Hnd2).
          apply Forall_app in Hall as [Hall1 Hall2].
          rewrite elem_of_app in Hout.
          split; [split|].
          * rewrite fmap_app, fmap_cons. apply NoDup_app. split_and!; [done | |].
            -- intros n Hn [->|Hn2]%elem_of_cons; [tauto | by apply (Hdis n)].
            -- apply NoDup_cons. split; [tauto | done].
          * apply Forall_app. split; [done|]. by constructor.
          * intros n. rewrite Hl, !fmap_app, fmap_cons, !elem_of_app, elem_of_cons.
            simpl. tauto.
        + split; [done|]. intros n ?. by left. }
      destruct Hstep as [Hinv Hkeys].
      destruct (IH _ Hinv) as [Hinv' Hkeys']. split; [done|].
      intros n Hn. destruct (Hkeys' n Hn) as [Hin|Hin]; [|right; by right].
      destruct (Hkeys n Hin) as [?| ->]; [by left | right; left]. }
  destruct (Hgen activeModules []) as [[Hnd Hall] Hkeys].
  { split; constructor. }
  split_and!; [done | | done].
  intros n Hn. destruct (Hkeys n Hn) as [[]%elem_of_nil|?]. done.
Qed.

(** ** The parsers of [bot.util] *)

Lemma lower_digit ch : is_digit ch = true → JS.lower_char ch = ch.
Proof.
  destruct ch as [[] [] [] [] [] [] [] []]; vm_compute; intros H;
    first [discriminate H | reflexivity].
Qed.

Lemma toLowerCase_digits ds :
  Forall (λ ch, is_digit ch = true) ds → JS.toLowerCase ds = ds.
Proof.
  induction 1 as [|ch ds Hch _ IH]; simpl; [done|].
  rewrite lower_digit by done. f_equal. exact IH.
Qed.

Lemma toLowerCase_app s t :
  JS.toLowerCase (s ++ t) = JS.toLowerCase s ++ JS.toLowerCase t.
Proof. apply map_app. Qed.

Lemma digit_not_bang ch : is_digit ch = true → ch ≠ "!"%char.
Proof. intros H ->. discriminate H. Qed.

Lemma mention_text opening bang allowed ds :
  Forall (λ ch, is_digit ch = true) ds →
  (17 ≤ length ds ≤ 19)%nat →
  (bang = true → allowed = true) →
  mention opening allowed (mentionText opening bang ds) = Some ds.
Proof.
  intros Hds Hlen Hbang. unfold mention, mentionText.
  rewrite startsWith_app, drop_app_length.
  assert (Hrest : match (if bang then ["!"%char] else []) ++ ds ++ [">"%char] with
                  | "!"%char :: r' =>
                      if allowed then r'
                      else (if bang then ["!"%char] else []) ++ ds ++ [">"%char]
                  | _ => (if bang then ["!"%char] else []) ++ ds ++ [">"%char]
                  end = ds ++ [">"%char]).
  { destruct bang; simpl.
    - by rewrite Hbang.
    - destruct Hds as [|ch ds Hch Hds]; [simpl in Hlen; lia|]. simpl.
      pose proof (digit_not_bang ch Hch) as Hne.
      destruct ch as [[] [] [] [] [] [] [] []]; try done. }
  rewrite Hrest.
  rewrite takeWhile_app_all by (done || by intros x [= <-]).
  rewrite dropWhile_app_all by done. simpl.
  rewrite !bool_decide_true by done. done.
Qed.

Lemma toLowerCase_mentionText opening bang ds :
  JS.toLowerCase opening = opening →
  Forall (λ ch, is_digit ch = true) ds →
  JS.toLowerCase (mentionText opening bang ds) = mentionText opening bang ds.
Proof.
  intros Hop Hds. unfold mentionText.
  rewrite !toLowerCase_app, Hop, (toLowerCase_digits ds) by done.
  by destruct bang.
Qed.

(** X23: a user mention, with or without the exclamation mark, is answered
    from the member stored under the id it carries: the result is that
    member's user alone, or nothing when the server has no such member.
    Names are not searched for a mention. *)
Theorem parseUsername_mention bang ds server :
  Forall (λ ch, is_digit ch = true) ds →
  (17 ≤ length ds ≤ 19)%nat →
  parseUsername (to_string (mentionText ["<"; "@"]%char bang ds)) server
  = (λ m, [ServerMember.user m])
      <$> collection_get (to_string ds) (Server.members server).
Proof.
  intros Hds Hlen. unfold parseUsername.
  rewrite of_to_string, toLowerCase_mentionText by done.
  rewrite (mention_text _ bang true ds) by done.
  by destruct (collection_get _ _).
Qed.

Lemma filter_nonempty_map {A B} (f : A → B) (p : A → bool) (l : list A) (r : list B) :
  match List.filter p l with
  | [] => None
  | _ => Some (map f (List.filter p l))
  end = Some r → r ≠ [] ∧ r = map f (List.filter p l).
Proof. destruct (List.filter p l); [done|]. intros [= <-]. done. Qed.

Lemma includes_nil s : includes s [] = true.
Proof. by destruct s. Qed.

Lemma collection_get_elem {A} k (l : list (string * A)) v :
  collection_get k l = Some v → (k, v) ∈ l.
Proof.
  induction l as [|[k' v'] l IH]; simpl; [done|].
  case_bool_decide as Hk.
  - intros [= ->]. subst. left.
  - intros Hv. right. by apply IH.
Qed.

Lemma snowflake_no_mention opening s :
  isSnowflake s = true → opening ≠ [] →
  Forall (λ ch, is_digit ch = false) opening →
  JS.toLowerCase (of_string s) = of_string s
  ∧ mention opening true (of_string s) = None
  ∧ mention opening false (of_string s) = None.
Proof.
  unfold isSnowflake. intros [Hds Hlen]%andb_true_iff Hne Hop.
  apply bool_decide_eq_true in Hlen.
  rewrite forallb_forall in Hds.
  assert (Hall : Forall (λ ch, is_digit ch = true) (of_string s)).
  { apply Forall_forall. intros ch Hch. apply Hds. by apply list_elem_of_In. }
  split; [by apply toLowerCase_digits|].
  assert (Hstart : JS.startsWith opening (of_string s) = false).
  { destruct Hop as [|o op Ho _]; [done|].
    destruct Hall as [|ch l Hch _]; [done|]. simpl.
    rewrite bool_decide_false; [done|]. intros ->. by rewrite Ho in Hch. }
  unfold mention. by rewrite Hstart.
Qed.

(** X24: what [parseUsername] answers.  It never gives an empty list;
    every user it gives belongs to a member of the server; the empty text
    gives the users of all members, in order; and a member is found by
    the member's id when that is a snowflake. *)
Theorem parseUsername_result userString server :
  parseUsername userString server ≠ Some []
  ∧ (∀ l u, parseUsername userString server = Some l → u ∈ l →
       ∃ k m, (k, m) ∈ Server.members server ∧ ServerMember.user m = u)
  ∧ (Server.members server ≠ [] →
     parseUsername "" server
     = Some (map ServerMember.user (Server.members server).*2))
  ∧ (∀ k m, (k, m) ∈ Server.members server →
       ServerMember.id m = userString → isSnowflake userString = true →
       ∃ l, parseUsername userString server = Some l ∧ ServerMember.user m ∈ l).
Proof.
  split_and!.
  - unfold parseUsername. destruct (mention _ _ _).
    + by destruct (collection_get _ _).
    + destruct (List.filter _ _); done.
  - intros l u. unfold parseUsername. destruct (mention _ _ _) as [id|].
    + destruct (collection_get _ _) as [m|] eqn:Hget; [|done].
      intros [= <-] ->%list_elem_of_singleton.
      apply collection_get_elem in Hget. by eexists _, _.
    + intros [_ ->]%filter_nonempty_map Hu.
      apply list_elem_of_In, in_map_iff in Hu as (m & <- & Hm).
      apply filter_In in Hm as [Hm _]. apply list_elem_of_In in Hm.
      apply list_elem_of_fmap in Hm as ([k m'] & -> & Hin). by eexists _, _.
  - intros Hne. unfold parseUsername. simpl.
    assert (Hall : ∀ ms : list ServerMember.t,
              List.filter (memberMatches []) ms = ms).
    { induction ms as [|m ms IH]; simpl; [done|].
      unfold memberMatches at 1. rewrite includes_nil. simpl. by rewrite IH. }
    rewrite Hall. destruct (Server.members server); done.
  - intros k m Hin Hid Hsnow. unfold parseUsername.
    destruct (snowflake_no_mention ["<"; "@"]%char userString Hsnow)
      as (-> & -> & _); [done | by repeat constructor |].
    assert (Hm : m ∈ List.filter (memberMatches (of_string userString))
                       (Server.members server).*2).
    { apply list_elem_of_In, filter_In. split.
      - apply list_elem_of_In, list_elem_of_fmap. by exists (k, m).
      - unfold memberMatches. rewrite Hid.
        rewrite (bool_decide_true (of_string userString = of_string userString))
          by done.
        apply orb_true_r. }
    destruct (List.filter _ _) as [|m0 ms] eqn:Hf; [by apply elem_of_nil in Hm|].
    eexists. split; [done|].
    apply list_elem_of_In, in_map, list_elem_of_In, Hm.
Qed.

(** X25: roles and channels.  A role or channel mention is answered from
    the entry stored under the id it carries, that entry alone or nothing;
    neither parser ever gives an empty list; and the empty text gives
    every role, or every channel, of the server. *)
Theorem parseRole_parseChannel ds server :
  Forall (λ ch, is_digit ch = true) ds →
  (17 ≤ length ds ≤ 19)%nat →
  parseRole (to_string (mentionText ["<"; "@"; "&"]%char false ds)) server
  = (λ r, [r]) <$> collection_get (to_string ds) (Server.roles server)
  ∧ parseChannel (to_string (mentionText ["<"; "#"]%char false ds)) server
    = (λ c, [c]) <$> collection_get (to_string ds) (Server.channels server)
  ∧ (∀ s, parseRole s server ≠ Some [] ∧ parseChannel s server ≠ Some [])
  ∧ (Server.roles server ≠ [] →
     parseRole "" server = Some (Server.roles server).*2)
  ∧ (Server.channels server ≠ [] →
     parseChannel "" server = Some (Server.channels server).*2).
Proof.
  intros Hds Hlen.
  assert (Hall : ∀ {A} (f : A → list ascii) (l : list A),
            List.filter (λ x, includes (f x) []) l = l).
  { intros A f l. induction l as [|x l IH]; simpl; [done|].
    by rewrite includes_nil, IH. }
  split_and!.
  - unfold parseRole.
    rewrite of_to_string, toLowerCase_mentionText by done.
    rewrite (mention_text _ false false ds) by done.
    by destruct (collection_get _ _).
  - unfold parseChannel.
    rewrite of_to_string, toLowerCase_mentionText by done.
    rewrite (mention_text _ false false ds) by done.
    by destruct (collection_get _ _).
  - intros s. unfold parseRole, parseChannel. split.
    + destruct (mention _ _ _); [by destruct (collection_get _ _)|].
      destruct (List.filter _ _); done.
    + destruct (mention _ _ _); [by destruct (collection_get _ _)|].
      destruct (List.filter _ _); done.
  - intros Hne. unfold parseRole. simpl.
    rewrite (Hall _ (λ r, JS.toLowerCase (of_string (Role.name r)))).
    destruct (Server.roles server); done.
  - intros Hne. unfold parseChannel. simpl.
    rewrite (Hall _ (λ c, JS.toLowerCase (of_string (Channel.name c)))).
    destruct (Server.channels server); done.
Qed.

End Liora.

(** * Scenarios *)

Module Scenario.

(** A stand-in for [pretty-ms] on the two durations used below. *)
Definition prettyMs (ms : Z) : string :=
  if bool_decide (ms = 60000) then "1m"
  else if bool_decide (ms = 1000) then "1s" else "".

(** A file system without module directories. *)
Definition path_join (a b : string) : string := a +:+ "/" +:+ b.
Definition dirname : string := "/opt/liora/src".
Definition existsSync (p : string) : bool := false.
Definition require (p : string) : JSError.t + (list Command * list Middleware) :=
  inl (JSError.Error ("Cannot find module '" +:+ p +:+ "'")).

Definition colors : Colors.t :=
  {| Colors.neutral := "#287db4"; Colors.error := "#c63737";
     Colors.success := "#41b95f" |}.

(** The default configuration with the given rate-limit settings, the owner
    [9] and the group [mods] holding the user [7]. *)
Definition cfg (count interval duration : Z) : Config :=
  {| owner := "9"; prefix := "$"; commandAliases := ∅; defaultColors := colors;
     defaultUserCooldown := {| intervalMs := interval; messageCount := count;
                               blockDurationMs := duration |};
     blockedUsers := []; settings := ∅; groups := {[ "mods" := ["7"] ]};
     commandPermissions := ∅; serverPermissions := ∅ |}.

(** The same with [ping] restricted to [mods] by a permission override. *)
Definition cfg_ping_mods : Config :=
  {| owner := "9"; prefix := "$"; commandAliases := ∅; defaultColors := colors;
     defaultUserCooldown := {| intervalMs := 10000; messageCount := 5;
                               blockDurationMs := 60000 |};
     blockedUsers := []; settings := ∅; groups := {[ "mods" := ["7"] ]};
     commandPermissions := {[ "ping" := "mods" ]}; serverPermissions := ∅ |}.

Definition alice : User.t :=
  {| User.id := "1"; User.bot := false; User.username := "alice";
     User.discriminator := "0001" |}.

Definition boss : User.t :=
  {| User.id := "9"; User.bot := false; User.username := "boss";
     User.discriminator := "0009" |}.

(** A direct message. *)
Definition dm (user : User.t) (text : string) : Message :=
  {| author := user; content := text; channel := "dm"; guild := None;
     member := None |}.

(** A message in the guild [g1]. *)
Definition in_guild (user : User.t) (text : string) : Message :=
  {| author := user; content := text; channel := "general";
     guild := Some {| Guild.id := "g1" |};
     member := Some {| GuildMember.roles := ∅ |} |}.

Definition ping : Command :=
  {| name := "ping"; aliases := ["p"]; argumentNames := [];
     permissionLevel := "all"; description := "Replies with pong.";
     execute := λ _ _ b, (b, Resolved) |}.

Definition pong : Command :=
  {| name := "pong"; aliases := ["ping"]; argumentNames := [];
     permissionLevel := "all"; description := "Replies with ping.";
     execute := λ _ _ b, (b, Resolved) |}.

Definition kick : Command :=
  {| name := "kick"; aliases := ["k"]; argumentNames := ["user"; "reason?"];
     permissionLevel := "mods"; description := "Kicks a user.";
     execute := λ _ _ b,
       (b, Rejected (Reason.Failure (JSError.Error "Missing Permissions"))) |}.

(** A command that answers in the channel of the message. *)
Definition echo : Command :=
  {| name := "echo"; aliases := []; argumentNames := ["text"];
     permissionLevel := "all"; description := "Repeats a text.";
     execute := λ a msg b,
       (with_sent (sent b ++ [(channel msg,
                               {| Embed.title := "echo";
                                  Embed.description := head a;
                                  Embed.color := "#287db4" |})]) b,
        Resolved) |}.

(** A command whose body throws before it gets to return a promise. *)
Definition crash : Command :=
  {| name := "crash"; aliases := []; argumentNames := [];
     permissionLevel := "all"; description := "Throws at once.";
     execute := λ _ _ b, (b, Threw (JSError.TypeError "x is not a function")) |}.

Definition module_of (p : string) (cmds : list Command) : Module :=
  {| path := p; commands := cmds; middleware := [];
     defaultAliases := buildDefaultAliases cmds |}.

Definition registry : Registry :=
  [("liora-utils", module_of "/opt/liora/modules/liora-utils/main.js" [ping]);
   ("liora-admin", module_of "/opt/liora/modules/liora-admin/main.js" [kick])].

(** A module with the commands [echo] and [crash]. *)
Definition registry_faulty : Registry :=
  [("liora-faulty", module_of "/opt/liora/modules/liora-faulty/main.js" [echo; crash])].

(** Two modules, the second of which declares [ping] as an alias. *)
Definition registry_chain : Registry :=
  [("first", module_of "/opt/liora/modules/first/main.js" [ping]);
   ("second", module_of "/opt/liora/modules/second/main.js" [pong])].

Definition stop : Container → Bot → Bot * Completion := λ _ b, (b, Normal).

(** The container as [commandDetector] leaves it. *)
Definition detected (msg : Message) (tok : string) (a : list string) : Container :=
  {| message := msg; args := Some a; command := Some tok |}.

(** Five messages in ten seconds, a block of a minute. *)
Definition settings5 : Config := cfg 5 10000 60000.

Definition booted : Bot := boot settings5.

Definition four : list (Z * Message) :=
  [(0, dm alice "$ping"); (1000, dm alice "$ping"); (2000, dm alice "$ping");
   (3000, dm alice "$ping")].

(** The bot when the fifth message arrives within the window. *)
Definition at_fifth : Bot := advance 4000 (run prettyMs registry four booted).

Definition fifth : Container := detected (dm alice "$ping") "ping" [].

(** Discharging the next premise of [H] by computation. *)
Ltac premise H tac :=
  match type of H with
  | ?A → _ => let h := fresh "Hp" in assert (h : A) by tac; specialize (H h)
  end.

(** The commands of the scenarios leave the configuration, the counters,
    the windows, the timers and the clock alone. *)
Lemma registry_tame : tame_commands registry.
Proof. repeat constructor. Qed.

Lemma registry_chain_tame : tame_commands registry_chain.
Proof. repeat constructor. Qed.

Lemma registry_faulty_tame : tame_commands registry_faulty.
Proof. repeat constructor. Qed.

(** ** The rate limiter *)



(** C2, refuted as stated: after five messages within one window the user is
    on the blocked list and still in the set of open windows. *)
Lemma blocked_and_cooling :
  let b := run prettyMs registry (four ++ [(4000, dm alice "$ping")]) (boot settings5) in
  blocked "1" b ∧ cooldownActive "1" b.
Proof.
  cbv zeta. unfold blocked, cooldownActive.
  split; apply (bool_decide_unpack _); vm_compute; exact I.
Qed.

(** The fifth message leaves its author blocked and in an open window. *)
Lemma blocked_in_open_window_witness :
  (blocked "1" (rateLimiter prettyMs fifth stop at_fifth).1
   ∧ cooldownActive "1" (rateLimiter prettyMs fifth stop at_fifth).1)
  ∧ JS.or_zero (userMessageCounters
                  (run prettyMs registry (four ++ [(4000, dm alice "$ping")])
                       (boot settings5)) !! "1")
    = messageCount (defaultUserCooldown settings5).
Proof.
  destruct (blocked_in_open_window prettyMs registry fifth stop at_fifth)
    as (Hblock & _ & _ & Hreach & _).
  split.
  - apply Hblock. vm_compute. reflexivity.
  - apply Hreach.
    + repeat constructor.
    + apply registry_tame.
    + unfold blocked. apply (bool_decide_unpack _). vm_compute. exact I.
    + unfold cooldownActive. apply (bool_decide_unpack _). vm_compute. exact I.
Defined.



(** ** Command lookup *)







(** ** The dispatcher *)

(** C6, refuted as stated: [kick] needs one argument and gets one, but the
    author is not in [mods], so the command is not executed. *)
Lemma enough_arguments_not_executed :
  let c := detected (dm alice "$kick bob") "kick" ["bob"] in
  name <$> getCommandNamed registry (config booted) (command c) = Some "kick"
  ∧ (requiredArguments kick ≤ length ["bob"])%nat
  ∧ executed (commandDispatcher registry c stop booted).1 = [].
Proof. cbv zeta. split_and!; [vm_compute; reflexivity | vm_compute; lia | vm_compute; reflexivity]. Qed.

(** [kick] without an argument gets the usage error and nothing else.  With
    exactly the one argument it requires, from the owner, it is executed and
    no usage error is sent: all that is sent is the report of its rejection.
    [echo] with an argument more than it names is executed, and what it
    sends is all that is sent.  [kick] with its argument from a user
    outside [mods] is denied. *)
Lemma commandDispatcher_arity_witness :
  let c0 := detected (dm alice "$kick") "kick" [] in
  let c1 := detected (dm boss "$kick bob") "kick" ["bob"] in
  let c2 := detected (dm alice "$echo hi there") "echo" ["hi"; "there"] in
  let c3 := detected (dm alice "$kick bob") "kick" ["bob"] in
  (∃ b', commandDispatcher registry c0 stop booted = (b', Normal)
         ∧ sent b' = [("dm", {| Embed.title := "❌   Not enough arguments.";
                                Embed.description :=
                                  Some ("Use `$kick user reason?`:" +:+ newline
                                        +:+ " Kicks a user.");
                                Embed.color := "#c63737" |})]
         ∧ executed b' = [])
  ∧ requiredArguments kick = length ["bob"]
  ∧ commandDispatcher registry c1 stop booted
    = settle c1 (execute kick ["bob"] (message c1) (invoked kick ["bob"] c1 booted))
  ∧ executed (commandDispatcher registry c1 stop booted).1
    = [("kick", ["bob"], dm boss "$kick bob")]
  ∧ sent (commandDispatcher registry c1 stop booted).1
    = [("dm", {| Embed.title := "❌   Error executing command `kick`";
                 Embed.description := Some "Missing Permissions";
                 Embed.color := "#c63737" |})]
  ∧ commandDispatcher registry_faulty c2 stop booted
    = (with_sent [("dm", {| Embed.title := "echo";
                            Embed.description := Some "hi";
                            Embed.color := "#287db4" |})]
                 (invoked echo ["hi"; "there"] c2 booted), Normal)
  ∧ ∃ b', commandDispatcher registry c3 stop booted = (b', Normal)
          ∧ executed b' = []
          ∧ sent b' = [("dm", {| Embed.title := "🔒   undefined";
                                 Embed.description := None;
                                 Embed.color :=
                                   "You do not have permission to use this command." |})].
Proof.
  cbv zeta. split_and!.
  - pose proof (commandDispatcher_arity registry
                  (detected (dm alice "$kick") "kick" []) stop booted kick []) as H.
    premise H ltac:(vm_compute; reflexivity).
    premise H ltac:(reflexivity).
    destruct H as [Hfew _].
    premise Hfew ltac:(vm_compute; lia).
    destruct Hfew as (b' & Hrun & Hsent & Hexec & _).
    exists b'. split_and!; [exact Hrun | rewrite Hsent | rewrite Hexec];
      vm_compute; reflexivity.
  - vm_compute. reflexivity.
  - pose proof (commandDispatcher_arity registry
                  (detected (dm boss "$kick bob") "kick" ["bob"])
                  stop booted kick ["bob"]) as H.
    premise H ltac:(vm_compute; reflexivity).
    premise H ltac:(reflexivity).
    destruct H as (_ & Hmany & _).
    premise Hmany ltac:(vm_compute; lia).
    specialize (Hmany (Value.Str "")).
    premise Hmany ltac:(vm_compute; reflexivity).
    cbv zeta in Hmany. destruct Hmany as [Hallowed _].
    premise Hallowed ltac:(vm_compute; reflexivity).
    destruct Hallowed as (Hrun & _). exact Hrun.
  - vm_compute. reflexivity.
  - vm_compute. reflexivity.
  - pose proof (commandDispatcher_arity registry_faulty
                  (detected (dm alice "$echo hi there") "echo" ["hi"; "there"])
                  stop booted echo ["hi"; "there"]) as H.
    premise H ltac:(vm_compute; reflexivity).
    premise H ltac:(reflexivity).
    destruct H as (_ & Hmany & _).
    premise Hmany ltac:(vm_compute; lia).
    specialize (Hmany (Value.Str "")).
    premise Hmany ltac:(vm_compute; reflexivity).
    cbv zeta in Hmany. destruct Hmany as [Hallowed _].
    premise Hallowed ltac:(vm_compute; reflexivity).
    destruct Hallowed as (_ & _ & _ & _ & Hres & _).
    rewrite Hres by reflexivity. vm_compute. reflexivity.
  - pose proof (commandDispatcher_arity registry
                  (detected (dm alice "$kick bob") "kick" ["bob"])
                  stop booted kick ["bob"]) as H.
    premise H ltac:(vm_compute; reflexivity).
    premise H ltac:(reflexivity).
    destruct H as (_ & Hmany & _).
    premise Hmany ltac:(vm_compute; lia).
    specialize (Hmany (Value.Str "")).
    premise Hmany ltac:(vm_compute; reflexivity).
    cbv zeta in Hmany. destruct Hmany as [_ Hdenied].
    premise Hdenied ltac:(vm_compute; reflexivity).
    destruct Hdenied as (b' & Hrun & Hexec & Hsent).
    exists b'. split_and!; [exact Hrun | rewrite Hexec | rewrite Hsent];
      vm_compute; reflexivity.
Defined.

(** C7: the dispatcher at the failing inputs.  [ping] is restricted to
    [mods] by an override under its name.  Typed by its name it is denied
    to a user outside [mods]; typed as [p], its alias, it is checked
    against its declared level [all] and executed for that user.  And in a
    guild without an entry in [serverPermissions] the look-up of the role
    override throws instead of giving the empty string. *)
Lemma override_missed_by_alias :
  let n := detected (dm alice "$ping") "ping" [] in
  let c := detected (dm alice "$p") "p" [] in
  let g := detected (in_guild alice "$ping") "ping" [] in
  name <$> getCommandNamed registry cfg_ping_mods (command n) = Some "ping"
  ∧ name <$> getCommandNamed registry cfg_ping_mods (command c) = Some "ping"
  ∧ permissionLevel_spec cfg_ping_mods ping = "mods"
  ∧ permissionLevelFor cfg_ping_mods n ping = Value.Str "mods"
  ∧ permissionLevelFor cfg_ping_mods c ping = Value.Str "all"
  ∧ commandDispatcher registry n stop (boot cfg_ping_mods)
    = (denied n (boot cfg_ping_mods), Normal)
  ∧ executed (commandDispatcher registry c stop (boot cfg_ping_mods)).1
    = [("ping", [], dm alice "$p")]
  ∧ roleOverride_spec settings5 (message g) ping = ""
  ∧ roleOverrideFor settings5 g = inl property_of_undefined
  ∧ commandDispatcher registry g stop booted = (booted, Throw property_of_undefined).
Proof. cbv zeta. split_and!; vm_compute; reflexivity. Qed.

(** C8, refuted as stated: [crash] throws before it returns a promise.
    There is nothing for the [catch] of the dispatcher to be called on: the
    exception leaves the dispatcher and no error is reported to the
    channel. *)
Lemma thrown_failure_not_caught :
  let c := detected (dm alice "$crash") "crash" [] in
  name <$> getCommandNamed registry_faulty (config booted) (command c) = Some "crash"
  ∧ (execute crash [] (message c) (invoked crash [] c booted)).2
    = Threw (JSError.TypeError "x is not a function")
  ∧ commandDispatcher registry_faulty c stop booted
    = (invoked crash [] c booted, Throw (JSError.TypeError "x is not a function"))
  ∧ sent (commandDispatcher registry_faulty c stop booted).1 = [].
Proof. cbv zeta. split_and!; vm_compute; reflexivity. Qed.

(** The rejection of [kick] is caught: it reaches the channel as an error,
    and the dispatcher returns normally. *)
Lemma commandDispatcher_catches_witness :
  let c := detected (dm boss "$kick bob") "kick" ["bob"] in
  ∃ b',
    commandDispatcher registry c stop booted = (b', Normal)
    ∧ sent b' = [("dm", {| Embed.title := "❌   Error executing command `kick`";
                           Embed.description := Some "Missing Permissions";
                           Embed.color := "#c63737" |})]
    ∧ executed b' = [("kick", ["bob"], dm boss "$kick bob")].
Proof.
  cbv zeta.
  pose proof (commandDispatcher_catches registry
                (detected (dm boss "$kick bob") "kick" ["bob"]) stop booted
                kick ["bob"] (Value.Str "")) as H.
  premise H ltac:(vm_compute; reflexivity).
  premise H ltac:(reflexivity).
  premise H ltac:(vm_compute; lia).
  premise H ltac:(reflexivity).
  premise H ltac:(vm_compute; reflexivity).
  cbv zeta in H. destruct H as (_ & Hrej & _).
  destruct (Hrej "Missing Permissions") as (b' & Hrun & Hsent & Hexec & _).
  { left. eexists. split; reflexivity. }
  exists b'. split; [exact Hrun|]. split.
  - rewrite Hsent. vm_compute. reflexivity.
  - rewrite Hexec. vm_compute. reflexivity.
Defined.

(** ** Loading twice, and a prefix alone *)

(** Loading [liora-utils] again changes nothing; a module that is not on
    disk is reported as not found. *)
Lemma loadModule_already_loaded_witness :
  "liora-utils" ∈ registry.*1
  ∧ loadModule path_join dirname existsSync require [localModuleDirectory]
               "liora-utils" registry
    = (registry, [Some (JSError.Error "Module liora-utils already loaded")])
  ∧ loadModule path_join dirname existsSync require [localModuleDirectory]
               "liora-player" registry
    = (registry, [Some (JSError.Error "Module liora-player not found")]).
Proof.
  assert (Hin : "liora-utils" ∈ registry.*1).
  { apply (bool_decide_unpack _). vm_compute. exact I. }
  split; [exact Hin|]. split.
  - apply (loadModule_already_loaded path_join dirname existsSync require
             [localModuleDirectory] "liora-utils" registry Hin).
  - vm_compute. reflexivity.
Defined.

(** The prefix alone, with or without blanks after it, makes the detector
    throw. *)
Lemma commandDetector_no_token_witness :
  let c := {| message := dm alice "$  "; args := None; command := None |} in
  (∀ next, commandDetector c next booted = (booted, Throw map_of_null))
  ∧ onMessage prettyMs registry (dm alice "$  ") booted = (booted, Throw map_of_null)
  ∧ onMessage prettyMs registry (dm alice "$") booted = (booted, Throw map_of_null).
Proof.
  cbv zeta.
  pose proof (commandDetector_no_token prettyMs registry
                {| message := dm alice "$  "; args := None; command := None |}
                booted) as H.
  cbv zeta in H.
  premise H ltac:(vm_compute; reflexivity).
  premise H ltac:(vm_compute; reflexivity).
  destruct H as (Hthrow & _ & _).
  split; [exact Hthrow|]. split; vm_compute; reflexivity.
Defined.


(** ** The chain, the detector and the way to a command *)

Definition robot : User.t :=
  {| User.id := "5"; User.bot := true; User.username := "robot";
     User.discriminator := "0005" |}.

(** A stage of a module that leaves a note for every message it sees. *)
Definition note : Middleware := λ c next b,
  next c (with_sent (sent b ++ [(channel (message c),
                                 {| Embed.title := "seen";
                                    Embed.description := None;
                                    Embed.color := "#000000" |})]) b).

Definition registry_noting : Registry :=
  [("liora-notes",
    {| path := "/opt/liora/modules/liora-notes/main.js"; commands := [];
       middleware := [note]; defaultAliases := ∅ |});
   ("liora-utils", module_of "/opt/liora/modules/liora-utils/main.js" [ping])].

(** Closing goals about concrete words, gaps and lists. *)
Ltac concrete :=
  repeat first [ discriminate | reflexivity | split
               | apply Forall_nil_2 | apply Forall_cons_2 ].

(** The stage of the module sees the message of a user and not that of a
    bot. *)
Lemma onMessage_bot_author_witness :
  onMessage prettyMs registry_noting (dm robot "$ping") booted = (booted, Normal)
  ∧ length (sent (onMessage prettyMs registry_noting (dm alice "hello") booted).1)
    = 1%nat.
Proof.
  split.
  - pose proof (onMessage_bot_author prettyMs registry_noting
                  (dm robot "$ping") booted) as H.
    premise H ltac:(reflexivity).
    destruct H as [H _]. exact H.
  - vm_compute. reflexivity.
Defined.

(** Capitals in the command and blanks between and after the words. *)
Lemma commandDetector_words_witness :
  (∀ next,
     commandDetector
       {| message := dm alice "$Kick  bob spam "; args := None; command := None |}
       next booted
     = next (detected (dm alice "$Kick  bob spam ") "kick" ["bob"; "spam"]) booted)
  ∧ tokens (of_string "Kick  bob spam")
    = [of_string "Kick"; of_string "bob"; of_string "spam"].
Proof.
  split; [|vm_compute; reflexivity].
  intros next.
  pose proof (commandDetector_words
                {| message := dm alice "$Kick  bob spam "; args := None;
                   command := None |} next booted
                [] (of_string "Kick")
                [(of_string "  ", of_string "bob"); (of_string " ", of_string "spam")]
                (of_string " ")) as H.
  premise H ltac:(vm_compute; reflexivity).
  premise H ltac:(concrete).
  premise H ltac:(concrete).
  premise H ltac:(concrete).
  premise H ltac:(concrete).
  destruct H as (_ & _ & H). exact H.
Defined.

(** A text in double quotes with a blank inside, and a word after it. *)
Lemma quoted_argument_witness :
  JS.match_args ("034"%char :: of_string "hello world"
                 ++ "034"%char :: of_string " x")
  = Some [("034"%char :: of_string "hello world" ++ ["034"%char]); of_string "x"]
  ∧ JS.strip_quotes ("034"%char :: of_string "hello world" ++ ["034"%char])
    = of_string "hello world".
Proof.
  pose proof (quoted_argument "034"%char (of_string "hello world")
                (of_string " x")) as H.
  premise H ltac:(reflexivity).
  premise H ltac:(apply (bool_decide_unpack _); vm_compute; exact I).
  destruct H as (Hmatch & _ & Hstrip & _).
  split.
  - rewrite Hmatch. vm_compute. reflexivity.
  - apply Hstrip. intros x Hx. vm_compute in Hx.
    injection Hx as <-. reflexivity.
Defined.

(** [echo] with two words behind it goes all the way to [execute]: the
    message is counted, the command is called once with the two words, and
    what it sends is all that is sent. *)
Lemma onMessage_runs_command_witness :
  ∃ b1,
    onMessage prettyMs registry_faulty (dm alice "$echo hi there") booted
    = (b1, Normal)
    ∧ sent b1 = [("dm", {| Embed.title := "echo";
                           Embed.description := Some "hi";
                           Embed.color := "#287db4" |})]
    ∧ executed b1 = [("echo", ["hi"; "there"], dm alice "$echo hi there")]
    ∧ userMessageCounters b1 !! "1" = Some 1.
Proof.
  pose proof (onMessage_runs_command prettyMs registry_faulty
                (dm alice "$echo hi there") booted
                [] (of_string "echo")
                [(of_string " ", of_string "hi"); (of_string " ", of_string "there")]
                [] echo (Value.Str "")) as H.
  cbv zeta in H.
  premise H ltac:(concrete).
  premise H ltac:(reflexivity).
  premise H ltac:(apply (bool_decide_unpack _); vm_compute; exact I).
  premise H ltac:(vm_compute; reflexivity).
  premise H ltac:(vm_compute; reflexivity).
  premise H ltac:(concrete).
  premise H ltac:(concrete).
  premise H ltac:(concrete).
  premise H ltac:(concrete).
  premise H ltac:(vm_compute; reflexivity).
  premise H ltac:(vm_compute; lia).
  premise H ltac:(reflexivity).
  premise H ltac:(vm_compute; reflexivity).
  destruct H as (_ & _ & _ & _ & _ & Hres).
  eexists. split; [apply Hres; reflexivity|].
  split_and!; vm_compute; reflexivity.
Defined.

(** ** Counting and blocking *)

(** Talk without the prefix leaves the bot as it was. *)
Lemma onMessage_not_a_command_witness :
  onMessage prettyMs registry (dm alice "hello there") booted = (booted, Normal)
  ∧ userMessageCounters
      (onMessage prettyMs registry (dm alice "$ping") booted).1 !! "1" = Some 1.
Proof.
  split; [|vm_compute; reflexivity].
  pose proof (onMessage_not_a_command prettyMs registry
                (dm alice "hello there") booted) as H.
  premise H ltac:(vm_compute; reflexivity).
  destruct H as [_ H]. apply H. concrete.
Defined.

(** The fifth message of [alice] blocks her; the owner's state stays. *)
Lemma onMessage_other_users_witness :
  userMessageCounters (onMessage prettyMs registry (dm alice "$ping") at_fifth).1 !! "9"
  = userMessageCounters at_fifth !! "9"
  ∧ ("9" ∈ blockedUsers (config (onMessage prettyMs registry
                                   (dm alice "$ping") at_fifth).1)
     ↔ "9" ∈ blockedUsers (config at_fifth))
  ∧ "1" ∈ blockedUsers (config (onMessage prettyMs registry
                                  (dm alice "$ping") at_fifth).1).
Proof.
  pose proof (onMessage_other_users prettyMs registry (dm alice "$ping")
                at_fifth "9") as H.
  cbv zeta in H.
  premise H ltac:(concrete).
  premise H ltac:(apply registry_tame).
  premise H ltac:(discriminate).
  destruct H as (_ & Hcount & Hblocked & _).
  split; [exact Hcount|]. split; [exact Hblocked|].
  apply (bool_decide_unpack _). vm_compute. exact I.
Defined.

(** Four messages up to 3000: the window is open at 9000 and closed at
    13000. *)
Lemma windows_close_witness :
  userCooldowns (advance 13000 (run prettyMs registry four (boot settings5))) = ∅
  ∧ (∀ u, JS.or_zero (userMessageCounters
                        (advance 13000 (run prettyMs registry four (boot settings5)))
                        !! u) = 0)
  ∧ "1" ∈ userCooldowns (advance 9000 (run prettyMs registry four (boot settings5))).
Proof.
  pose proof (windows_close prettyMs registry settings5 four 13000) as H.
  cbv zeta in H.
  premise H ltac:(concrete).
  premise H ltac:(apply registry_tame).
  premise H ltac:(vm_compute; discriminate).
  destruct H as (Hclosed & Hzero & _).
  split; [exact Hclosed|]. split; [exact Hzero|].
  apply (bool_decide_unpack _). vm_compute. exact I.
Defined.

(** After a block shorter than the window the counter still stands at the
    limit: the next message is swallowed without a word. *)
Lemma rateLimiter_over_limit_witness :
  let b := advance 2000
             (run prettyMs registry [(0, dm alice "$ping"); (100, dm alice "$ping")]
                  (boot (cfg 2 10000 1000))) in
  (∀ next, rateLimiter prettyMs fifth next b
           = (countMessage "1" (openWindow "1" b), Normal))
  ∧ sent (countMessage "1" (openWindow "1" b)) = sent b
  ∧ blockedUsers (config (countMessage "1" (openWindow "1" b))) = [].
Proof.
  cbv zeta. split_and!.
  - intros next.
    pose proof (rateLimiter_over_limit prettyMs registry fifth next
                  (advance 2000
                     (run prettyMs registry
                          [(0, dm alice "$ping"); (100, dm alice "$ping")]
                          (boot (cfg 2 10000 1000))))) as H.
    cbv zeta in H.
    premise H ltac:(vm_compute; discriminate).
    destruct H as (H & _). exact H.
  - vm_compute. reflexivity.
  - vm_compute. reflexivity.
Defined.

(** The same block with a window longer than the block: two messages per
    ten seconds, a second of block.  Blocked at 100, off the list at
    1100. *)
Lemma block_ends_witness :
  let modules := registry in
  let cfg := cfg 2 10000 1000 in
  let evs0 := [(0, dm alice "$ping")] in
  let mb := dm alice "$ping" in
  let evs1 := [(500, dm alice "$ping")] in
  let evs2 := [(700, dm boss "$ping")] in
  let u := User.id (author mb) in
  let b1 := deliver prettyMs modules (run prettyMs modules evs0 (boot cfg)) (100, mb) in
  let b := advance 1100 (run prettyMs modules evs2 (run prettyMs modules evs1 b1)) in
  (u ∉ blockedUsers (config b))
  ∧ ∀ c next, author_id c = u → blockHandler c next b = next c b.
Proof.
  cbv zeta.
  pose proof (block_ends prettyMs registry (cfg 2 10000 1000)
                [(0, dm alice "$ping")] 100 (dm alice "$ping")
                [(500, dm alice "$ping")] [(700, dm boss "$ping")] 1100) as H.
  cbv zeta in H.
  premise H ltac:(concrete).
  premise H ltac:(apply registry_tame).
  premise H ltac:(apply (bool_decide_unpack _); vm_compute; exact I).
  premise H ltac:(apply (bool_decide_unpack _); vm_compute; exact I).
  premise H ltac:(constructor; [vm_compute; reflexivity | constructor]).
  premise H ltac:(constructor; [vm_compute; discriminate | constructor]).
  premise H ltac:(vm_compute; discriminate).
  exact H.
Defined.

(** The configuration with [alice] on the blocked list from the start. *)
Definition cfg_banned : Config :=
  {| owner := "9"; prefix := "$"; commandAliases := ∅; defaultColors := colors;
     defaultUserCooldown := {| intervalMs := 10000; messageCount := 5;
                               blockDurationMs := 60000 |};
     blockedUsers := ["1"]; settings := ∅; groups := {[ "mods" := ["7"] ]};
     commandPermissions := ∅; serverPermissions := ∅ |}.

(** Days later she is still on it. *)
Lemma configured_block_stays_witness :
  let b := advance 500000000 (run prettyMs registry four (boot cfg_banned)) in
  "1" ∈ blockedUsers (config b)
  ∧ ∀ m, User.id (author m) = "1" → onMessage prettyMs registry m b = (b, Normal).
Proof.
  cbv zeta.
  pose proof (configured_block_stays prettyMs registry cfg_banned four
                500000000 "1") as H.
  cbv zeta in H.
  premise H ltac:(concrete).
  premise H ltac:(apply registry_tame).
  premise H ltac:(apply (bool_decide_unpack _); vm_compute; exact I).
  exact H.
Defined.

(** ** The dispatcher and the servers *)

(** [ping] in a guild the configuration does not know. *)
Lemma commandDispatcher_guild_without_entry_witness :
  commandDispatcher registry (detected (in_guild boss "$ping") "ping" []) stop booted
  = (booted, Throw property_of_undefined)
  ∧ (onMessage prettyMs registry (in_guild boss "$ping") booted).2
    = Throw property_of_undefined.
Proof.
  split; [|vm_compute; reflexivity].
  pose proof (commandDispatcher_guild_without_entry prettyMs registry
                (detected (in_guild boss "$ping") "ping" []) stop booted
                ping [] {| Guild.id := "g1" |}) as H.
  cbv zeta in H.
  premise H ltac:(vm_compute; reflexivity).
  premise H ltac:(reflexivity).
  premise H ltac:(vm_compute; lia).
  premise H ltac:(reflexivity).
  premise H ltac:(vm_compute; reflexivity).
  destruct H as [H _]. exact H.
Defined.

(** [alice] is not in [mods], and this is what she is sent. *)
Lemma commandDispatcher_denied_notice_witness :
  ∃ b',
    commandDispatcher registry (detected (dm alice "$kick bob") "kick" ["bob"])
                      stop booted = (b', Normal)
    ∧ sent b' = [("dm", {| Embed.title := "🔒   undefined";
                           Embed.description := None;
                           Embed.color :=
                             "You do not have permission to use this command." |})]
    ∧ executed b' = [].
Proof.
  pose proof (commandDispatcher_denied_notice registry
                (detected (dm alice "$kick bob") "kick" ["bob"]) stop booted
                kick ["bob"] (Value.Str "")) as H.
  premise H ltac:(vm_compute; reflexivity).
  premise H ltac:(reflexivity).
  premise H ltac:(vm_compute; lia).
  premise H ltac:(reflexivity).
  premise H ltac:(vm_compute; reflexivity).
  destruct H as (b' & Hrun & Hsent & Hexec & _).
  exists b'. split; [exact Hrun|]. split.
  - rewrite Hsent. vm_compute. reflexivity.
  - rewrite Hexec. vm_compute. reflexivity.
Defined.

(** The configuration with an entry for the guild [g1]. *)
Definition cfg_g1 : Config :=
  {| owner := "9"; prefix := "$"; commandAliases := ∅; defaultColors := colors;
     defaultUserCooldown := {| intervalMs := 10000; messageCount := 5;
                               blockDurationMs := 60000 |};
     blockedUsers := []; settings := {[ "g1" := {| ServerSettings.prefix := None |} ]};
     groups := {[ "mods" := ["7"] ]};
     commandPermissions := ∅; serverPermissions := {[ "g1" := ∅ ]} |}.

(** The owner's [kick] in the guild: the command is called, and its
    rejection is what the dispatcher reports. *)
Lemma commandDispatcher_owner_witness :
  let c := detected (in_guild boss "$kick bob") "kick" ["bob"] in
  commandDispatcher registry c stop (boot cfg_g1)
  = settle c (execute kick ["bob"] (message c) (invoked kick ["bob"] c (boot cfg_g1)))
  ∧ executed (commandDispatcher registry c stop (boot cfg_g1)).1
    = [("kick", ["bob"], in_guild boss "$kick bob")]
  ∧ (commandDispatcher registry c stop (boot cfg_g1)).2 = Normal.
Proof.
  cbv zeta.
  pose proof (commandDispatcher_owner registry
                (detected (in_guild boss "$kick bob") "kick" ["bob"]) stop
                (boot cfg_g1) kick ["bob"]) as H.
  premise H ltac:(vm_compute; reflexivity).
  premise H ltac:(reflexivity).
  premise H ltac:(vm_compute; lia).
  premise H ltac:(reflexivity).
  premise H ltac:(intros g Hg; injection Hg as <-; eexists; vm_compute; reflexivity).
  destruct H as (Hrun & _).
  split; [exact Hrun|]. rewrite Hrun. split; vm_compute; reflexivity.
Defined.

(** ** Modules on disk *)

(** A disk that holds the modules [liora-utils] and [2] as directories
    without a package file. *)
Definition disk (p : string) : bool :=
  bool_decide (p = "/opt/liora/src/../modules/liora-utils")
  || bool_decide (p = "/opt/liora/src/../modules/2").

Definition required (p : string) : JSError.t + (list Command * list Middleware) :=
  if bool_decide (p = "/opt/liora/src/../modules/liora-utils/main.js")
  then inr ([ping], [])
  else if bool_decide (p = "/opt/liora/src/../modules/2/main.js")
  then inr ([kick], [])
  else inl (JSError.Error ("Cannot find module '" +:+ p +:+ "'")).


(** Loaded beside two other modules and unloaded again. *)
Lemma load_then_unload_witness :
  (unloadModule "liora-utils"
     (loadModule path_join dirname disk required [localModuleDirectory]
                 "liora-utils" registry_chain).1).1 = registry_chain
  ∧ length (loadModule path_join dirname disk required [localModuleDirectory]
                       "liora-utils" registry_chain).1 = 3%nat.
Proof.
  split; [|vm_compute; reflexivity].
  pose proof (load_then_unload path_join dirname disk required
                [localModuleDirectory] "liora-utils" registry_chain) as H.
  premise H ltac:(apply (bool_decide_unpack _); vm_compute; exact I).
  exact H.
Defined.

(** ** Mentions *)

Definition al : ServerMember.t :=
  {| ServerMember.user := alice; ServerMember.nickname := Some "Al";
     ServerMember.id := "123456789012345678" |}.

Definition mods : Role.t :=
  {| Role.id := "223456789012345678"; Role.name := "Mods" |}.

Definition general : Channel.t :=
  {| Channel.id := "323456789012345678"; Channel.name := "general" |}.

Definition guild1 : Server.t :=
  {| Server.members := [("123456789012345678", al)];
     Server.roles := [("223456789012345678", mods)];
     Server.channels := [("323456789012345678", general)] |}.

(** A mention of [alice], and her name in capitals. *)
Lemma parseUsername_mention_witness :
  parseUsername "<@!123456789012345678>" guild1 = Some [alice]
  ∧ parseUsername "ALI" guild1 = Some [alice]
  ∧ parseUsername "<@123456789012345679>" guild1 = None.
Proof.
  split; [|split; vm_compute; reflexivity].
  pose proof (parseUsername_mention true (of_string "123456789012345678")
                guild1) as H.
  premise H ltac:(repeat (apply Forall_cons_2; [reflexivity|]); apply Forall_nil_2).
  premise H ltac:(vm_compute; lia).
  exact H.
Defined.

(** A mention of the role, and the same id taken for a channel. *)
Lemma parseRole_parseChannel_witness :
  parseRole "<@&223456789012345678>" guild1 = Some [mods]
  ∧ parseChannel "<#223456789012345678>" guild1 = None
  ∧ parseChannel "GEN" guild1 = Some [general].
Proof.
  pose proof (parseRole_parseChannel (of_string "223456789012345678")
                guild1) as H.
  premise H ltac:(repeat (apply Forall_cons_2; [reflexivity|]); apply Forall_nil_2).
  premise H ltac:(vm_compute; lia).
  destruct H as (Hrole & Hchannel & _).
  split; [exact Hrole|]. split; [exact Hchannel|]. vm_compute. reflexivity.
Defined.

End Scenario.
